(** * Ratings and comments over a nested-bucket store

    A shallow embedding of the two services of this repository (the
    rating service of [rating/] and the comment service of [comment/])
    together with the part of the bolt key/value store they are written
    against, and the properties of the storage protocol stated over it.

    Conventions.
    - Go's [string] and [[]byte] are Rocq strings (lists of bytes); the
      conversions [[]byte(s)] and [string(b)] are the identity.
    - Go's [int] is a 64-bit two's-complement integer: a [Z] together with
      the wrap-around of every addition written out ([int_add]).
    - A function returning a pointer and an [error] returns a pair of
      options here: Go lets both be non-nil at once, and [save] uses that.
    - A bolt transaction is the root bucket passed explicitly; a
      [*bolt.Bucket] handle is the path of bucket names from the root.
    - The database is open and the disk is healthy: [ErrDatabaseNotOpen]
      and I/O failures are outside the model. A bucket is the finite map
      of its keys; the pages bolt spreads it over are not modelled. *)

From Stdlib Require Import ZArith Lia Ascii.
From Stdlib Require Import Decimal DecimalFacts DecimalString DecimalZ.
From stdpp Require Import gmap strings list fin_maps sorting.

#[local] Set Warnings "-register-all".
#[local] Open Scope Z_scope.

(* ===================================================================== *)
(** ** Errors *)
(* ===================================================================== *)

(** Go's [error] values met by the two services: bolt's sentinel errors,
    the errors built with [fmt.Errorf], and whatever [encoding/json]
    reports. *)
Inductive error :=
  | ErrBucketNotFound
  | ErrBucketNameRequired
  | ErrKeyRequired
  | ErrKeyTooLarge
  | ErrValueTooLarge
  | ErrIncompatibleValue
  | Errorf (msg : string)
  | ErrJSON (msg : string).

#[global] Instance error_eq_dec : EqDecision error.
Proof. solve_decision. Defined.

(** [err.Error()], which is what the verb [%v] prints for an error. *)
Definition error_message (err : error) : string :=
  match err with
  | ErrBucketNotFound => "bucket not found"
  | ErrBucketNameRequired => "bucket name required"
  | ErrKeyRequired => "key required"
  | ErrKeyTooLarge => "key too large"
  | ErrValueTooLarge => "value too large"
  | ErrIncompatibleValue => "incompatible value"
  | Errorf msg => msg
  | ErrJSON msg => msg
  end.

(* ===================================================================== *)
(** ** The store: nested buckets (github.com/boltdb/bolt) *)
(* ===================================================================== *)

Module bolt.

(** Inside a bucket one key space holds both plain values and nested
    buckets. *)
Inductive node :=
  | Leaf (v : string)
  | Nested (m : gmap string node).

Abbreviation bucket := (gmap string node).

(** A [*bolt.Bucket]: the names leading from the root to the bucket. *)
Abbreviation path := (list string).

(** The bucket a handle designates in the transaction [tx]. *)
Fixpoint bucket_at (p : path) (tx : bucket) : option bucket :=
  match p with
  | [] => Some tx
  | k :: p' =>
      match tx !! k with
      | Some (Nested m) => bucket_at p' m
      | _ => None
      end
  end.

(** In-place change of the bucket a handle designates. *)
Fixpoint bucket_alter (f : bucket → bucket) (p : path) (tx : bucket) : bucket :=
  match p with
  | [] => f tx
  | k :: p' =>
      match tx !! k with
      | Some (Nested m) => <[k := Nested (bucket_alter f p' m)]> tx
      | _ => tx
      end
  end.

(** What the store holds at the end of a chain of keys: a plain value
    or a whole nested bucket. *)
Fixpoint node_at (p : path) (n : node) : option node :=
  match p with
  | [] => Some n
  | k :: p' =>
      match n with
      | Nested m => m !! k ≫= node_at p'
      | Leaf _ => None
      end
  end.

(** [b.Bucket(name)]: nil unless [name] is bound to a nested bucket. *)
Definition Bucket_Bucket (tx : bucket) (b : path) (name : string) : option path :=
  match bucket_at b tx with
  | Some m =>
      match m !! name with
      | Some (Nested _) => Some (b ++ [name])
      | _ => None
      end
  | None => None
  end.

(** [tx.Bucket(name)]: the same lookup on the root bucket. *)
Definition Tx_Bucket (tx : bucket) (name : string) : option path :=
  Bucket_Bucket tx [] name.

(** [b.CreateBucketIfNotExists(key)]: the bucket under [key], created
    empty when the key is free. *)
Definition Bucket_CreateBucketIfNotExists (tx : bucket) (b : path) (key : string)
  : error + bucket * path :=
  if decide (key = "") then inl ErrBucketNameRequired
  else
    match bucket_at b tx with
    | None => inl ErrBucketNotFound
    | Some m =>
        match m !! key with
        | Some (Nested _) => inr (tx, b ++ [key])
        | Some (Leaf _) => inl ErrIncompatibleValue
        | None => inr (bucket_alter (λ m, <[key := Nested ∅]> m) b tx, b ++ [key])
        end
    end.

(** [tx.CreateBucketIfNotExists(name)]: the same on the root bucket. *)
Definition Tx_CreateBucketIfNotExists (tx : bucket) (name : string)
  : error + bucket * path :=
  Bucket_CreateBucketIfNotExists tx [] name.

(** [b.Get(key)]: nil if the key is absent or is a nested bucket. *)
Definition Bucket_Get (tx : bucket) (b : path) (key : string) : option string :=
  match bucket_at b tx with
  | Some m =>
      match m !! key with
      | Some (Leaf v) => Some v
      | _ => None
      end
  | None => None
  end.

(** [len(b)] of a byte slice. *)
Definition len (s : string) : Z := Z.of_nat (String.length s).

Definition MaxKeySize : Z := 32768.
Definition MaxValueSize : Z := 2 ^ 31 - 2.

(** The sizes [Put] accepts. *)
Definition storable (key value : string) : Prop :=
  key ≠ "" ∧ len key ≤ MaxKeySize ∧ len value ≤ MaxValueSize.

(** [b.Put(key, value)]: the key must not be empty, key and value must
    fit, and the key must not name a nested bucket. *)
Definition Bucket_Put (tx : bucket) (b : path) (key value : string)
  : bucket * option error :=
  if decide (key = "") then (tx, Some ErrKeyRequired)
  else if decide (MaxKeySize < len key) then (tx, Some ErrKeyTooLarge)
  else if decide (MaxValueSize < len value) then (tx, Some ErrValueTooLarge)
  else
    match bucket_at b tx with
    | None => (tx, Some ErrBucketNotFound)
    | Some m =>
        match m !! key with
        | Some (Nested _) => (tx, Some ErrIncompatibleValue)
        | _ => (bucket_alter (λ m, <[key := Leaf value]> m) b tx, None)
        end
    end.

(** Keys are iterated in byte order. *)
Definition key_le (x y : string * node) : Prop := String.leb x.1 y.1 = true.

#[global] Instance key_le_dec x y : Decision (key_le x y).
Proof. unfold key_le. apply _. Defined.

(** The entries of a bucket in the order of its cursor. *)
Definition Bucket_sorted (m : bucket) : list (string * node) :=
  merge_sort key_le (map_to_list m).

(** [c.seek(key)]: the cursor stops at the first entry whose key is
    [key] or comes after it, if there is one. (The bucket is taken to
    sit in one leaf page; in a bucket spread over several pages the seek
    of bolt stops at the end of the page [key] belongs to, and then
    finds no entry where this one finds the first entry of the next
    page. What is proved of [Delete] below uses only that the seek
    stops at [key] when the bucket holds it and never stops outside the
    bucket, which holds of both.) *)
Definition Cursor_seek (m : bucket) (key : string) : option (string * node) :=
  head (filter (λ kv, String.leb key kv.1 = true) (Bucket_sorted m)).

(** [b.Delete(key)]: it refuses with [ErrIncompatibleValue] when the
    entry the seek stops at is a nested bucket -- it does not compare
    that entry's key with [key] -- and otherwise deletes the key, which
    is a success also when the key is absent. *)
Definition Bucket_Delete (tx : bucket) (b : path) (key : string)
  : bucket * option error :=
  match bucket_at b tx with
  | None => (tx, Some ErrBucketNotFound)
  | Some m =>
      match Cursor_seek m key with
      | Some (_, Nested _) => (tx, Some ErrIncompatibleValue)
      | _ => (bucket_alter (λ m, delete key m) b tx, None)
      end
  end.

(** The pairs [b.ForEach] visits, in order; a nested bucket is visited
    with a nil value. *)
Definition Bucket_entries (tx : bucket) (b : path) : list (string * string) :=
  match bucket_at b tx with
  | Some m =>
      (λ kv, (kv.1, match kv.2 with Leaf v => v | Nested _ => "" end))
        <$> merge_sort key_le (map_to_list m)
  | None => []
  end.

(** [b.ForEach(fn)]: [fn] threads its captured variables as an
    accumulator; the first error stops the iteration. *)
Fixpoint ForEach_loop {A} (fn : string → string → A → A * option error)
    (kvs : list (string * string)) (acc : A) : A * option error :=
  match kvs with
  | [] => (acc, None)
  | (k, v) :: rest =>
      match fn k v acc with
      | (acc', Some err) => (acc', Some err)
      | (acc', None) => ForEach_loop fn rest acc'
      end
  end.

Definition Bucket_ForEach {A} (tx : bucket) (b : path)
    (fn : string → string → A → A * option error) (acc : A) : A * option error :=
  ForEach_loop fn (Bucket_entries tx b) acc.

(** [db.Update(fn)]: one read-write transaction. [fn] returns the
    transaction's final state, the variables it captured and its error;
    an error rolls every write back. *)
Definition Update {A} (db : bucket) (fn : bucket → bucket * A * option error)
  : bucket * A * option error :=
  match fn db with
  | (tx, a, Some err) => (db, a, Some err)
  | (tx, a, None) => (tx, a, None)
  end.

(** [db.View(fn)]: one read-only transaction. *)
Definition View {A} (db : bucket) (fn : bucket → A * option error)
  : A * option error :=
  fn db.

End bolt.

Import bolt.

(* ===================================================================== *)
(** ** encoding/json *)
(* ===================================================================== *)

(** [json.Marshal] and [json.Unmarshal] at one Go type. [json_Unmarshal]
    takes the value its destination pointer holds and returns what it
    holds afterwards. *)
Class JSON (T : Type) := {
  json_Marshal : T → error + string;
  json_Unmarshal : string → T → T * option error
}.

(* ===================================================================== *)
(** ** Resource types: [setup] and [verify] *)
(* ===================================================================== *)

(** Both packages carry the same two functions. *)

(** The loop of [setup], inside its transaction. *)
Fixpoint setup_loop (cmts : list string) (tx : bucket) : bucket * option error :=
  match cmts with
  | [] => (tx, None)
  | b :: rest =>
      match Tx_CreateBucketIfNotExists tx b with
      | inl err => (tx, Some err)
      | inr (tx, _) => setup_loop rest tx
      end
  end.

Definition setup (db : bucket) (cmts : list string) : bucket * option error :=
  let '(db, _, err) :=
    Update db (λ tx, let '(tx, err) := setup_loop cmts tx in (tx, tt, err)) in
  (db, err).

Definition verify (db : bucket) (kind : string) : bool :=
  fst (View db (λ tx,
    let b := Tx_Bucket tx kind in
    (bool_decide (b ≠ None), None))).

(* ===================================================================== *)
(** ** The rating service *)
(* ===================================================================== *)

Module rating.

(** Go's [int]: 64 bits, two's complement. *)
Definition int_min : Z := - 2 ^ 63.
Definition int_max : Z := 2 ^ 63 - 1.

Definition is_int (z : Z) : Prop := int_min ≤ z ≤ int_max.

(** The value an [int] holds after an arithmetic result [z]. *)
Definition int_wrap (z : Z) : Z := (z + 2 ^ 63) mod 2 ^ 64 - 2 ^ 63.

(** [a + b] on [int]. *)
Definition int_add (a b : Z) : Z := int_wrap (a + b).

Record rating := {
  FiveStars : Z;
  FourStars : Z;
  ThreeStars : Z;
  TwoStars : Z;
  OneStars : Z
}.

#[global] Instance rating_eq_dec : EqDecision rating.
Proof. solve_decision. Defined.

(** [rating{}] *)
Definition rating_zero : rating :=
  {| FiveStars := 0; FourStars := 0; ThreeStars := 0; TwoStars := 0; OneStars := 0 |}.

Definition add (r rt : rating) : rating :=
  {| FiveStars := int_add (FiveStars r) (FiveStars rt);
     FourStars := int_add (FourStars r) (FourStars rt);
     ThreeStars := int_add (ThreeStars r) (ThreeStars rt);
     TwoStars := int_add (TwoStars r) (TwoStars rt);
     OneStars := int_add (OneStars r) (OneStars rt) |}.

Definition ensureNotNegative (r : rating) : rating :=
  {| FiveStars := if FiveStars r <? 0 then 0 else FiveStars r;
     FourStars := if FourStars r <? 0 then 0 else FourStars r;
     ThreeStars := if ThreeStars r <? 0 then 0 else ThreeStars r;
     TwoStars := if TwoStars r <? 0 then 0 else TwoStars r;
     OneStars := if OneStars r <? 0 then 0 else OneStars r |}.

(** Every counter fits an [int]. *)
Definition ints (r : rating) : Prop :=
  is_int (FiveStars r) ∧ is_int (FourStars r) ∧ is_int (ThreeStars r) ∧
  is_int (TwoStars r) ∧ is_int (OneStars r).

(** No counter is negative. *)
Definition nonneg (r : rating) : Prop :=
  0 ≤ FiveStars r ∧ 0 ≤ FourStars r ∧ 0 ≤ ThreeStars r ∧
  0 ≤ TwoStars r ∧ 0 ≤ OneStars r.

(** The counter-by-counter sum over the integers, before any wrap. *)
Definition add_exact (r rt : rating) : rating :=
  {| FiveStars := FiveStars r + FiveStars rt;
     FourStars := FourStars r + FourStars rt;
     ThreeStars := ThreeStars r + ThreeStars rt;
     TwoStars := TwoStars r + TwoStars rt;
     OneStars := OneStars r + OneStars rt |}.

(** The merge in the specification's words: the stored aggregate plus
    the delta, counter by counter over the integers, then the floor of 0. *)
Definition merge_words (stored delta : rating) : rating :=
  {| FiveStars := Z.max 0 (FiveStars stored + FiveStars delta);
     FourStars := Z.max 0 (FourStars stored + FourStars delta);
     ThreeStars := Z.max 0 (ThreeStars stored + ThreeStars delta);
     TwoStars := Z.max 0 (TwoStars stored + TwoStars delta);
     OneStars := Z.max 0 (OneStars stored + OneStars delta) |}.

(** The aggregates a sequence of merges goes through in the
    specification's words. *)
Fixpoint words_trace (stored : rating) (deltas : list rating) : list rating :=
  match deltas with
  | [] => []
  | delta :: rest =>
      let merged := merge_words stored delta in
      merged :: words_trace merged rest
  end.

(** No sum of a sequence of merges leaves the range of an [int]. *)
Fixpoint no_overflow (stored : rating) (deltas : list rating) : Prop :=
  match deltas with
  | [] => True
  | delta :: rest =>
      ints (add_exact stored delta) ∧ no_overflow (merge_words stored delta) rest
  end.

(** The merge as the code computes it: the sum is the addition of
    [int], which wraps around, and the floor of 0 follows it. *)
Definition merge_spec (stored delta : rating) : rating :=
  {| FiveStars := Z.max 0 (int_add (FiveStars stored) (FiveStars delta));
     FourStars := Z.max 0 (int_add (FourStars stored) (FourStars delta));
     ThreeStars := Z.max 0 (int_add (ThreeStars stored) (ThreeStars delta));
     TwoStars := Z.max 0 (int_add (TwoStars stored) (TwoStars delta));
     OneStars := Z.max 0 (int_add (OneStars stored) (OneStars delta)) |}.

(** The aggregates a sequence of merges goes through in the code: the
    floor is applied after each merge, and the next merge starts from
    its result. *)
Fixpoint merge_trace (stored : rating) (deltas : list rating) : list rating :=
  match deltas with
  | [] => []
  | delta :: rest =>
      let merged := merge_spec stored delta in
      merged :: merge_trace merged rest
  end.

Definition rateableTypeNotFoundFmt (kind : string) : string :=
  "rateable type, " +:+ kind +:+ ", not found".

Definition rateableNotFoundFmt (kind key : string) : string :=
  kind +:+ " not found with key " +:+ key.

Definition ratingsKey : string := "ratings".

(** The addressing pair of a [rateable]; its [db] field is the store the
    operations take and return. *)
Record rateable := {
  kind : string;
  key : string
}.

Section operations.
Context `{!JSON rating}.

Definition save (r : rateable) (rt : rating) (db : bucket)
  : bucket * option rating * option error :=
  Update db (λ tx,
    match Tx_Bucket tx (kind r) with
    | None => (tx, None, Some (Errorf (rateableTypeNotFoundFmt (kind r))))
    | Some rtBucket =>
    match Bucket_CreateBucketIfNotExists tx rtBucket (key r) with
    | inl err => (tx, None, Some err)
    | inr (tx, rBucket) =>
    match
      match Bucket_Get tx rBucket ratingsKey with
      | Some data => json_Unmarshal data rating_zero
      | None => (rating_zero, None)
      end
    with
    | (_, Some err) => (tx, None, Some err)
    | (currentRating, None) =>
    let newRating := ensureNotNegative (add currentRating rt) in
    match json_Marshal newRating with
    | inl err => (tx, Some newRating, Some err)
    | inr data =>
        let '(tx, err) := Bucket_Put tx rBucket ratingsKey data in
        (tx, Some newRating, err)
    end end end end).

Definition get (r : rateable) (db : bucket) : option rating * option error :=
  View db (λ tx,
    match Tx_Bucket tx (kind r) with
    | None => (None, Some (Errorf (rateableTypeNotFoundFmt (kind r))))
    | Some rtBucket =>
    match Bucket_Bucket tx rtBucket (key r) with
    | None => (None, Some (Errorf (rateableNotFoundFmt (kind r) (key r))))
    | Some rBucket =>
    match Bucket_Get tx rBucket ratingsKey with
    | None => (Some rating_zero, None)
    | Some data =>
        let '(rt, err) := json_Unmarshal data rating_zero in
        (Some rt, err)
    end end end).

(** A client driving one rateable: every delta is merged with [save]
    and the record is read back with [get] right after. The trace
    pairs what each [save] returned with what that [get] returned. *)
Fixpoint save_all (r : rateable) (deltas : list rating) (db : bucket)
  : bucket * list ((option rating * option error) * (option rating * option error)) :=
  match deltas with
  | [] => (db, [])
  | rt :: rest =>
      let '(db, saved, err) := save r rt db in
      let fetched := get r db in
      let '(db', trace) := save_all r rest db in
      (db', ((saved, err), fetched) :: trace)
  end.

(** One request to the rating service. *)
Inductive op :=
  | OpSetup (cmts : list string)
  | OpSave (r : rateable) (rt : rating)
  | OpGet (r : rateable).

Definition step (o : op) (db : bucket) : bucket :=
  match o with
  | OpSetup cmts => fst (setup db cmts)
  | OpSave r rt => fst (fst (save r rt db))
  | OpGet r => let _ := get r db in db
  end.

(** The stores the service can be in: what any sequence of requests
    makes of the empty store. *)
Inductive reachable : bucket → Prop :=
  | reachable_empty : reachable ∅
  | reachable_step o db : reachable db → reachable (step o db).

(** The aggregate the store holds for a rateable whose resource type
    exists: the decoded record, or the zero rating when the instance or
    its record is not there yet. *)
Definition stored_is (r : rateable) (db : bucket) (stored : rating) : Prop :=
  ∃ kb, bucket_at [kind r] db = Some kb ∧
    match kb !! key r with
    | None => stored = rating_zero
    | Some (Nested ib) =>
        match ib !! ratingsKey with
        | None => stored = rating_zero
        | Some (Leaf data) => json_Unmarshal data rating_zero = (stored, None)
        | Some (Nested _) => False
        end
    | Some (Leaf _) => False
    end.

(** What [encoding/json] guarantees at this struct: a rating whose
    counters fit an [int] is encoded without error, and decoding the
    encoding gives the rating back. *)
Definition json_roundtrip : Prop :=
  ∀ r, ints r →
    ∃ data, json_Marshal r = inr data ∧
            json_Unmarshal data rating_zero = (r, None).

(** The encoding of a rating whose counters fit an [int] fits a value
    of the store: [json.Marshal] writes five decimal numbers of at most
    twenty characters each between the names of the fields. *)
Definition json_fits : Prop :=
  ∀ r data, ints r → json_Marshal r = inr data → len data ≤ MaxValueSize.

(** Every ratings record of the store decodes to a rating without a
    negative counter. *)
Definition records_nonneg (db : bucket) : Prop :=
  ∀ kind key ib data,
    bucket_at [kind; key] db = Some ib →
    ib !! ratingsKey = Some (Leaf data) →
    ∃ r, json_Unmarshal data rating_zero = (r, None) ∧ nonneg r.

(** The persisted layout: resource types hold instances, an instance
    holds at most its ratings record, and the record decodes. *)
Definition layout_at (p : path) (n : node) : Prop :=
  match p with
  | [_] | [_; _] => ∃ m, n = Nested m
  | [_; _; k] =>
      k = ratingsKey ∧
      ∃ data r, n = Leaf data ∧ json_Unmarshal data rating_zero = (r, None)
  | _ => True
  end.

Definition layout (db : bucket) : Prop :=
  ∀ p n, node_at p (Nested db) = Some n → layout_at p n.

(** The specification's sentence on merging, with its plus read as the
    sum of integers: for a rateable whose resource type exists and whose
    instance starts without a record, every [save] of a sequence of
    deltas that fit an [int] returns, and [get] reads back, the previous
    aggregate plus the delta with the floor of 0. *)
Definition merges_are_integer_sums
    (r : rateable) (deltas : list rating) (db : bucket) : Prop :=
  Forall ints deltas →
  (∃ kb, bucket_at [kind r] db = Some kb ∧
         (kb !! key r = None ∨
          ∃ ib, kb !! key r = Some (Nested ib) ∧ ib !! ratingsKey = None)) →
  key r ≠ "" →
  (save_all r deltas db).2 =
    (λ merged, ((Some merged, None), (Some merged, None)))
      <$> words_trace rating_zero deltas.

(** The specification's sentence that a rating write needs the instance
    container to be there already: with the resource type present and
    the instance absent, [save] fails and writes nothing. *)
Definition save_requires_instance (r : rateable) (rt : rating) (db : bucket) : Prop :=
  is_Some (bucket_at [kind r] db) →
  bucket_at [kind r; key r] db = None →
  (save r rt db).2 ≠ None ∧ (save r rt db).1.1 = db.

End operations.

End rating.

(* ===================================================================== *)
(** ** The comment service *)
(* ===================================================================== *)

Module comment.

(** Modelled from the spec: the declaration of the [comment] struct is
    not among the sources. A comment entity is an identifier and a text
    value; the tests and [save] name the two fields [ID] and [Value]. *)
Record comment := {
  ID : string;
  Value : string
}.

#[global] Instance comment_eq_dec : EqDecision comment.
Proof. solve_decision. Defined.

(** [comment{}] *)
Definition comment_zero : comment := {| ID := ""; Value := "" |}.

Definition commentableNotFoundFmt (a b : string) : string :=
  a +:+ " not found with key " +:+ b.

Definition commentableTypeNotFoundFmt (kind : string) : string :=
  "commentable type, " +:+ kind +:+ ", not found".

Definition commentNotFoundFmt (cKey kind key : string) : string :=
  "comment with key " +:+ cKey +:+ " not found for " +:+ kind +:+ " with id " +:+ key.

Definition commentsKey : string := "comments".

(** What the verb [%v] prints for a pointer to a comment. *)
Definition comment_v (c : comment) : string :=
  "&{" +:+ ID c +:+ " " +:+ Value c +:+ "}".

(** The message of the nil-comment error of [add] and [save]. *)
Definition commentEmptyMsg : string := "comment should not be empty".

(** The addressing pair of a [commentable]. *)
Record commentable := {
  kind : string;
  key : string
}.

Section operations.
Context `{!JSON comment}.

Definition ensure (cm : commentable) (db : bucket) : bucket * option error :=
  let '(db, _, err) :=
    Update db (λ tx,
      match Tx_Bucket tx (kind cm) with
      | None =>
          (tx, tt, Some (Errorf ("resource '" +:+ kind cm +:+ "' does not exist")))
      | Some bucket =>
          match Bucket_CreateBucketIfNotExists tx bucket (key cm) with
          | inl err => (tx, tt, Some err)
          | inr (tx, _) => (tx, tt, None)
          end
      end) in
  (db, err).

Definition exists_ (cm : commentable) (db : bucket) : bool :=
  fst (View db (λ tx,
    match Tx_Bucket tx (kind cm) with
    | Some bucket =>
        match Bucket_Bucket tx bucket (key cm) with
        | Some _ => (true, None)
        | None => (false, None)
        end
    | None => (false, None)
    end)).

Definition save (cm : commentable) (c : option comment) (db : bucket)
  : bucket * option comment * option error :=
  match c with
  | None => (db, None, Some (Errorf commentEmptyMsg))
  | Some c =>
      let '(db, _, err) :=
        Update db (λ tx,
          match Tx_Bucket tx (kind cm) with
          | None => (tx, tt, Some (Errorf (commentableTypeNotFoundFmt (kind cm))))
          | Some cmBucket =>
          match Bucket_Bucket tx cmBucket (key cm) with
          | None =>
              (tx, tt, Some (Errorf (commentableNotFoundFmt (key cm) (kind cm))))
          | Some rBucket =>
          match Bucket_CreateBucketIfNotExists tx rBucket commentsKey with
          | inl err =>
              (tx, tt, Some (Errorf ("error setting up comments for " +:+ kind cm
                                     +:+ " with key " +:+ key cm +:+ " "
                                     +:+ error_message err)))
          | inr (tx, comments) =>
          match json_Marshal c with
          | inl err =>
              (tx, tt, Some (Errorf ("error preparing comment " +:+ comment_v c
                                     +:+ ", " +:+ error_message err)))
          | inr data =>
              let '(tx, err) := Bucket_Put tx comments (ID c) data in
              (tx, tt, err)
          end end end end) in
      match err with
      | Some _ => (db, None, err)
      | None => (db, Some c, err)
      end
  end.

(** [betterguid.New()] is an input here: [guid] is the identifier it
    hands out at this call. *)
Definition add (guid : string) (cm : commentable) (c : option comment) (db : bucket)
  : bucket * option comment * option error :=
  match c with
  | None => (db, None, Some (Errorf commentEmptyMsg))
  | Some c => save cm (Some {| ID := guid; Value := Value c |}) db
  end.

Definition list (cm : commentable) (db : bucket)
  : option (list comment) * option error :=
  View db (λ tx,
    match Tx_Bucket tx (kind cm) with
    | None => (None, Some (Errorf (commentableTypeNotFoundFmt (kind cm))))
    | Some cmBucket =>
    match Bucket_Bucket tx cmBucket (key cm) with
    | None => (None, Some (Errorf (commentableNotFoundFmt (key cm) (kind cm))))
    | Some rBucket =>
    match Bucket_Bucket tx rBucket commentsKey with
    | None => (Some [], None)
    | Some komments =>
        let '(comments, err) :=
          Bucket_ForEach tx komments (λ _ data comments,
            match json_Unmarshal data comment_zero with
            | (_, Some err) => (comments, Some err)
            | (c, None) => (comments ++ [c], None)
            end) [] in
        (Some comments, err)
    end end end).

Definition get (cm : commentable) (cKey : string) (db : bucket)
  : option comment * option error :=
  View db (λ tx,
    match Tx_Bucket tx (kind cm) with
    | None => (None, Some (Errorf (commentableTypeNotFoundFmt (kind cm))))
    | Some cmBucket =>
    match Bucket_Bucket tx cmBucket (key cm) with
    | None => (None, Some (Errorf (commentableNotFoundFmt (kind cm) (key cm))))
    | Some rBucket =>
    match Bucket_Bucket tx rBucket commentsKey with
    | None => (None, Some (Errorf (commentNotFoundFmt cKey (kind cm) (key cm))))
    | Some comments =>
    match Bucket_Get tx comments cKey with
    | None => (None, Some (Errorf (commentNotFoundFmt cKey (kind cm) (key cm))))
    | Some cmm =>
        let '(c, err) := json_Unmarshal cmm comment_zero in
        (Some c, err)
    end end end end).

Definition remove (cm : commentable) (cKey : string) (db : bucket)
  : bucket * option error :=
  let '(db, _, err) :=
    Update db (λ tx,
      match Tx_Bucket tx (kind cm) with
      | None => (tx, tt, Some (Errorf (commentableTypeNotFoundFmt (kind cm))))
      | Some cmBucket =>
      match Bucket_Bucket tx cmBucket (key cm) with
      | None => (tx, tt, Some (Errorf (commentableNotFoundFmt (key cm) (kind cm))))
      | Some rBucket =>
      match Bucket_Bucket tx rBucket commentsKey with
      | None =>
          (tx, tt, Some (Errorf ("comment with key " +:+ cKey +:+ " not found for "
                                 +:+ kind cm +:+ " resource with id " +:+ key cm)))
      | Some comments =>
          let '(tx, err) := Bucket_Delete tx comments cKey in
          (tx, tt, err)
      end end end) in
  (db, err).

(** One request to the comment service; [OpAdd] carries the
    identifier [betterguid.New()] hands out. *)
Inductive op :=
  | OpSetup (cmts : Datatypes.list string)
  | OpEnsure (cm : commentable)
  | OpAdd (guid : string) (cm : commentable) (c : option comment)
  | OpSave (cm : commentable) (c : option comment)
  | OpRemove (cm : commentable) (cKey : string)
  | OpList (cm : commentable)
  | OpGet (cm : commentable) (cKey : string).

Definition step (o : op) (db : bucket) : bucket :=
  match o with
  | OpSetup cmts => (setup db cmts).1
  | OpEnsure cm => (ensure cm db).1
  | OpAdd guid cm c => (add guid cm c db).1.1
  | OpSave cm c => (save cm c db).1.1
  | OpRemove cm cKey => (remove cm cKey db).1
  | OpList cm => let _ := list cm db in db
  | OpGet cm cKey => let _ := get cm cKey db in db
  end.

(** The stores the service can be in. *)
Inductive reachable : bucket → Prop :=
  | reachable_empty : reachable ∅
  | reachable_step o db : reachable db → reachable (step o db).

(** What [encoding/json] guarantees for the comment [c]: it is encoded
    without error and decoding the encoding gives it back. *)
Definition json_roundtrip (c : comment) : Prop :=
  ∃ data, json_Marshal c = inr data ∧
          json_Unmarshal data comment_zero = (c, None).

(** What [encoding/json] guarantees for every comment: what
    [json.Marshal] wrote, [json.Unmarshal] reads without an error. It
    need not read the same comment: bytes that are not valid UTF-8 are
    written as U+FFFD. *)
Definition json_decodes : Prop :=
  ∀ c data, json_Marshal c = inr data →
    (json_Unmarshal data comment_zero).2 = None.

(** Every entry of a comments container decodes, without error, to a
    comment whose identifier is the key of the entry. *)
Definition well_encoded (cb : bucket) : Prop :=
  ∀ id n, cb !! id = Some n →
    ∃ data c, n = Leaf data ∧
              json_Unmarshal data comment_zero = (c, None) ∧ ID c = id.

(** Every entry of a comments container is a plain value that decodes
    without error. *)
Definition well_decoded (cb : bucket) : Prop :=
  ∀ id n, cb !! id = Some n →
    ∃ data, n = Leaf data ∧ (json_Unmarshal data comment_zero).2 = None.

(** Every comments container of the store decodes. *)
Definition decodable (db : bucket) : Prop :=
  ∀ kind key cb,
    bucket_at [kind; key; commentsKey] db = Some cb → well_decoded cb.


(** The specification's sentence on [create]: for an existing
    instance, a comment whose text is empty is refused with the
    empty-comment error and nothing enters the comments container. *)
Definition add_rejects_empty_text
    (guid : string) (cm : commentable) (c : comment) (db : bucket) : Prop :=
  is_Some (bucket_at [kind cm; key cm] db) →
  Value c = "" →
  (add guid cm (Some c) db).2 = Some (Errorf commentEmptyMsg) ∧
  bucket_at [kind cm; key cm; commentsKey] (add guid cm (Some c) db).1.1
    = bucket_at [kind cm; key cm; commentsKey] db.

End operations.

(** The persisted layout: resource types hold instances, an instance
    holds at most its comments container, the comments container holds
    encoded comments. *)
Definition layout_at (p : path) (n : node) : Prop :=
  match p with
  | [_] | [_; _] => ∃ m, n = Nested m
  | [_; _; k] => k = commentsKey ∧ ∃ m, n = Nested m
  | [_; _; _; _] => ∃ v, n = Leaf v
  | _ => True
  end.

Definition layout (db : bucket) : Prop :=
  ∀ p n, node_at p (Nested db) = Some n → layout_at p n.

End comment.

(** The specification's sentence on provisioning: when the names before
    an empty name are created successfully, the call fails on the empty
    name and the containers of those earlier names are there afterwards. *)
Definition provision_is_best_effort (db : bucket) (earlier rest : list string) : Prop :=
  (∃ tx, setup_loop earlier db = (tx, None)) →
  (setup db (earlier ++ "" :: rest)).2 ≠ None ∧
  ∀ name, name ∈ earlier → verify (setup db (earlier ++ "" :: rest)).1 name = true.

(* ===================================================================== *)
(** ** The HTTP services *)
(* ===================================================================== *)

(** What both [service.go] files share: the response helpers. A
    [http.ResponseWriter] is what it has been given so far -- the status
    of the first [WriteHeader], every later one being ignored, and the
    bytes written; its headers are left out. A handler takes the store
    and the writer and returns both, with a flag telling whether it
    panicked (a nil pointer dereferenced, a type assertion failed).
    Logging has no effect here beyond the evaluation of its arguments. *)
Module http.

Definition StatusOK : Z := 200.
Definition StatusBadRequest : Z := 400.
Definition StatusNotFound : Z := 404.
Definition StatusNotAcceptable : Z := 406.
Definition StatusInternalServerError : Z := 500.

Record response := {
  Code : option Z;
  Body : string
}.

(** [httptest.NewRecorder()] before anything is written. *)
Definition recorder : response := {| Code := None; Body := "" |}.

(** [json.Marshal] at the type of a response payload. *)
Class Payload (T : Type) := json_Marshal_payload : T → error + string.

(** [json.NewDecoder(r.Body).Decode(v)] at the type of a request body;
    it takes the value its destination holds and returns what it holds
    afterwards. *)
Class Decoder (T : Type) := json_Decode : string → T → T * option error.

(** The payload of [respondWithMsg]. *)
Record message := {
  Message : string
}.

(** The body sent when the payload cannot be encoded. *)
Definition failed_to_prepare : string :=
  "{" +:+ String "034" ("message" +:+ String "034" (":" +:+ String "034"
    ("failed to prepare response. Please try again" +:+ String "034" "}"))).

Definition respond (w : response) (data : string) (c : Z) : response :=
  {| Code := Some (default c (Code w)); Body := Body w +:+ data |}.

Definition respondWithPayload {T} `{!Payload T} (w : response) (payload : T) (c : Z)
  : response :=
  match json_Marshal_payload payload with
  | inl _ => respond w failed_to_prepare StatusInternalServerError
  | inr data => respond w data c
  end.

Definition respondWithMsg `{!Payload message} (w : response) (msg : string) (c : Z)
  : response :=
  respondWithPayload w {| Message := msg |} c.

End http.

(** [comment/service.go] *)
Module comment_service.

Import comment http.

Definition commentIsInvalid : string := "comment could not be parsed".
Definition commentNotFoundErr : string := "comment not found".
Definition commentListErr : string := "could not load comments".
Definition commentDeleteErr : string := "comment could not be deleted".
Definition commentSaveErr : string := "comment could not be saved".
Definition commentableSaveErr : string := "could not provision comments".

(** [comment/main.go]: the resource types [main] hands to [setup] before
    it serves. *)
Definition commentables : Datatypes.list string := ["authors"; "books"].

(** What a handler reads of a request: the three URL parameters (the
    empty string where the route has none), the body, and the
    commentables the context carries under the [key] type. *)
Record request := {
  commentableType : string;
  commentableKey : string;
  commentKey : string;
  body : string;
  ctx : gmap string commentable
}.

(** [r.WithContext(context.WithValue(r.Context(), key(k), c))] *)
Definition with_value (r : request) (k : string) (c : commentable) : request :=
  {| commentableType := commentableType r;
     commentableKey := commentableKey r;
     commentKey := commentKey r;
     body := body r;
     ctx := <[k := c]> (ctx r) |}.

(** The payload of [handleList]. *)
Record comments_payload := {
  Comments : option (Datatypes.list comment)
}.

Abbreviation handler := (request → bucket → response → bucket * response * bool).

Section handlers.
Context `{!JSON comment, !Decoder comment}.
Context `{!Payload message, !Payload comments_payload}.

(** A pointer to a comment is encoded as the comment, a nil pointer as
    [null]. *)
#[local] Instance comment_pointer_payload : Payload (option comment) :=
  λ co, match co with
        | Some c => json_Marshal c
        | None => inr "null"
        end.

Definition handleAdd (guid : string) : handler := λ r db w,
  let '(co, err) := json_Decode (body r) comment_zero in
  if decide (err ≠ None ∨ Value co = "")
  then (db, respondWithMsg w commentIsInvalid StatusBadRequest, false)
  else
    let k := commentableKey r in
    match ctx r !! k with
    | None => (db, w, true)
    | Some c =>
        let '(db, co, err) := add guid c (Some co) db in
        match err with
        | Some _ =>
            (db, respondWithMsg w commentSaveErr StatusInternalServerError,
             bool_decide (co = None))
        | None => (db, respondWithPayload w co StatusOK, false)
        end
    end.

Definition handleUpdate : handler := λ r db w,
  let '(co, err) := json_Decode (body r) comment_zero in
  if decide (err ≠ None ∨ Value co = "")
  then (db, respondWithMsg w commentIsInvalid StatusBadRequest, false)
  else
    let k := commentableKey r in
    match ctx r !! k with
    | None => (db, w, true)
    | Some c =>
        let cKey := commentKey r in
        match get c cKey db with
        | (_, Some _) => (db, respondWithMsg w commentNotFoundErr StatusBadRequest, false)
        | (None, None) => (db, w, true)
        | (Some cmt, None) =>
            let cmt := {| ID := ID cmt; Value := Value co |} in
            let '(db, cmt, err) := save c (Some cmt) db in
            match err with
            | Some _ =>
                (db, respondWithMsg w commentSaveErr StatusInternalServerError,
                 bool_decide (cmt = None))
            | None => (db, respondWithPayload w cmt StatusOK, false)
            end
        end
    end.

Definition handleList : handler := λ r db w,
  let k := commentableKey r in
  match ctx r !! k with
  | None => (db, w, true)
  | Some c =>
      let '(comments, err) := list c db in
      let w :=
        match err with
        | Some err =>
            respondWithMsg w ("error fetching comments: " +:+ error_message err)
              StatusInternalServerError
        | None => w
        end in
      (db, respondWithPayload w {| Comments := comments |} StatusOK, false)
  end.

Definition handleGet : handler := λ r db w,
  let k := commentableKey r in
  match ctx r !! k with
  | None => (db, w, true)
  | Some c =>
      let cKey := commentKey r in
      match get c cKey db with
      | (_, Some _) => (db, respondWithMsg w commentNotFoundErr StatusBadRequest, false)
      | (cmt, None) => (db, respondWithPayload w cmt StatusOK, false)
      end
  end.

Definition handleRemove : handler := λ r db w,
  let k := commentableKey r in
  match ctx r !! k with
  | None => (db, w, true)
  | Some c =>
      let cKey := commentKey r in
      match get c cKey db with
      | (_, Some _) => (db, respondWithMsg w commentNotFoundErr StatusBadRequest, false)
      | (None, None) => (db, w, true)
      | (Some cmt, None) =>
          match remove c (ID cmt) db with
          | (db, Some _) =>
              (db, respondWithMsg w commentDeleteErr StatusInternalServerError, false)
          | (db, None) =>
              (db, respondWithMsg w ("successfully deleted " +:+ kind c
                                     +:+ " comment with id: " +:+ ID cmt) StatusOK,
               false)
          end
      end
  end.

Definition validator (next : handler) : handler := λ r db w,
  let cKind := commentableType r in
  let cKey := commentableKey r in
  let c := {| kind := cKind; key := cKey |} in
  if exists_ c db
  then next (with_value r cKey c) db w
  else (db, respondWithMsg w (commentableNotFoundFmt (kind c) (key c)) StatusNotFound,
        false).

Definition creator (next : handler) : handler := λ r db w,
  let cKind := commentableType r in
  let cKey := commentableKey r in
  let c := {| kind := cKind; key := cKey |} in
  match ensure c db with
  | (db, Some _) =>
      (db, respondWithMsg w commentableSaveErr StatusNotAcceptable, false)
  | (db, None) => next r db w
  end.

Definition verifier (next : handler) : handler := λ r db w,
  let kind := commentableType r in
  if verify db kind
  then next r db w
  else (db, respondWithMsg w (commentableTypeNotFoundFmt kind) StatusNotAcceptable,
        false).

(** The routes of [registerRoutes], each with its middleware outermost
    first. *)
Definition post_comment (guid : string) : handler :=
  verifier (creator (validator (handleAdd guid))).
Definition get_comments : handler := verifier (validator handleList).
Definition get_comment : handler := verifier (validator handleGet).
Definition delete_comment : handler := verifier (validator handleRemove).
Definition patch_comment : handler := verifier (validator handleUpdate).

End handlers.

End comment_service.

(** The [service.go] of the rating package. *)
Module rating_service.

Import rating http.

Definition ratingIsInvalid : string := "rating could not be parsed".
Definition ratingNotFoundErr : string := "rating not found".
Definition ratingFetchErr : string := "could not load ratings".
Definition ratingSaveErr : string := "rating could not be saved".

Record request := {
  rateableType : string;
  rateableKey : string;
  body : string;
  ctx : gmap string rateable
}.

Definition with_value (r : request) (k : string) (rt : rateable) : request :=
  {| rateableType := rateableType r;
     rateableKey := rateableKey r;
     body := body r;
     ctx := <[k := rt]> (ctx r) |}.

Abbreviation handler := (request → bucket → response → bucket * response * bool).

Section handlers.
Context `{!JSON rating, !Decoder rating}.
Context `{!Payload message}.

(** A pointer to a rating is encoded as the rating, a nil pointer as
    [null]. *)
#[local] Instance rating_pointer_payload : Payload (option rating) :=
  λ rt, match rt with
        | Some rt => json_Marshal rt
        | None => inr "null"
        end.

Definition handlePut : handler := λ r db w,
  let '(rt, err) := json_Decode (body r) rating_zero in
  match err with
  | Some _ => (db, respondWithMsg w ratingIsInvalid StatusBadRequest, false)
  | None =>
      let k := rateableKey r in
      match ctx r !! k with
      | None => (db, w, true)
      | Some rte =>
          let '(db, rt, err) := save rte rt db in
          match err with
          | Some _ =>
              (db, respondWithMsg w ratingSaveErr StatusInternalServerError,
               bool_decide (rt = None))
          | None => (db, respondWithPayload w rt StatusOK, false)
          end
      end
  end.

Definition handleGet : handler := λ r db w,
  let k := rateableKey r in
  match ctx r !! k with
  | None => (db, w, true)
  | Some rte =>
      match get rte db with
      | (_, Some _) => (db, respondWithMsg w ratingFetchErr StatusBadRequest, false)
      | (rt, None) => (db, respondWithPayload w rt StatusOK, false)
      end
  end.

Definition verifier (next : handler) : handler := λ r db w,
  let kind := rateableType r in
  let rKey := rateableKey r in
  if verify db kind
  then
    let rt := {| kind := kind; key := rKey |} in
    next (with_value r rKey rt) db w
  else (db, respondWithMsg w (rateableTypeNotFoundFmt kind) StatusNotAcceptable,
        false).

(** The two routes of [registerRoutes]. *)
Definition get_ratings : handler := verifier handleGet.
Definition put_ratings : handler := verifier handlePut.

End handlers.

End rating_service.

(* ===================================================================== *)
(** ** A reference codec *)
(* ===================================================================== *)

(** An instance of the [JSON] interface at the two stored types. Its
    encoder writes the compact object [json.Marshal] writes for these
    structs (numbers in decimal, text between double quotes with the
    quote and the backslash escaped); its decoder reads exactly that
    shape back. It serves to run the services on concrete stores. *)
Module gojson.

Import rating comment.

Definition dquote : ascii := "034"%char.
Definition backslash : ascii := "092"%char.

(** The decimal numeral of an integer. *)
Definition number (z : Z) : string := NilZero.string_of_int (Z.to_int z).

(** [name] as an object key, with its colon. *)
Definition member (name : string) : string :=
  String dquote name +:+ String dquote ":".

Fixpoint strip_prefix (p s : string) : option string :=
  match p, s with
  | EmptyString, _ => Some s
  | String a p', String b s' => if Ascii.eqb a b then strip_prefix p' s' else None
  | String _ _, EmptyString => None
  end.

Definition is_number_char (c : ascii) : bool :=
  Ascii.eqb c "-" || (Ascii.leb "0" c && Ascii.leb c "9").

(** The longest prefix made of number characters, and what follows. *)
Fixpoint span_number (s : string) : string * string :=
  match s with
  | EmptyString => (EmptyString, EmptyString)
  | String c s' =>
      if is_number_char c
      then let '(n, rest) := span_number s' in (String c n, rest)
      else (EmptyString, s)
  end.

(** Every character may occur in a numeral. *)
Fixpoint number_chars (s : string) : bool :=
  match s with
  | EmptyString => true
  | String c s' => is_number_char c && number_chars s'
  end.

(** A text that does not go on with a number character. *)
Definition ends_number (tail : string) : Prop :=
  match tail with
  | EmptyString => True
  | String c _ => is_number_char c = false
  end.

(** A canonical decimal numeral that fits Go's [int]. *)
Definition parse_int (s : string) : option (Z * string) :=
  let '(n, rest) := span_number s in
  d ← NilZero.int_of_string n;
  let z := Z.of_int d in
  if decide (number z = n ∧ int_min ≤ z ≤ int_max) then Some (z, rest) else None.

Definition marshal_rating (r : rating) : string :=
  "{" +:+ member "five_stars" +:+ number (FiveStars r) +:+
  "," +:+ member "four_stars" +:+ number (FourStars r) +:+
  "," +:+ member "three_stars" +:+ number (ThreeStars r) +:+
  "," +:+ member "two_stars" +:+ number (TwoStars r) +:+
  "," +:+ member "one_stars" +:+ number (OneStars r) +:+ "}".

(** The member [name] with a number for its value. *)
Definition parse_member (name : string) (s : string) : option (Z * string) :=
  s ← strip_prefix (member name) s;
  parse_int s.

Definition parse_rating (s : string) : option rating :=
  s ← strip_prefix "{" s;
  '(five, s) ← parse_member "five_stars" s;
  s ← strip_prefix "," s;
  '(four, s) ← parse_member "four_stars" s;
  s ← strip_prefix "," s;
  '(three, s) ← parse_member "three_stars" s;
  s ← strip_prefix "," s;
  '(two, s) ← parse_member "two_stars" s;
  s ← strip_prefix "," s;
  '(one, s) ← parse_member "one_stars" s;
  if decide (s = "}")
  then Some {| FiveStars := five; FourStars := four; ThreeStars := three;
               TwoStars := two; OneStars := one |}
  else None.

Definition rating_json : JSON rating := {|
  json_Marshal := λ r, inr (marshal_rating r);
  json_Unmarshal := λ data dst,
    match parse_rating data with
    | Some r => (r, None)
    | None => (dst, Some (ErrJSON "invalid character in rating"))
    end
|}.

(** The body of a JSON string: quote and backslash get a backslash. *)
Fixpoint escape (s : string) : string :=
  match s with
  | EmptyString => EmptyString
  | String c s' =>
      if Ascii.eqb c dquote || Ascii.eqb c backslash
      then String backslash (String c (escape s'))
      else String c (escape s')
  end.

(** Reads a string body up to its closing quote; returns the text and
    what follows the quote. *)
Fixpoint unquote (s : string) : option (string * string) :=
  match s with
  | EmptyString => None
  | String c s' =>
      if Ascii.eqb c dquote then Some (EmptyString, s')
      else if Ascii.eqb c backslash then
        match s' with
        | String d s'' =>
            if Ascii.eqb d dquote || Ascii.eqb d backslash
            then '(t, rest) ← unquote s''; Some (String d t, rest)
            else None
        | EmptyString => None
        end
      else '(t, rest) ← unquote s'; Some (String c t, rest)
  end.

Definition marshal_comment (c : comment) : string :=
  "{" +:+ member "id" +:+ String dquote (escape (ID c)) +:+ String dquote
  ("," +:+ member "value" +:+ String dquote (escape (Value c)) +:+ String dquote "}").

Definition parse_comment (s : string) : option comment :=
  s ← strip_prefix ("{" +:+ member "id" +:+ String dquote "") s;
  '(id, s) ← unquote s;
  s ← strip_prefix ("," +:+ member "value" +:+ String dquote "") s;
  '(value, s) ← unquote s;
  if decide (s = "}") then Some {| ID := id; Value := value |} else None.

Definition comment_json : JSON comment := {|
  json_Marshal := λ c, inr (marshal_comment c);
  json_Unmarshal := λ data dst,
    match parse_comment data with
    | Some c => (c, None)
    | None => (dst, Some (ErrJSON "invalid character in comment"))
    end
|}.

End gojson.

(** The reference codec at the request bodies and the response payloads
    of the HTTP services. *)
Module gojson_http.

Import rating comment http gojson.

(** The body of a request that carries the text of a comment. *)
Definition comment_body (text : string) : string :=
  "{" +:+ member "value" +:+ String dquote (escape text) +:+ String dquote "}".

Definition parse_comment_body (s : string) : option string :=
  s ← strip_prefix ("{" +:+ member "value" +:+ String dquote "") s;
  '(value, s) ← unquote s;
  if decide (s = "}") then Some value else None.

(** Decoding a body sets the fields the body names and keeps the others. *)
Definition comment_decoder : Decoder comment := λ data dst,
  match parse_comment_body data with
  | Some value => ({| ID := ID dst; Value := value |}, None)
  | None => (dst, Some (ErrJSON "invalid character in comment"))
  end.

Definition rating_decoder : Decoder rating := λ data dst,
  match parse_rating data with
  | Some r => (r, None)
  | None => (dst, Some (ErrJSON "invalid character in rating"))
  end.

Definition marshal_message (m : message) : string :=
  "{" +:+ member "message" +:+ String dquote (escape (Message m)) +:+ String dquote "}".

Definition message_payload : Payload message := λ m, inr (marshal_message m).

Fixpoint join_comments (cs : Datatypes.list comment) : string :=
  match cs with
  | [] => ""
  | [c] => marshal_comment c
  | c :: cs => marshal_comment c +:+ "," +:+ join_comments cs
  end.

(** A nil slice is encoded as [null], an empty one as the empty array. *)
Definition marshal_comments (p : comment_service.comments_payload) : string :=
  "{" +:+ member "comments" +:+
  match comment_service.Comments p with
  | None => "null"
  | Some cs => "[" +:+ join_comments cs +:+ "]"
  end +:+ "}".

Definition comments_payload_json : Payload comment_service.comments_payload :=
  λ p, inr (marshal_comments p).

End gojson_http.

(* ===================================================================== *)
(** ** Stores and requests of the test suites *)
(* ===================================================================== *)

Module examples.

(** The resource type [books] with the instance [b1]: provisioned by
    [setup], ensured by [ensure]. *)
Definition books_b1 : bucket :=
  (@comment.ensure {| comment.kind := "books"; comment.key := "b1" |}
     (setup ∅ ["books"]).1).1.

Definition b1 : comment.commentable :=
  {| comment.kind := "books"; comment.key := "b1" |}.

Definition great_read : comment.comment :=
  {| comment.ID := "-MZx3kQ0aB7cD9eF1gH2"; comment.Value := "great read" |}.

Definition edited : comment.comment :=
  {| comment.ID := "-MZx3kQ0aB7cD9eF1gH2"; comment.Value := "edited" |}.

Definition second : comment.comment :=
  {| comment.ID := "-MZx3kQ0aB7cD9eF1gH3"; comment.Value := "a second opinion" |}.

(** [b1] with two comments. *)
Definition books_b1_commented : bucket :=
  (@comment.save gojson.comment_json b1 (Some second)
     (@comment.save gojson.comment_json b1 (Some great_read) books_b1).1.1).1.1.

(** The resource type [posts] without any instance. *)
Definition posts : bucket := (setup ∅ ["posts"]).1.

Definition another_key : rating.rateable :=
  {| rating.kind := "posts"; rating.key := "another-key" |}.

Definition my_key : rating.rateable :=
  {| rating.kind := "posts"; rating.key := "my-key" |}.

(** [posts] with the empty instance [my-key], as the handler tests build it. *)
Definition posts_my_key : bucket :=
  <["posts" := Nested (<["my-key" := Nested ∅]> ∅)]> ∅.

Definition stars (five four three two one : Z) : rating.rating :=
  {| rating.FiveStars := five; rating.FourStars := four; rating.ThreeStars := three;
     rating.TwoStars := two; rating.OneStars := one |}.

(** [posts] after one merge into [my-key]. *)
Definition posts_rated : bucket :=
  @rating.step gojson.rating_json
    (rating.OpSave my_key (stars (-2) 1 10 (-6) 0))
    (@rating.step gojson.rating_json (rating.OpSetup ["posts"]) ∅).

(** The resource type [books] without any instance. *)
Definition books : bucket := (setup ∅ ["books"]).1.




End examples.

(** Requests of the handler tests, and the routes of the two services
    with the reference codec plugged in. *)
Module requests.

(** A request of the comment service as the router hands it to the
    middleware: the URL parameters and the body, nothing in the context. *)
Definition comment_request (kind key cKey text : string) : comment_service.request :=
  {| comment_service.commentableType := kind;
     comment_service.commentableKey := key;
     comment_service.commentKey := cKey;
     comment_service.body := text;
     comment_service.ctx := ∅ |}.

Definition rating_request (kind key text : string) : rating_service.request :=
  {| rating_service.rateableType := kind;
     rating_service.rateableKey := key;
     rating_service.body := text;
     rating_service.ctx := ∅ |}.

(** POST /books/b1/comments *)
Definition post_great_read : comment_service.request :=
  comment_request "books" "b1" "" (gojson_http.comment_body "great read").

(** POST /books/b1/comments with an empty text *)
Definition post_nothing : comment_service.request :=
  comment_request "books" "b1" "" (gojson_http.comment_body "").

(** PATCH /books/b1/comments/-MZx3kQ0aB7cD9eF1gH2 *)
Definition patch_edited : comment_service.request :=
  comment_request "books" "b1" "-MZx3kQ0aB7cD9eF1gH2" (gojson_http.comment_body "edited").

(** GET or DELETE /books/b1/comments/-MZx3kQ0aB7cD9eF1gH2 *)
Definition great_read_request : comment_service.request :=
  comment_request "books" "b1" "-MZx3kQ0aB7cD9eF1gH2" "".

(** PUT /posts/my-key/ratings *)
Definition put_four : rating_service.request :=
  rating_request "posts" "my-key" (gojson.marshal_rating (examples.stars 4 0 0 0 0)).

Definition respondWithMsg : http.response → string → Z → http.response :=
  @http.respondWithMsg gojson_http.message_payload.

Definition post_comment (guid : string) : comment_service.handler :=
  @comment_service.post_comment gojson.comment_json gojson_http.comment_decoder
    gojson_http.message_payload guid.

Definition get_comments : comment_service.handler :=
  @comment_service.get_comments gojson.comment_json gojson_http.message_payload
    gojson_http.comments_payload_json.

Definition get_comment : comment_service.handler :=
  @comment_service.get_comment gojson.comment_json gojson_http.message_payload.

Definition delete_comment : comment_service.handler :=
  @comment_service.delete_comment gojson.comment_json gojson_http.message_payload.

Definition patch_comment : comment_service.handler :=
  @comment_service.patch_comment gojson.comment_json gojson_http.comment_decoder
    gojson_http.message_payload.

Definition handleAdd (guid : string) : comment_service.handler :=
  @comment_service.handleAdd gojson.comment_json gojson_http.comment_decoder
    gojson_http.message_payload guid.

Definition get_ratings : rating_service.handler :=
  @rating_service.get_ratings gojson.rating_json gojson_http.message_payload.

Definition put_ratings : rating_service.handler :=
  @rating_service.put_ratings gojson.rating_json gojson_http.rating_decoder
    gojson_http.message_payload.

End requests.


(* ===================================================================== *)
(** ** Properties of the store *)
(* ===================================================================== *)

Section bolt_facts.
Implicit Types (tx m : bucket) (b p : path) (k key : string).

Lemma bucket_at_app b k tx m :
  bucket_at b tx = Some m →
  bucket_at (b ++ [k]) tx =
    match m !! k with Some (Nested m') => Some m' | _ => None end.
Proof.
  revert tx. induction b as [|k0 b IH]; intros tx; simpl.
  - intros [= ->]. by destruct (m !! k) as [[]|].
  - destruct (tx !! k0) as [[]|]; try done. apply IH.
Qed.

Lemma bucket_at_alter f b tx m :
  bucket_at b tx = Some m →
  bucket_at b (bucket_alter f b tx) = Some (f m).
Proof.
  revert tx. induction b as [|k0 b IH]; intros tx; simpl.
  - by intros [= ->].
  - destruct (tx !! k0) as [[|m0]|] eqn:E; try done.
    intros Hb. rewrite lookup_insert_eq. by apply IH.
Qed.

Lemma bucket_at_snoc b k tx m :
  bucket_at (b ++ [k]) tx = Some m ↔
  ∃ m0, bucket_at b tx = Some m0 ∧ m0 !! k = Some (Nested m).
Proof.
  revert tx. induction b as [|k0 b IH]; intros tx; simpl.
  - split.
    + destruct (tx !! k) as [[|m']|] eqn:E; try done. intros [= ->]. eauto.
    + intros (m0 & [= <-] & E). by rewrite E.
  - destruct (tx !! k0) as [[|m']|]; [|apply IH|]; split; try done.
    all: by intros (m0 & ? & _).
Qed.

(** A handle is handed out exactly when its path leads to a bucket. *)
Lemma Bucket_Bucket_spec tx b name :
  Bucket_Bucket tx b name = (λ _, b ++ [name]) <$> bucket_at (b ++ [name]) tx.
Proof.
  unfold Bucket_Bucket.
  destruct (bucket_at (b ++ [name]) tx) as [m|] eqn:E; simpl.
  - destruct (proj1 (bucket_at_snoc _ _ _ _) E) as (m0 & E0 & E1).
    by rewrite E0, E1.
  - destruct (bucket_at b tx) as [m0|] eqn:E0; [|done].
    rewrite (bucket_at_app _ name _ _ E0) in E.
    by destruct (m0 !! name) as [[]|].
Qed.

Lemma Tx_Bucket_spec tx name :
  Tx_Bucket tx name = (λ _, [name]) <$> bucket_at [name] tx.
Proof. apply (Bucket_Bucket_spec tx [] name). Qed.

Lemma CreateBucketIfNotExists_present tx b key m m' :
  key ≠ "" → bucket_at b tx = Some m → m !! key = Some (Nested m') →
  Bucket_CreateBucketIfNotExists tx b key = inr (tx, b ++ [key]).
Proof.
  intros Hkey Hb Hk. unfold Bucket_CreateBucketIfNotExists.
  rewrite decide_False by done. by rewrite Hb, Hk.
Qed.

Lemma CreateBucketIfNotExists_fresh tx b key m :
  key ≠ "" → bucket_at b tx = Some m → m !! key = None →
  Bucket_CreateBucketIfNotExists tx b key =
    inr (bucket_alter (λ m, <[key := Nested ∅]> m) b tx, b ++ [key]).
Proof.
  intros Hkey Hb Hk. unfold Bucket_CreateBucketIfNotExists.
  rewrite decide_False by done. by rewrite Hb, Hk.
Qed.

(** Whatever [CreateBucketIfNotExists] answers, an error comes with no
    write. *)
Lemma CreateBucketIfNotExists_cases tx b key :
  (∃ err, Bucket_CreateBucketIfNotExists tx b key = inl err) ∨
  (∃ m, bucket_at b tx = Some m ∧ key ≠ "" ∧
     ((∃ m', m !! key = Some (Nested m') ∧
             Bucket_CreateBucketIfNotExists tx b key = inr (tx, b ++ [key])) ∨
      (m !! key = None ∧
       Bucket_CreateBucketIfNotExists tx b key =
         inr (bucket_alter (λ m, <[key := Nested ∅]> m) b tx, b ++ [key])))).
Proof.
  unfold Bucket_CreateBucketIfNotExists.
  destruct (decide (key = "")) as [|Hkey]; [eauto|].
  destruct (bucket_at b tx) as [m|]; [|eauto].
  destruct (m !! key) as [[v|m']|] eqn:E; [eauto|right..]; exists m; eauto 10.
Qed.

Lemma Bucket_Put_ok tx b key value m :
  storable key value →
  bucket_at b tx = Some m → (∀ m', m !! key ≠ Some (Nested m')) →
  Bucket_Put tx b key value =
    (bucket_alter (λ m, <[key := Leaf value]> m) b tx, None).
Proof.
  intros (Hkey & Hks & Hvs) Hb Hk. unfold Bucket_Put.
  rewrite decide_False by done.
  rewrite decide_False by lia. rewrite decide_False by lia. rewrite Hb.
  destruct (m !! key) as [[v|m']|] eqn:E; try done. by destruct (Hk m').
Qed.

(** A successful [CreateBucketIfNotExists] leaves the transaction as
    it was or adds one empty bucket; either way the handle it returns
    leads to a bucket. *)
Lemma CreateBucketIfNotExists_ok tx b key :
  (∃ err, Bucket_CreateBucketIfNotExists tx b key = inl err) ∨
  (∃ tx' m' m,
     Bucket_CreateBucketIfNotExists tx b key = inr (tx', b ++ [key]) ∧
     key ≠ "" ∧
     bucket_at b tx = Some m ∧
     (tx' = tx ∨ tx' = bucket_alter (λ m, <[key := Nested ∅]> m) b tx) ∧
     bucket_at (b ++ [key]) tx' = Some m').
Proof.
  destruct (CreateBucketIfNotExists_cases tx b key)
    as [?|(m & Hm & Hkey & [(m' & Hk & E)|[Hk E]])]; [by left|right..].
  - exists tx, m', m. repeat split; eauto. apply bucket_at_snoc. eauto.
  - eexists _, ∅, m. repeat split; eauto. apply bucket_at_snoc. eexists. split.
    + by apply bucket_at_alter.
    + apply lookup_insert_eq.
Qed.

Lemma Bucket_Put_cases tx b key value :
  (∃ err, Bucket_Put tx b key value = (tx, Some err)) ∨
  (∃ m, bucket_at b tx = Some m ∧ storable key value ∧
        (∀ m', m !! key ≠ Some (Nested m')) ∧
        Bucket_Put tx b key value =
          (bucket_alter (λ m, <[key := Leaf value]> m) b tx, None)).
Proof.
  unfold Bucket_Put, storable.
  destruct (decide (key = "")) as [|Hkey]; [eauto|].
  destruct (decide (MaxKeySize < len key)) as [|Hks]; [eauto|].
  destruct (decide (MaxValueSize < len value)) as [|Hvs]; [eauto|].
  destruct (bucket_at b tx) as [m|]; [|eauto].
  destruct (m !! key) as [[v|m']|] eqn:E; [right|eauto|right];
    exists m; rewrite E; repeat split; try done; lia.
Qed.

(** A [Put] that fails leaves the transaction as it was and says why. *)
Lemma Bucket_Put_too_large tx b key value :
  key ≠ "" → MaxKeySize < len key →
  Bucket_Put tx b key value = (tx, Some ErrKeyTooLarge).
Proof.
  intros Hkey Hks. unfold Bucket_Put.
  rewrite decide_False by done. by rewrite decide_True.
Qed.

Lemma key_le_trans : Transitive key_le.
Proof.
  intros x y z Hxy Hyz. unfold key_le in *.
  apply Is_true_true. apply Is_true_true_2 in Hxy, Hyz.
  exact (transitivity (R:=String.le) Hxy Hyz).
Qed.

Lemma key_le_total : Total key_le.
Proof. intros x y. apply String.leb_total. Qed.

Lemma leb_refl s : String.leb s s = true.
Proof. apply Is_true_true. exact (reflexivity (R:=String.le) s). Qed.

Lemma Bucket_sorted_elem (m : bucket) k n :
  (k, n) ∈ Bucket_sorted m ↔ m !! k = Some n.
Proof.
  unfold Bucket_sorted. rewrite merge_sort_Permutation. apply elem_of_map_to_list.
Qed.

(** The seek stops at an entry of the bucket. *)
Lemma Cursor_seek_elem (m : bucket) key k n :
  Cursor_seek m key = Some (k, n) → m !! k = Some n.
Proof.
  intros Hs%head_Some_elem_of. apply list_elem_of_filter in Hs as [_ Hs].
  by apply Bucket_sorted_elem.
Qed.

(** The seek of a key the bucket holds stops at that key. *)
Lemma Cursor_seek_found (m : bucket) key n :
  m !! key = Some n → Cursor_seek m key = Some (key, n).
Proof.
  intros Hk. unfold Cursor_seek.
  assert (StronglySorted key_le (Bucket_sorted m)) as Hsorted
    by apply (@StronglySorted_merge_sort _ key_le _ key_le_trans key_le_total).
  assert (∀ n', (key, n') ∈ Bucket_sorted m → n' = n) as Huniq.
  { intros n' Hn'%Bucket_sorted_elem. congruence. }
  apply Bucket_sorted_elem in Hk.
  induction Hsorted as [|[k0 n0] l Hl IH Hall]; [by apply elem_of_nil in Hk|].
  rewrite filter_cons. cbn [fst].
  destruct (decide (String.leb key k0 = true)) as [Hle|Hle].
  - simpl. f_equal. apply elem_of_cons in Hk as [Hk|Hk]; [by symmetry|].
    rewrite Forall_forall in Hall. specialize (Hall _ Hk). unfold key_le in Hall.
    simpl in Hall. pose proof (String.leb_antisym _ _ Hle Hall) as ->.
    f_equal. apply Huniq. left.
  - apply elem_of_cons in Hk as [[= <- <-]|Hk]; [by rewrite leb_refl in Hle|].
    apply IH; [done|]. intros n' Hn'. apply Huniq. by right.
Qed.

(** [Delete] either refuses and leaves the transaction as it was, or
    deletes the key, which is then not the name of a nested bucket. *)
Lemma Bucket_Delete_cases tx b key :
  (∃ err, Bucket_Delete tx b key = (tx, Some err)) ∨
  (∃ m, bucket_at b tx = Some m ∧
        (∀ m', m !! key ≠ Some (Nested m')) ∧
        Bucket_Delete tx b key = (bucket_alter (λ m, delete key m) b tx, None)).
Proof.
  unfold Bucket_Delete.
  destruct (bucket_at b tx) as [m|]; [|eauto].
  destruct (Cursor_seek m key) as [[k [v|m']]|] eqn:Hs; [right|eauto|right];
    exists m; split; try done; split; try done;
    intros m0 Hm0; apply Cursor_seek_found in Hm0; congruence.
Qed.

(** In a bucket that holds no nested bucket, [Delete] never refuses. *)
Lemma Bucket_Delete_plain tx b key m :
  bucket_at b tx = Some m →
  (∀ k m', m !! k ≠ Some (Nested m')) →
  Bucket_Delete tx b key = (bucket_alter (λ m, delete key m) b tx, None).
Proof.
  intros Hb Hplain. unfold Bucket_Delete. rewrite Hb.
  destruct (Cursor_seek m key) as [[k [v|m']]|] eqn:Hs; try done.
  apply Cursor_seek_elem in Hs. by destruct (Hplain k m').
Qed.

(** [Delete] of a key that holds a plain value deletes it. *)
Lemma Bucket_Delete_found tx b key m v :
  bucket_at b tx = Some m →
  m !! key = Some (Leaf v) →
  Bucket_Delete tx b key = (bucket_alter (λ m, delete key m) b tx, None).
Proof.
  intros Hb Hk. unfold Bucket_Delete. rewrite Hb.
  by rewrite (Cursor_seek_found _ _ _ Hk).
Qed.

Lemma Bucket_Get_at tx b key m :
  bucket_at b tx = Some m →
  Bucket_Get tx b key = match m !! key with Some (Leaf v) => Some v | _ => None end.
Proof. unfold Bucket_Get. by intros ->. Qed.

(** Changing what one key of the bucket at [b] holds is invisible at
    every chain of keys that does not pass through that key, and below
    that key wherever the old and the new entry agree. *)
Lemma node_at_alter_frame f b k tx m p :
  bucket_at b tx = Some m →
  (∀ m' k', k' ≠ k → f m' !! k' = m' !! k') →
  (∀ q, q ≠ [] → p = b ++ k :: q →
        f m !! k ≫= node_at q = m !! k ≫= node_at q) →
  ¬ p `prefix_of` b ++ [k] →
  node_at p (Nested (bucket_alter f b tx)) = node_at p (Nested tx).
Proof.
  intros Hb Hf. revert tx p Hb.
  induction b as [|k0 b IH]; intros tx p Hb Hk Hp; simpl in *.
  - injection Hb as ->. destruct p as [|k' p]; [by destruct Hp; apply prefix_nil|].
    simpl. destruct (decide (k' = k)) as [->|Hne].
    + destruct p as [|k2 p]; [by destruct Hp|]. by apply Hk.
    + by rewrite Hf.
  - destruct (tx !! k0) as [[|m0]|] eqn:E; try done.
    destruct p as [|k' p]; [by destruct Hp; apply prefix_nil|].
    simpl. destruct (decide (k' = k0)) as [->|Hne].
    + rewrite lookup_insert_eq, E. simpl.
      apply (IH m0 p Hb).
      * intros q Hq ->. by apply Hk.
      * intros Hpre. apply Hp. by apply prefix_cons.
    + by rewrite lookup_insert_ne.
Qed.

Lemma bucket_at_node p tx :
  bucket_at p tx =
    node_at p (Nested tx) ≫= λ n, match n with Nested m => Some m | Leaf _ => None end.
Proof.
  revert tx. induction p as [|k p IH]; intros tx; simpl; [done|].
  destruct (tx !! k) as [[v|m]|]; simpl; [by destruct p|apply IH|done].
Qed.

(** A write under one key of the bucket at [b] is invisible to a
    handle that neither leads to that key nor passes through it. *)
Lemma bucket_at_alter_apart f b k tx m p :
  bucket_at b tx = Some m →
  (∀ m' k', k' ≠ k → f m' !! k' = m' !! k') →
  ¬ p `prefix_of` b ++ [k] →
  ¬ (b ++ [k]) `prefix_of` p →
  bucket_at p (bucket_alter f b tx) = bucket_at p tx.
Proof.
  intros Hb Hf Hp Hq. rewrite !bucket_at_node.
  rewrite (node_at_alter_frame f b k tx m p); try done.
  intros q _ ->. destruct Hq. exists q. by rewrite <- app_assoc.
Qed.

Lemma node_at_bucket b tx m q :
  bucket_at b tx = Some m →
  node_at (b ++ q) (Nested tx) = node_at q (Nested m).
Proof.
  revert tx. induction b as [|k0 b IH]; intros tx; simpl.
  - by intros [= ->].
  - destruct (tx !! k0) as [[|m0]|]; try done. simpl. apply IH.
Qed.

(** Where an entry of the store after a write comes from: it is a
    bucket on the way to the written bucket, or it lies inside an
    entry [f] brought in (one satisfying [P]), or it was there before. *)
Lemma node_at_alter_inv (P : string → node → Prop) f b tx m p n :
  bucket_at b tx = Some m →
  (∀ m0 k' n', f m0 !! k' = Some n' → m0 !! k' = Some n' ∨ P k' n') →
  node_at p (Nested (bucket_alter f b tx)) = Some n →
  (p `prefix_of` b ∧ ∃ m', n = Nested m') ∨
  (∃ k' n' q, p = b ++ k' :: q ∧ P k' n' ∧ node_at q n' = Some n) ∨
  node_at p (Nested tx) = Some n.
Proof.
  intros Hb Hf. revert tx p Hb.
  induction b as [|k0 b IH]; intros tx p Hb Hn; simpl in *.
  - injection Hb as ->. destruct p as [|k' q]; simpl in Hn.
    + injection Hn as <-. left. split; [done|eauto].
    + destruct (f m !! k') as [n'|] eqn:E; [|done]. simpl in Hn.
      destruct (Hf _ _ _ E) as [E'|HP].
      * right; right. simpl. by rewrite E'.
      * right; left. by exists k', n', q.
  - destruct (tx !! k0) as [[|m0]|] eqn:E; try done.
    destruct p as [|k' q]; simpl in Hn.
    + injection Hn as <-. left. split; [apply prefix_nil|eauto].
    + destruct (decide (k' = k0)) as [->|Hne].
      * rewrite lookup_insert_eq in Hn. simpl in Hn.
        destruct (IH m0 q Hb Hn) as [[Hpre Hm]|[(k' & n' & q' & -> & HP & Hq)|Hold]].
        -- left. split; [by apply prefix_cons|done].
        -- right; left. by exists k', n', q'.
        -- right; right. simpl. by rewrite E.
      * rewrite lookup_insert_ne in Hn by done. by right; right.
Qed.

End bolt_facts.

(** Rewrites the next bucket lookup of an operation into a [bucket_at]
    and settles it with the equation [E]. *)
Ltac resolve_with E :=
  first [rewrite Tx_Bucket_spec | rewrite Bucket_Bucket_spec];
  cbn [app]; rewrite E; cbn [fmap option_fmap option_map]; cbv beta iota.

(* ===================================================================== *)
(** ** Properties of the comment service *)
(* ===================================================================== *)

Section comment_facts.
Import comment.
Context `{!JSON comment}.
Implicit Types (db : bucket) (cm : commentable) (c : comment).

(** Below an existing comments container lie the instance container
    and the resource type's container. *)
Lemma resolve_comments cm db cb :
  bucket_at [kind cm; key cm; commentsKey] db = Some cb →
  ∃ kb ib, bucket_at [kind cm] db = Some kb ∧
           bucket_at [kind cm; key cm] db = Some ib ∧
           ib !! commentsKey = Some (Nested cb).
Proof.
  intros Hcb.
  destruct (proj1 (bucket_at_snoc [kind cm; key cm] _ _ _) Hcb) as (ib & Hib & Hc).
  destruct (proj1 (bucket_at_snoc [kind cm] _ _ _) Hib) as (kb & Hkb & _). eauto.
Qed.

Lemma resolve_instance cm db ib :
  bucket_at [kind cm; key cm] db = Some ib →
  ∃ kb, bucket_at [kind cm] db = Some kb.
Proof.
  intros Hib.
  destruct (proj1 (bucket_at_snoc [kind cm] _ _ _) Hib) as (kb & Hkb & _). eauto.
Qed.

Lemma get_resolved cm cKey db cb :
  bucket_at [kind cm; key cm; commentsKey] db = Some cb →
  get cm cKey db =
    match cb !! cKey with
    | Some (Leaf cmm) =>
        let '(c, err) := json_Unmarshal cmm comment_zero in (Some c, err)
    | _ => (None, Some (Errorf (commentNotFoundFmt cKey (kind cm) (key cm))))
    end.
Proof.
  intros Hcb. destruct (resolve_comments _ _ _ Hcb) as (kb & ib & Hkb & Hib & Hc).
  unfold get, View.
  resolve_with Hkb. resolve_with Hib. resolve_with Hcb.
  unfold Bucket_Get. rewrite Hcb. by destruct (cb !! cKey) as [[]|].
Qed.

Lemma remove_resolved cm cKey db cb :
  bucket_at [kind cm; key cm; commentsKey] db = Some cb →
  remove cm cKey db =
    match Cursor_seek cb cKey with
    | Some (_, Nested _) => (db, Some ErrIncompatibleValue)
    | _ => (bucket_alter (λ m, delete cKey m) [kind cm; key cm; commentsKey] db, None)
    end.
Proof.
  intros Hcb. destruct (resolve_comments _ _ _ Hcb) as (kb & ib & Hkb & Hib & Hc).
  unfold remove, Update.
  resolve_with Hkb. resolve_with Hib. resolve_with Hcb.
  unfold Bucket_Delete. rewrite Hcb.
  by destruct (Cursor_seek cb cKey) as [[k [v|m']]|].
Qed.

(** [remove] of an identifier that holds a comment, or from a comments
    container that holds no nested bucket, deletes the identifier. *)
Lemma remove_deletes cm cKey db cb :
  bucket_at [kind cm; key cm; commentsKey] db = Some cb →
  (∃ v, cb !! cKey = Some (Leaf v)) ∨ (∀ k m, cb !! k ≠ Some (Nested m)) →
  remove cm cKey db =
    (bucket_alter (λ m, delete cKey m) [kind cm; key cm; commentsKey] db, None).
Proof.
  intros Hcb Hok. rewrite (remove_resolved _ _ _ _ Hcb).
  destruct (Cursor_seek cb cKey) as [[k [v|m']]|] eqn:Hs; try done.
  destruct Hok as [[v Hv]|Hplain].
  - apply Cursor_seek_found in Hv. congruence.
  - apply Cursor_seek_elem in Hs. by destruct (Hplain k m').
Qed.

(** [remove] either fails and leaves the store as it was, or deletes
    one key of the comments container of its own instance. *)
Lemma remove_cases cm cKey db :
  (∃ err, remove cm cKey db = (db, Some err)) ∨
  (∃ cb, bucket_at [kind cm; key cm; commentsKey] db = Some cb ∧
         (∀ m, cb !! cKey ≠ Some (Nested m)) ∧
         remove cm cKey db =
           (bucket_alter (λ m, delete cKey m) [kind cm; key cm; commentsKey] db, None)).
Proof.
  destruct (bucket_at [kind cm; key cm; commentsKey] db) as [cb|] eqn:Hcb.
  - rewrite (remove_resolved _ _ _ _ Hcb).
    destruct (Cursor_seek cb cKey) as [[k [v|m']]|] eqn:Hs; [right|eauto|right];
      exists cb; split; try done; split; try done;
      intros m Hm; apply Cursor_seek_found in Hm; congruence.
  - left. unfold remove, Update.
    destruct (bucket_at [kind cm] db) as [kb|] eqn:Hkb;
      resolve_with Hkb; [|eauto].
    destruct (bucket_at [kind cm; key cm] db) as [ib|] eqn:Hib;
      resolve_with Hib; [|eauto].
    resolve_with Hcb. eauto.
Qed.

Lemma node_at_empty q n :
  node_at q (Nested ∅) = Some n → q = [] ∧ n = Nested ∅.
Proof. destruct q; simpl; [by intros [= <-]|by rewrite lookup_empty]. Qed.

Lemma node_at_leaf q v n :
  node_at q (Leaf v) = Some n → q = [] ∧ n = Leaf v.
Proof. destruct q; simpl; [by intros [= <-]|done]. Qed.

(** A write keeps the layout when the buckets on its way may be
    buckets and what it brings in sits where the layout wants it. *)
Lemma layout_alter (P : string → node → Prop) f b db m :
  layout db →
  bucket_at b db = Some m →
  (∀ m0 k' n', f m0 !! k' = Some n' → m0 !! k' = Some n' ∨ P k' n') →
  (∀ p m', p `prefix_of` b → layout_at p (Nested m')) →
  (∀ k' n' q n, P k' n' → node_at q n' = Some n → layout_at (b ++ k' :: q) n) →
  layout (bucket_alter f b db).
Proof.
  intros Hl Hb Hf Hway Hnew p n Hn.
  destruct (node_at_alter_inv P _ _ _ _ _ _ Hb Hf Hn)
    as [[Hpre [m' ->]]|[(k' & n' & q & -> & HP & Hq)|Hold]]; eauto.
Qed.

Lemma insert_brings (k : string) (new : node) (m0 : bucket) k' n' :
  <[k := new]> m0 !! k' = Some n' →
  m0 !! k' = Some n' ∨ (k' = k ∧ n' = new).
Proof.
  destruct (decide (k = k')) as [->|Hne].
  - rewrite lookup_insert_eq. intros [= <-]. by right.
  - rewrite lookup_insert_ne by done. by left.
Qed.

Lemma delete_brings (k : string) (m0 : bucket) k' n' :
  delete k m0 !! k' = Some n' → m0 !! k' = Some n' ∨ False.
Proof.
  destruct (decide (k = k')) as [->|Hne].
  - by rewrite lookup_delete_eq.
  - rewrite lookup_delete_ne by done. by left.
Qed.

Lemma setup_loop_layout cmts tx :
  layout tx → layout (setup_loop cmts tx).1.
Proof.
  revert tx. induction cmts as [|b rest IH]; intros tx Hl; simpl; [done|].
  destruct (CreateBucketIfNotExists_cases tx [] b)
    as [[err E]|(m & Hm & Hb & [(m' & Hk & E)|[Hk E]])];
    unfold Tx_CreateBucketIfNotExists; rewrite E; simpl; [done|by apply IH|].
  apply IH.
  change (layout (bucket_alter (λ m, <[b := Nested ∅]> m) [] tx)).
  apply (layout_alter (λ k' n', k' = b ∧ n' = Nested ∅) _ [] tx m); try done.
  - intros m0 k' n'. apply insert_brings.
  - intros p m' Hpre. by apply prefix_nil_inv in Hpre as ->.
  - intros k' n' q n [-> ->] Hq. apply node_at_empty in Hq as [-> ->].
    simpl. eauto.
Qed.

Lemma setup_layout cmts db : layout db → layout (setup db cmts).1.
Proof.
  intros Hl. pose proof (setup_loop_layout cmts db Hl) as Hl'.
  unfold setup, Update. destruct (setup_loop cmts db) as [tx [err|]]; done.
Qed.

Lemma ensure_layout cm db : layout db → layout (ensure cm db).1.
Proof.
  intros Hl. unfold ensure, Update.
  destruct (bucket_at [kind cm] db) as [kb|] eqn:Hkb; resolve_with Hkb; [|done].
  destruct (CreateBucketIfNotExists_cases db [kind cm] (key cm))
    as [[err E]|(m & Hm & Hb & [(m' & Hk & E)|[Hk E]])]; rewrite E; try done.
  cbn [fst].
  apply (layout_alter (λ k' n', k' = key cm ∧ n' = Nested ∅) _ [kind cm] db m);
    try done.
  - intros m0 k' n'. apply insert_brings.
  - intros p m' [l Hpre].
    destruct p as [|? [|? p]]; simplify_eq/=; eauto.
  - intros k' n' q n [-> ->] Hq. apply node_at_empty in Hq as [-> ->].
    simpl. eauto.
Qed.

Lemma remove_layout cm cKey db : layout db → layout (remove cm cKey db).1.
Proof.
  intros Hl.
  destruct (remove_cases cm cKey db) as [[err ->]|(cb & Hcb & Hleaf & ->)];
    cbn [fst]; [done|].
  apply (layout_alter (λ _ _, False) _ [kind cm; key cm; commentsKey] db cb);
    try done.
  - intros m0 k' n'. apply delete_brings.
  - intros p m' [l Hpre].
    destruct p as [|? [|? [|? [|? p]]]]; simplify_eq/=; eauto.
Qed.

(** [save] either fails and leaves the store as it was, or makes sure
    of the comments container and writes one entry into it. *)
Lemma comment_save_cases cm c db :
  (∃ err, save cm (Some c) db = (db, None, Some err)) ∨
  (∃ ib data tx cb,
     bucket_at [kind cm; key cm] db = Some ib ∧
     storable (ID c) data ∧
     json_Marshal c = inr data ∧
     (tx = db ∨
      tx = bucket_alter (λ m, <[commentsKey := Nested ∅]> m) [kind cm; key cm] db) ∧
     bucket_at [kind cm; key cm; commentsKey] tx = Some cb ∧
     (∀ m, cb !! ID c ≠ Some (Nested m)) ∧
     save cm (Some c) db =
       (bucket_alter (λ m, <[ID c := Leaf data]> m)
          [kind cm; key cm; commentsKey] tx, Some c, None)).
Proof.
  unfold save, Update.
  destruct (bucket_at [kind cm] db) as [kb|] eqn:Hkb;
    resolve_with Hkb; [|left; eauto].
  destruct (bucket_at [kind cm; key cm] db) as [ib|] eqn:Hib;
    resolve_with Hib; [|left; eauto].
  destruct (CreateBucketIfNotExists_ok db [kind cm; key cm] commentsKey)
    as [[err E]|(tx & cb & m & E & _ & Hm & Htx & Hcb)];
    rewrite E; cbn [app] in *; cbv beta iota; [left; eauto|].
  destruct (json_Marshal c) as [err|data] eqn:Hdata; [left; eauto|].
  destruct (Bucket_Put_cases tx [kind cm; key cm; commentsKey] (ID c) data)
    as [[err E2]|(cb' & Hcb' & Hne & Hleaf & E2)];
    rewrite E2; cbv beta iota; [left; eauto|right].
  rewrite Hcb in Hcb'. injection Hcb' as <-.
  exists ib, data, tx, cb. intuition eauto.
Qed.


Lemma comment_save_layout cm co db : layout db → layout (save cm co db).1.1.
Proof.
  intros Hl. destruct co as [c|]; [|done].
  destruct (comment_save_cases cm c db)
    as [[err ->]|(ib & data & tx & cb & Hib & Hne & Hd & Htx & Hcb & Hleaf & ->)];
    cbn [fst]; [done|].
  assert (layout tx) as Hl'.
  { destruct Htx as [->| ->]; [done|].
    apply (layout_alter (λ k' n', k' = commentsKey ∧ n' = Nested ∅)
             _ [kind cm; key cm] db ib); try done.
    - intros m0 k' n'. apply insert_brings.
    - intros p m' [l Hpre].
      destruct p as [|? [|? [|? p]]]; simplify_eq/=; eauto.
    - intros k' n' q n [-> ->] Hq. apply node_at_empty in Hq as [-> ->].
      simpl. eauto. }
  apply (layout_alter (λ k' n', k' = ID c ∧ n' = Leaf data)
           _ [kind cm; key cm; commentsKey] tx cb); try done.
  - intros m0 k' n'. apply insert_brings.
  - intros p m' [l Hpre].
    destruct p as [|? [|? [|? [|? p]]]]; simplify_eq/=; eauto.
  - intros k' n' q n [-> ->] Hq. apply node_at_leaf in Hq as [-> ->].
    simpl. eauto.
Qed.

Lemma add_layout guid cm co db : layout db → layout (add guid cm co db).1.1.
Proof. destruct co as [c|]; [apply comment_save_layout|done]. Qed.

Lemma layout_empty : layout ∅.
Proof.
  intros p n Hn. destruct p as [|k q]; simpl in *; [done|].
  by rewrite lookup_empty in Hn.
Qed.

(** Every store the service can be in has the persisted layout. *)
Lemma reachable_layout db : reachable db → layout db.
Proof.
  induction 1 as [|o db Hr IH]; [apply layout_empty|].
  destruct o; simpl;
    auto using setup_layout, ensure_layout, add_layout, comment_save_layout, remove_layout.
Qed.

(** In a store with the layout, the comments key of an instance never
    holds a plain value and the comments container never holds a
    nested bucket. *)
Lemma layout_comments_key cm db ib v :
  layout db → bucket_at [kind cm; key cm] db = Some ib →
  ib !! commentsKey ≠ Some (Leaf v).
Proof.
  intros Hl Hib E.
  pose proof (node_at_bucket _ _ _ [commentsKey] Hib) as Hn.
  simpl in Hn. rewrite E in Hn. simpl in Hn.
  destruct (Hl [kind cm; key cm; commentsKey] (Leaf v)) as [_ [m ?]]; [|done].
  simpl. apply Hn.
Qed.

Lemma layout_comment_entry cm db ib cb cKey m :
  layout db → bucket_at [kind cm; key cm] db = Some ib →
  ib !! commentsKey = Some (Nested cb) →
  cb !! cKey ≠ Some (Nested m).
Proof.
  intros Hl Hib Hc E.
  pose proof (node_at_bucket _ _ _ [commentsKey; cKey] Hib) as Hn.
  simpl in Hn. rewrite Hc in Hn. simpl in Hn. rewrite E in Hn. simpl in Hn.
  destruct (Hl [kind cm; key cm; commentsKey; cKey] (Nested m)) as [v ?]; [|done].
  simpl. apply Hn.
Qed.

Lemma comment_save_stores cm c db ib data :
  bucket_at [kind cm; key cm] db = Some ib →
  (∀ v, ib !! commentsKey ≠ Some (Leaf v)) →
  (∀ cb m, ib !! commentsKey = Some (Nested cb) → cb !! ID c ≠ Some (Nested m)) →
  storable (ID c) data →
  json_Marshal c = inr data →
  ∃ db' cb',
    save cm (Some c) db = (db', Some c, None) ∧
    bucket_at [kind cm; key cm; commentsKey] db' = Some cb' ∧
    cb' !! ID c = Some (Leaf data).
Proof.
  intros Hib Hleaf Hid Hne Hdata.
  destruct (resolve_instance _ _ _ Hib) as [kb Hkb].
  unfold save, Update. resolve_with Hkb. resolve_with Hib.
  destruct (ib !! commentsKey) as [[v|cb]|] eqn:E.
  - by destruct (Hleaf v).
  - rewrite (CreateBucketIfNotExists_present _ _ commentsKey _ _ ltac:(done) Hib E).
    cbn [app]. rewrite Hdata.
    assert (bucket_at [kind cm; key cm; commentsKey] db = Some cb) as Hcb.
    { apply (bucket_at_snoc [kind cm; key cm]). eauto. }
    rewrite (Bucket_Put_ok _ _ _ _ _ Hne Hcb) by eauto.
    eexists _, _. split; [done|].
    rewrite (bucket_at_alter _ _ _ _ Hcb). by rewrite lookup_insert_eq.
  - rewrite (CreateBucketIfNotExists_fresh _ _ commentsKey _ ltac:(done) Hib E).
    cbn [app]. rewrite Hdata.
    set (tx := bucket_alter _ [kind cm; key cm] db).
    assert (bucket_at [kind cm; key cm; commentsKey] tx = Some ∅) as Hcb.
    { apply (bucket_at_snoc [kind cm; key cm]). eexists. split.
      - apply bucket_at_alter, Hib.
      - apply lookup_insert_eq. }
    rewrite (Bucket_Put_ok _ _ _ _ _ Hne Hcb) by done.
    eexists _, _. split; [done|].
    rewrite (bucket_at_alter _ _ _ _ Hcb). by rewrite lookup_insert_eq.
Qed.

End comment_facts.

Section comment_claims.
Import comment.
Context `{!JSON comment}.
Implicit Types (db : bucket) (cm : commentable) (c : comment).

(** C8. For every commentable whose resource-type container, instance
    container and comments container exist, and every comment id,
    [get] of the id after [remove] of the id fails with the
    comment-not-found error, whether [remove] deleted the entry, found
    none, or failed. *)
Theorem remove_then_get_not_found cm cKey db cb :
  bucket_at [kind cm; key cm; commentsKey] db = Some cb →
  get cm cKey (remove cm cKey db).1 =
    (None, Some (Errorf (commentNotFoundFmt cKey (kind cm) (key cm)))).
Proof.
  intros Hcb. rewrite (remove_resolved _ _ _ _ Hcb).
  destruct (Cursor_seek cb cKey) as [[k [v|m]]|] eqn:Hs; cbn [fst].
  - rewrite (get_resolved _ _ _ _ (bucket_at_alter _ _ _ _ Hcb)).
    by rewrite lookup_delete_eq.
  - rewrite (get_resolved _ _ _ _ Hcb).
    destruct (cb !! cKey) as [[v|m']|] eqn:E; try done.
    apply Cursor_seek_found in E. congruence.
  - rewrite (get_resolved _ _ _ _ (bucket_at_alter _ _ _ _ Hcb)).
    by rewrite lookup_delete_eq.
Qed.

(** C9. For every commentable whose resource-type container and
    instance container exist and whose instance holds no comments
    container, [list] returns the empty sequence and no error. *)
Theorem list_of_fresh_instance_is_empty cm db ib :
  bucket_at [kind cm; key cm] db = Some ib →
  (∀ m, ib !! commentsKey ≠ Some (Nested m)) →
  list cm db = (Some [], None).
Proof.
  intros Hib Hnone. destruct (resolve_instance _ _ _ Hib) as [kb Hkb].
  unfold list, View. resolve_with Hkb. resolve_with Hib.
  rewrite Bucket_Bucket_spec. cbn [app].
  destruct (bucket_at [kind cm; key cm; commentsKey] db) as [cb|] eqn:Hcb; [|done].
  destruct (proj1 (bucket_at_snoc [kind cm; key cm] _ _ _) Hcb) as (ib' & Hib' & Hc).
  rewrite Hib in Hib'. injection Hib' as <-. by destruct (Hnone cb).
Qed.

(** C10. [remove] changes at most the entry keyed by the id inside the
    comments container of its own (resource type, resource key) pair:
    when it returns an error the store is the one it was given; in
    every case whatever the store holds at a chain of keys that is not
    on the way to that entry -- another comment of the instance, its
    ratings record, another instance, another resource type -- is what
    it held before; and when it returns no error the comments container
    is still in its place, inside the instance container inside the
    resource-type container, and holds what it held before without the
    entry keyed by the id, so that no container is removed, not even a
    comments container left empty. *)
Theorem remove_frame cm cKey db :
  ((remove cm cKey db).2 ≠ None → (remove cm cKey db).1 = db) ∧
  (∀ p, ¬ p `prefix_of` [kind cm; key cm; commentsKey; cKey] →
        node_at p (Nested (remove cm cKey db).1) = node_at p (Nested db)) ∧
  ((remove cm cKey db).2 = None →
   ∃ kb ib cb,
     bucket_at [kind cm; key cm; commentsKey] db = Some cb ∧
     bucket_at [kind cm] (remove cm cKey db).1 = Some kb ∧
     bucket_at [kind cm; key cm] (remove cm cKey db).1 = Some ib ∧
     bucket_at [kind cm; key cm; commentsKey] (remove cm cKey db).1
       = Some (delete cKey cb)).
Proof.
  destruct (remove_cases cm cKey db) as [[err ->]|(cb & Hcb & Hleaf & ->)];
    cbn [fst snd]; repeat split; try done.
  - intros p Hp.
    apply (node_at_alter_frame _ [kind cm; key cm; commentsKey] cKey _ cb);
      try done.
    + intros m' k' Hne. by apply lookup_delete_ne.
    + intros q Hq _. rewrite lookup_delete_eq.
      destruct (cb !! cKey) as [[v|m]|] eqn:E; [|by destruct (Hleaf m)|done].
      by destruct q.
  - intros _.
    pose proof (bucket_at_alter (λ m, delete cKey m) _ _ _ Hcb) as Hcb'.
    destruct (resolve_comments _ _ _ Hcb') as (kb & ib & Hkb & Hib & Hc).
    by exists kb, ib, cb.
Qed.


(** C3, as the code has it. [add] refuses a nil comment with the
    empty-comment error and stores nothing. A non-nil comment whose
    text is empty is not refused: for a commentable whose containers
    exist, [add] gives it the generated identifier, stores its encoding
    under that identifier in the comments container and returns it.
    The identifier and the encoding are a key and a value bolt takes:
    the identifier is not empty and has at most [MaxKeySize] bytes (the
    generator's have 20), the encoding at most [MaxValueSize]. *)
Theorem add_accepts_empty_text guid cm db :
  add guid cm None db = (db, None, Some (Errorf commentEmptyMsg)) ∧
  ∀ c ib data,
    reachable db →
    bucket_at [kind cm; key cm] db = Some ib →
    storable guid data →
    Value c = "" →
    json_Marshal {| ID := guid; Value := "" |} = inr data →
    (add guid cm (Some c) db).1.2 = Some {| ID := guid; Value := "" |} ∧
    (add guid cm (Some c) db).2 = None ∧
    Bucket_Get (add guid cm (Some c) db).1.1
      [kind cm; key cm; commentsKey] guid = Some data.
Proof.
  split; [done|]. intros c ib data Hr Hib Hne Hval Hdata.
  pose proof (reachable_layout _ Hr) as Hl.
  unfold add. rewrite Hval.
  destruct (comment_save_stores cm {| ID := guid; Value := "" |} db ib data Hib)
    as (db' & cb' & -> & Hcb' & Hc); try done.
  - intros v. by apply (layout_comments_key cm db).
  - intros cb m Hcb. by apply (layout_comment_entry cm db ib cb).
  - cbn [fst snd]. repeat split.
    rewrite (Bucket_Get_at _ _ _ _ Hcb'). simpl in Hc. by rewrite Hc.
Qed.

End comment_claims.

(* ===================================================================== *)
(** ** Properties of the rating service *)
(* ===================================================================== *)

Section rating_facts.
Import rating.
Context `{!JSON rating}.
Implicit Types (db tx : bucket) (r : rateable) (rt stored : rating).

Lemma int_wrap_is_int z : is_int (int_wrap z).
Proof.
  unfold is_int, int_wrap, int_min, int_max.
  pose proof (Z.mod_pos_bound (z + 2 ^ 63) (2 ^ 64)). lia.
Qed.

(** Without overflow [int] addition is the addition of integers. *)
Lemma int_add_exact a b : is_int (a + b) → int_add a b = a + b.
Proof.
  unfold is_int, int_add, int_wrap, int_min, int_max. intros Hab.
  rewrite Z.mod_small; lia.
Qed.

(** The two calls [save] chains are the merge of the specification. *)
Lemma ensureNotNegative_add stored rt :
  ensureNotNegative (add stored rt) = merge_spec stored rt.
Proof.
  unfold ensureNotNegative, add, merge_spec; simpl.
  f_equal;
    match goal with |- (if ?x <? 0 then _ else _) = _ =>
      destruct (Z.ltb_spec x 0); lia end.
Qed.

(** Where no sum overflows, the merge is the sum of integers floored
    at 0. *)
Lemma merge_spec_exact stored rt :
  ints (add_exact stored rt) →
  merge_spec stored rt =
    {| FiveStars := Z.max 0 (FiveStars stored + FiveStars rt);
       FourStars := Z.max 0 (FourStars stored + FourStars rt);
       ThreeStars := Z.max 0 (ThreeStars stored + ThreeStars rt);
       TwoStars := Z.max 0 (TwoStars stored + TwoStars rt);
       OneStars := Z.max 0 (OneStars stored + OneStars rt) |}.
Proof.
  intros (H5 & H4 & H3 & H2 & H1). unfold merge_spec. simpl in *.
  by rewrite !int_add_exact.
Qed.

(** Where no sum of a sequence of merges overflows, the aggregates the
    code goes through are the ones of the specification's words. *)
Lemma merge_trace_exact stored deltas :
  no_overflow stored deltas →
  merge_trace stored deltas = words_trace stored deltas.
Proof.
  revert stored. induction deltas as [|rt rest IH]; intros stored; simpl;
    [done|].
  intros [Hsum Hrest]. rewrite (merge_spec_exact _ _ Hsum).
  change (merge_words stored rt :: merge_trace (merge_words stored rt) rest =
          merge_words stored rt :: words_trace (merge_words stored rt) rest).
  by rewrite (IH _ Hrest).
Qed.

Lemma merge_spec_nonneg stored rt : nonneg (merge_spec stored rt).
Proof. unfold nonneg, merge_spec; simpl. lia. Qed.

Lemma merge_spec_ints stored rt : ints (merge_spec stored rt).
Proof.
  unfold ints, merge_spec; simpl.
  repeat split;
    match goal with |- context [int_add ?a ?b] =>
      pose proof (int_wrap_is_int (a + b)) end;
    unfold is_int, int_add, int_min, int_max in *; lia.
Qed.

Lemma merge_trace_nonneg stored deltas :
  Forall nonneg (merge_trace stored deltas).
Proof.
  revert stored. induction deltas as [|rt rest IH]; intros stored; simpl.
  - constructor.
  - constructor; [apply merge_spec_nonneg|apply IH].
Qed.

(** What an instance holding the record [data] answers. *)
Lemma record_read r db ib data merged :
  bucket_at [kind r; key r] db = Some ib →
  ib !! ratingsKey = Some (Leaf data) →
  json_Unmarshal data rating_zero = (merged, None) →
  stored_is r db merged ∧ get r db = (Some merged, None).
Proof.
  intros Hib Hrec Hback.
  destruct (proj1 (bucket_at_snoc [kind r] _ _ _) Hib) as (kb & Hkb & Ek).
  split.
  - exists kb. split; [done|]. by rewrite Ek, Hrec.
  - unfold get, View. resolve_with Hkb. resolve_with Hib.
    rewrite (Bucket_Get_at _ _ _ _ Hib), Hrec. by rewrite Hback.
Qed.

(** The last two steps of [save]: encode and put. *)
Lemma record_written r tx ib merged data :
  bucket_at [kind r; key r] tx = Some ib →
  (∀ m, ib !! ratingsKey ≠ Some (Nested m)) →
  len data ≤ MaxValueSize →
  json_Unmarshal data rating_zero = (merged, None) →
  Bucket_Put tx [kind r; key r] ratingsKey data =
    (bucket_alter (λ m, <[ratingsKey := Leaf data]> m) [kind r; key r] tx, None) ∧
  stored_is r (bucket_alter (λ m, <[ratingsKey := Leaf data]> m) [kind r; key r] tx)
    merged ∧
  get r (bucket_alter (λ m, <[ratingsKey := Leaf data]> m) [kind r; key r] tx)
    = (Some merged, None).
Proof.
  intros Hib Hfree Hfit Hback. split.
  - by apply (Bucket_Put_ok _ _ _ _ ib).
  - apply (record_read _ _ (<[ratingsKey := Leaf data]> ib) data); try done.
    + by apply bucket_at_alter.
    + apply lookup_insert_eq.
Qed.

(** One merge: [save] succeeds on a rateable whose resource type
    exists, returns the merge of what the store holds with the delta,
    and leaves that merge as the record. *)
Lemma save_merges r rt db stored :
  json_roundtrip →
  json_fits →
  key r ≠ "" →
  stored_is r db stored →
  ∃ db',
    save r rt db = (db', Some (merge_spec stored rt), None) ∧
    stored_is r db' (merge_spec stored rt) ∧
    get r db' = (Some (merge_spec stored rt), None).
Proof.
  intros Hjson Hfits Hkey (kb & Hkb & Hst).
  destruct (Hjson (merge_spec stored rt)) as (data & Hm & Hu);
    [apply merge_spec_ints|].
  pose proof (Hfits _ _ (merge_spec_ints stored rt) Hm) as Hfit.
  unfold save, Update. resolve_with Hkb.
  destruct (kb !! key r) as [[v|ib]|] eqn:Ek; [done| |].
  - rewrite (CreateBucketIfNotExists_present _ _ (key r) _ _ Hkey Hkb Ek).
    cbn [app]; cbv beta iota.
    assert (bucket_at [kind r; key r] db = Some ib) as Hib.
    { apply (bucket_at_snoc [kind r]). eauto. }
    rewrite (Bucket_Get_at _ _ _ _ Hib).
    destruct (ib !! ratingsKey) as [[d|m]|] eqn:Er; [|done|].
    + rewrite Hst. cbv beta iota zeta. rewrite ensureNotNegative_add, Hm.
      destruct (record_written r db ib (merge_spec stored rt) data Hib)
        as (-> & Hst' & Hget);
        [by intros m; rewrite Er|done|done|].
      eexists. by repeat split.
    + subst stored. cbv beta iota zeta. rewrite ensureNotNegative_add, Hm.
      destruct (record_written r db ib (merge_spec rating_zero rt) data Hib)
        as (-> & Hst' & Hget);
        [by intros m; rewrite Er|done|done|].
      eexists. by repeat split.
  - rewrite (CreateBucketIfNotExists_fresh _ _ (key r) _ Hkey Hkb Ek).
    cbn [app]; cbv beta iota.
    set (tx := bucket_alter _ [kind r] db).
    assert (bucket_at [kind r; key r] tx = Some ∅) as Hib.
    { apply (bucket_at_snoc [kind r]). eexists. split.
      - apply bucket_at_alter, Hkb.
      - apply lookup_insert_eq. }
    rewrite (Bucket_Get_at _ _ _ _ Hib), lookup_empty.
    subst stored. cbv beta iota zeta. rewrite ensureNotNegative_add, Hm.
    destruct (record_written r tx ∅ (merge_spec rating_zero rt) data Hib)
      as (-> & Hst' & Hget);
      [by intros m; rewrite lookup_empty|done|done|].
    eexists. by repeat split.
Qed.

Lemma save_all_trace r deltas db stored :
  json_roundtrip →
  json_fits →
  key r ≠ "" →
  stored_is r db stored →
  (save_all r deltas db).2 =
    (λ merged, ((Some merged, None), (Some merged, None)))
      <$> merge_trace stored deltas.
Proof.
  intros Hjson Hfits Hkey. revert db stored.
  induction deltas as [|rt rest IH]; intros db stored Hst; simpl; [done|].
  destruct (save_merges r rt db stored Hjson Hfits Hkey Hst)
    as (db' & -> & Hst' & ->).
  specialize (IH db' _ Hst').
  destruct (save_all r rest db') as [db'' trace]. simpl in *. by rewrite IH.
Qed.

(** [save] either fails and leaves the store as it was, or makes sure
    of the instance container and puts the encoding of the clamped sum
    under the ratings key. *)
Lemma rating_save_cases r rt db :
  (∃ res err, save r rt db = (db, res, Some err)) ∨
  (∃ kb tx ib current data,
     bucket_at [kind r] db = Some kb ∧
     (tx = db ∨ tx = bucket_alter (λ m, <[key r := Nested ∅]> m) [kind r] db) ∧
     bucket_at [kind r; key r] tx = Some ib ∧
     json_Marshal (ensureNotNegative (add current rt)) = inr data ∧
     save r rt db =
       (bucket_alter (λ m, <[ratingsKey := Leaf data]> m) [kind r; key r] tx,
        Some (ensureNotNegative (add current rt)), None)).
Proof.
  unfold save, Update.
  destruct (bucket_at [kind r] db) as [kb|] eqn:Hkb;
    resolve_with Hkb; [|left; eauto].
  destruct (CreateBucketIfNotExists_ok db [kind r] (key r))
    as [[err E]|(tx & ib & m & E & Hkey & Hm & Htx & Hib)];
    rewrite E; cbn [app] in *; cbv beta iota; [left; eauto|].
  destruct (match Bucket_Get tx [kind r; key r] ratingsKey with
            | Some data => json_Unmarshal data rating_zero
            | None => (rating_zero, None)
            end) as [current [err|]]; [left; eauto|].
  cbv zeta.
  destruct (json_Marshal (ensureNotNegative (add current rt)))
    as [err|data] eqn:Hdata; [left; eauto|].
  destruct (Bucket_Put_cases tx [kind r; key r] ratingsKey data)
    as [[err E2]|(ib' & Hib' & _ & Hfree & E2)];
    rewrite E2; cbv beta iota; [left; eauto|right].
  exists kb, tx, ib, current, data. by repeat split.
Qed.

Lemma save_keeps_records r rt db :
  json_roundtrip → records_nonneg db → records_nonneg (save r rt db).1.1.
Proof.
  intros Hjson Hinv.
  destruct (rating_save_cases r rt db)
    as [(res & err & ->)|(kb & tx & ib & current & data & Hkb & Htx & Hib & Hd & ->)];
    cbn [fst]; [done|].
  intros kind' key' ib' d Hib' Hrec.
  destruct (decide (kind' = kind r ∧ key' = key r)) as [[-> ->]|Hne].
  - rewrite (bucket_at_alter _ _ _ _ Hib) in Hib'. injection Hib' as <-.
    rewrite lookup_insert_eq in Hrec. injection Hrec as <-.
    rewrite ensureNotNegative_add in *.
    destruct (Hjson (merge_spec current rt)) as (data' & Hm & Hu);
      [apply merge_spec_ints|].
    rewrite Hd in Hm. injection Hm as <-.
    eexists. split; [done|]. apply merge_spec_nonneg.
  - rewrite (bucket_at_alter_apart _ [kind r; key r] ratingsKey _ ib) in Hib';
      try done.
    + destruct Htx as [->| ->]; [by apply (Hinv kind' key' ib' d)|].
      rewrite (bucket_at_alter_apart _ [kind r] (key r) _ kb) in Hib'; try done.
      * by apply (Hinv kind' key' ib' d).
      * intros m' k' Hk. by apply lookup_insert_ne.
      * intros [l Hl]. simplify_eq/=. by destruct Hne.
      * intros [l Hl]. simplify_eq/=. by destruct Hne.
    + intros m' k' Hk. by apply lookup_insert_ne.
    + intros [l Hl]. simplify_eq/=. by destruct Hne.
    + intros [l Hl]. simplify_eq/=.
Qed.

(** [setup] leaves every top-level bucket as it finds it and adds
    empty ones. *)
Lemma setup_loop_lookup cmts tx k :
  (setup_loop cmts tx).1 !! k = tx !! k ∨
  (tx !! k = None ∧ (setup_loop cmts tx).1 !! k = Some (Nested ∅)).
Proof.
  revert tx. induction cmts as [|b rest IH]; intros tx; simpl; [by left|].
  destruct (CreateBucketIfNotExists_cases tx [] b)
    as [[err E]|(m & Hm & Hb & [(m' & Hk & E)|[Hk E]])];
    unfold Tx_CreateBucketIfNotExists; rewrite E; simpl in *; [by left|apply IH|].
  injection Hm as <-.
  destruct (IH (<[b := Nested ∅]> tx)) as [Hsame|[Hnone Hnew]].
  - rewrite Hsame. destruct (decide (b = k)) as [->|Hne].
    + right. by rewrite lookup_insert_eq.
    + left. by rewrite lookup_insert_ne.
  - destruct (decide (b = k)) as [->|Hne].
    + by rewrite lookup_insert_eq in Hnone.
    + rewrite lookup_insert_ne in Hnone by done. by right.
Qed.

Lemma setup_keeps_records cmts db :
  records_nonneg db → records_nonneg (setup db cmts).1.
Proof.
  intros Hinv. unfold setup, Update.
  pose proof (setup_loop_lookup cmts db) as Hlook.
  destruct (setup_loop cmts db) as [tx [err|]]; cbn [fst] in *; [done|].
  intros kind' key' ib' d Hib' Hrec. simpl in Hib'.
  destruct (Hlook kind') as [Hsame|[Hnone Hnew]].
  - apply (Hinv kind' key' ib' d); [|done]. simpl. by rewrite <- Hsame.
  - rewrite Hnew in Hib'. by rewrite lookup_empty in Hib'.
Qed.

End rating_facts.

Section rating_claims.
Import rating.
Context `{!JSON rating}.
Implicit Types (db tx : bucket) (r : rateable) (rt stored : rating).

(** C1, as the code has it. For every sequence of deltas merged with
    [save] into a rateable whose resource type exists and whose instance
    starts without a record, every [save] succeeds, and what it returns
    and what the store then holds (read back with [get]) is the
    previous aggregate plus the delta in the arithmetic of [int], which
    wraps around at 64 bits, with the floor of 0 applied right after
    that merge; every counter of every such aggregate is at least 0;
    and where no sum of the sequence leaves the range of an [int], the
    aggregates are the ones of the specification's words: the previous
    aggregate plus the delta over the integers, floored at 0. *)
Theorem merges_are_floored r deltas db kb :
  json_roundtrip →
  json_fits →
  bucket_at [kind r] db = Some kb →
  key r ≠ "" →
  (kb !! key r = None ∨
   ∃ ib, kb !! key r = Some (Nested ib) ∧ ib !! ratingsKey = None) →
  (save_all r deltas db).2 =
    (λ merged, ((Some merged, None), (Some merged, None)))
      <$> merge_trace rating_zero deltas ∧
  Forall nonneg (merge_trace rating_zero deltas) ∧
  (no_overflow rating_zero deltas →
   (save_all r deltas db).2 =
     (λ merged, ((Some merged, None), (Some merged, None)))
       <$> words_trace rating_zero deltas).
Proof.
  intros Hjson Hfits Hkb Hkey Hfresh.
  assert ((save_all r deltas db).2 =
            (λ merged, ((Some merged, None), (Some merged, None)))
              <$> merge_trace rating_zero deltas) as Htrace.
  { apply save_all_trace; try done.
    exists kb. split; [done|].
    destruct Hfresh as [->|(ib & -> & ->)]; done. }
  repeat split; [done|apply merge_trace_nonneg|].
  intros Hexact. by rewrite Htrace, (merge_trace_exact _ _ Hexact).
Qed.

(** C4, as the code has it. With the resource-type container present,
    the instance container absent and a non-empty resource key, [save]
    does not fail: it creates the instance container, puts the clamped
    delta under the ratings key and returns it. The encoding of the
    clamped delta is a value bolt takes: it has at most [MaxValueSize]
    bytes, as every encoding of five [int] counters has. *)
Theorem save_creates_instance r rt db kb data :
  bucket_at [kind r] db = Some kb →
  kb !! key r = None →
  key r ≠ "" →
  json_Marshal (ensureNotNegative (add rating_zero rt)) = inr data →
  len data ≤ MaxValueSize →
  save r rt db =
    (bucket_alter (λ m, <[ratingsKey := Leaf data]> m) [kind r; key r]
       (bucket_alter (λ m, <[key r := Nested ∅]> m) [kind r] db),
     Some (ensureNotNegative (add rating_zero rt)), None).
Proof.
  intros Hkb Ek Hkey Hdata Hfit. unfold save, Update. resolve_with Hkb.
  rewrite (CreateBucketIfNotExists_fresh _ _ (key r) _ Hkey Hkb Ek).
  cbn [app]; cbv beta iota.
  set (tx := bucket_alter _ [kind r] db).
  assert (bucket_at [kind r; key r] tx = Some ∅) as Hib.
  { apply (bucket_at_snoc [kind r]). eexists. split.
    - apply bucket_at_alter, Hkb.
    - apply lookup_insert_eq. }
  rewrite (Bucket_Get_at _ _ _ _ Hib), lookup_empty.
  cbv beta iota zeta. rewrite Hdata.
  rewrite (Bucket_Put_ok _ _ _ _ ∅); try done.
Qed.

(** C5. In every store the rating service can be in -- whatever
    sequence of [setup], [save] and [get] led to it from the empty
    store -- the ratings record of every resource instance, when there
    is one, decodes to an aggregate whose five counters are at least 0. *)
Theorem stored_ratings_nonneg db :
  json_roundtrip → reachable db → records_nonneg db.
Proof.
  intros Hjson. induction 1 as [|o db Hr IH].
  - intros kind' key' ib' d Hib'. simpl in Hib'. by rewrite lookup_empty in Hib'.
  - destruct o; simpl; [by apply setup_keeps_records|by apply save_keeps_records|done].
Qed.

(** C6. For every rateable whose resource-type container and instance
    container exist and whose instance holds no ratings record, [get]
    returns the all-zero aggregate and no error. *)
Theorem get_without_record r db ib :
  bucket_at [kind r; key r] db = Some ib →
  (∀ data, ib !! ratingsKey ≠ Some (Leaf data)) →
  get r db = (Some rating_zero, None).
Proof.
  intros Hib Hnone.
  destruct (proj1 (bucket_at_snoc [kind r] _ _ _) Hib) as (kb & Hkb & _).
  unfold get, View. resolve_with Hkb. resolve_with Hib.
  rewrite (Bucket_Get_at _ _ _ _ Hib).
  destruct (ib !! ratingsKey) as [[d|m]|] eqn:E; try done. by destruct (Hnone d).
Qed.

End rating_claims.

Section provisioning.

Lemma setup_loop_app earlier later tx :
  setup_loop (earlier ++ later) tx =
    match setup_loop earlier tx with
    | (tx', None) => setup_loop later tx'
    | failed => failed
    end.
Proof.
  revert tx. induction earlier as [|b rest IH]; intros tx; simpl; [done|].
  destruct (Tx_CreateBucketIfNotExists tx b) as [err|[tx' ?]]; [done|apply IH].
Qed.

(** C2, as the code has it. When the names before an empty name are
    created successfully, [setup] returns the failure of the empty name
    and the store is exactly the one before the call: the containers
    created for the earlier names are rolled back with the transaction. *)
Theorem setup_rolls_back db earlier rest tx :
  setup_loop earlier db = (tx, None) →
  setup db (earlier ++ "" :: rest) = (db, Some ErrBucketNameRequired).
Proof.
  intros Hearlier. unfold setup, Update.
  by rewrite setup_loop_app, Hearlier.
Qed.

End provisioning.

(* ===================================================================== *)
(** ** The reference codec keeps the promises of encoding/json *)
(* ===================================================================== *)

Section gojson_facts.
Import rating gojson.

Lemma strip_prefix_app p s : strip_prefix p (p +:+ s) = Some s.
Proof.
  induction p as [|a p IH]; simpl; [by destruct s|].
  by rewrite Ascii.eqb_refl.
Qed.

Lemma string_of_uint_chars d : number_chars (NilZero.string_of_uint d) = true.
Proof.
  assert (number_chars (NilEmpty.string_of_uint d) = true) as Hd
    by (induction d; simpl; done).
  by destruct d.
Qed.

Lemma number_number_chars z : number_chars (number z) = true.
Proof.
  unfold number. destruct (Z.to_int z) as [d|d]; simpl.
  - apply string_of_uint_chars.
  - apply string_of_uint_chars.
Qed.

Lemma span_number_app n tail :
  number_chars n = true →
  ends_number tail →
  span_number (n +:+ tail) = (n, tail).
Proof.
  intros Hn Htail. induction n as [|a n IH]; simpl in *.
  - destruct tail as [|c rest]; simpl in *; [done|by rewrite Htail].
  - apply andb_true_iff in Hn as [-> Hn]. by rewrite (IH Hn).
Qed.

Lemma int_of_string_number z :
  NilZero.int_of_string (number z) = Some (Z.to_int z).
Proof.
  unfold number. apply NilZero.isi.
  - destruct z; simpl; try done.
    intros [= Hp]. by apply DecimalPos.Unsigned.to_uint_nonnil in Hp.
  - destruct z; simpl; try done.
    intros [= Hp]. by apply DecimalPos.Unsigned.to_uint_nonnil in Hp.
Qed.

Lemma parse_member_number name z tail :
  is_int z →
  ends_number tail →
  parse_member name (member name +:+ number z +:+ tail) = Some (z, tail).
Proof.
  intros Hz Htail. unfold parse_member, parse_int.
  rewrite strip_prefix_app. cbn [mbind option_bind].
  rewrite (span_number_app _ _ (number_number_chars z) Htail).
  rewrite int_of_string_number. cbn [mbind option_bind].
  rewrite DecimalZ.of_to. by rewrite decide_True.
Qed.

Lemma parse_marshal_rating r : ints r → parse_rating (marshal_rating r) = Some r.
Proof.
  destruct r as [a b c d e]. intros (Ha & Hb & Hc & Hd & He); simpl in *.
  unfold parse_rating, marshal_rating; cbn [FiveStars FourStars ThreeStars
    TwoStars OneStars].
  rewrite strip_prefix_app; cbn [mbind option_bind].
  rewrite (parse_member_number _ a) by done; cbn [mbind option_bind].
  rewrite strip_prefix_app; cbn [mbind option_bind].
  rewrite (parse_member_number _ b) by done; cbn [mbind option_bind].
  rewrite strip_prefix_app; cbn [mbind option_bind].
  rewrite (parse_member_number _ c) by done; cbn [mbind option_bind].
  rewrite strip_prefix_app; cbn [mbind option_bind].
  rewrite (parse_member_number _ d) by done; cbn [mbind option_bind].
  rewrite strip_prefix_app; cbn [mbind option_bind].
  rewrite (parse_member_number _ e) by done; cbn [mbind option_bind].
  by rewrite decide_True.
Qed.

Lemma gojson_rating_roundtrip : @json_roundtrip rating_json.
Proof.
  intros r Hr. exists (marshal_rating r). split; [done|].
  simpl. by rewrite (parse_marshal_rating r Hr).
Qed.

Lemma double_digits d :
  (nb_digits (Little.double d) ≤ S (nb_digits d))%nat ∧
  (nb_digits (Little.succ_double d) ≤ S (nb_digits d))%nat.
Proof. induction d; simpl in *; lia. Qed.

Lemma to_little_uint_digits p :
  (nb_digits (Pos.to_little_uint p) ≤ Pos.size_nat p)%nat.
Proof.
  induction p as [p IH|p IH|]; simpl; [| |lia].
  - pose proof (proj2 (double_digits (Pos.to_little_uint p))). lia.
  - pose proof (proj1 (double_digits (Pos.to_little_uint p))). lia.
Qed.

Lemma string_of_uint_length d :
  (String.length (NilZero.string_of_uint d) ≤ S (nb_digits d))%nat.
Proof.
  assert (String.length (NilEmpty.string_of_uint d) = nb_digits d) as Hd
    by (induction d; simpl; congruence).
  destruct d; simpl in *; lia.
Qed.

Lemma length_append (s t : string) :
  String.length (s +:+ t) = (String.length s + String.length t)%nat.
Proof. induction s as [|a s IH]; simpl; [done|by rewrite IH]. Qed.

(** The numeral of an [int] is short. *)
Lemma number_length z : is_int z → len (number z) ≤ 66.
Proof.
  unfold is_int, int_min, int_max, number, len. intros Hz.
  assert (∀ p, Z.pos p ≤ 2 ^ 63 →
            (nb_digits (Pos.to_uint p) ≤ 64)%nat) as Hdigits.
  { intros p Hp. unfold Pos.to_uint. rewrite nb_digits_rev.
    etrans; [apply to_little_uint_digits|].
    assert (p < 2 ^ 63 + 1)%positive as Hlt by lia.
    apply Pos.size_nat_monotone in Hlt. etrans; [apply Hlt|].
    vm_compute. lia. }
  destruct z as [|p|p]; simpl.
  - lia.
  - pose proof (string_of_uint_length (Pos.to_uint p)).
    pose proof (Hdigits p ltac:(lia)). lia.
  - pose proof (string_of_uint_length (Pos.to_uint p)).
    pose proof (Hdigits p ltac:(lia)). lia.
Qed.

(** The reference codec writes ratings that fit a value of the store. *)
Lemma gojson_rating_fits : @json_fits rating_json.
Proof.
  intros r data (H5 & H4 & H3 & H2 & H1) [= <-].
  apply number_length in H5, H4, H3, H2, H1.
  unfold marshal_rating, len in *. rewrite !length_append.
  unfold MaxValueSize. simpl String.length. lia.
Qed.

Lemma unquote_escape t rest :
  unquote (escape t +:+ String dquote rest) = Some (t, rest).
Proof.
  induction t as [|c t IH]; simpl; [done|].
  destruct (Ascii.eqb c dquote) eqn:Eq; simpl.
  - apply Ascii.eqb_eq in Eq as ->. simpl. by rewrite IH.
  - destruct (Ascii.eqb c backslash) eqn:Eb; simpl.
    + apply Ascii.eqb_eq in Eb as ->. simpl. by rewrite IH.
    + rewrite Eq, Eb. by rewrite IH.
Qed.

Lemma parse_marshal_comment c : parse_comment (marshal_comment c) = Some c.
Proof.
  destruct c as [id value]. unfold parse_comment, marshal_comment.
  cbn [comment.ID comment.Value].
  change ("{" +:+ member "id" +:+ String dquote (escape id) +:+ String dquote
            ("," +:+ member "value" +:+ String dquote (escape value)
               +:+ String dquote "}"))
    with (("{" +:+ member "id" +:+ String dquote "") +:+
            (escape id +:+ String dquote
               (("," +:+ member "value" +:+ String dquote "") +:+
                  (escape value +:+ String dquote "}")))).
  rewrite strip_prefix_app; cbn [mbind option_bind].
  rewrite unquote_escape; cbn [mbind option_bind].
  rewrite strip_prefix_app; cbn [mbind option_bind].
  rewrite unquote_escape; cbn [mbind option_bind].
  by rewrite decide_True.
Qed.

(** The reference codec gives every comment back. *)
Lemma gojson_comment_roundtrip c : @comment.json_roundtrip comment_json c.
Proof.
  exists (marshal_comment c). split; [done|].
  simpl. by rewrite parse_marshal_comment.
Qed.

(** The reference codec decodes every comment it encodes. *)
Lemma gojson_comment_decodes : @comment.json_decodes comment_json.
Proof.
  intros c data [= <-]. simpl. by rewrite parse_marshal_comment.
Qed.

End gojson_facts.

(* ===================================================================== *)
(** ** The services on the stores of the test suites *)
(* ===================================================================== *)

Section comment_examples.
Import comment examples.

Lemma books_b1_reachable : @reachable gojson.comment_json books_b1.
Proof.
  exact (reachable_step (OpEnsure b1) _
           (reachable_step (OpSetup ["books"]) _ reachable_empty)).
Qed.

Lemma books_b1_commented_reachable :
  @reachable gojson.comment_json books_b1_commented.
Proof.
  exact (reachable_step (OpSave b1 (Some second)) _
           (reachable_step (OpSave b1 (Some great_read)) _ books_b1_reachable)).
Qed.

Lemma remove_then_get_not_found_witness :
  @get gojson.comment_json b1 (ID great_read)
    (remove b1 (ID great_read) books_b1_commented).1 =
    (None, Some (Errorf (commentNotFoundFmt (ID great_read) "books" "b1"))).
Proof.
  eapply (@remove_then_get_not_found gojson.comment_json b1 (ID great_read)
            books_b1_commented).
  vm_compute. reflexivity.
Defined.

Lemma list_of_fresh_instance_is_empty_witness :
  @list gojson.comment_json b1 books_b1 = (Some [], None).
Proof.
  apply (@list_of_fresh_instance_is_empty gojson.comment_json b1 books_b1 ∅).
  - vm_compute. reflexivity.
  - intros m. rewrite lookup_empty. discriminate.
Defined.

Lemma remove_frame_witness :
  node_at ["books"; "b1"; commentsKey; ID second]
    (Nested (remove b1 (ID great_read) books_b1_commented).1) =
  node_at ["books"; "b1"; commentsKey; ID second] (Nested books_b1_commented).
Proof.
  apply (proj1 (proj2 (remove_frame b1 (ID great_read) books_b1_commented))).
  intros [l Hl]. vm_compute in Hl. discriminate Hl.
Defined.



(** C3, as worded, fails on the code: on the instance [b1] of the
    resource type [books], [add] of a comment with the empty text
    returns no error and leaves an entry in the comments container. *)
Lemma add_stores_empty_text :
  ¬ @add_rejects_empty_text gojson.comment_json
      "-MZx3kQ0aB7cD9eF1gH2" b1 {| ID := ""; Value := "" |} books_b1.
Proof.
  intros Hclaim. destruct Hclaim as [Herr _].
  - vm_compute. eauto.
  - reflexivity.
  - vm_compute in Herr. discriminate Herr.
Qed.

Lemma add_accepts_empty_text_witness :
  (@add gojson.comment_json "-MZx3kQ0aB7cD9eF1gH2" b1
     (Some {| ID := ""; Value := "" |}) books_b1).1.2
    = Some {| ID := "-MZx3kQ0aB7cD9eF1gH2"; Value := "" |} ∧
  (@add gojson.comment_json "-MZx3kQ0aB7cD9eF1gH2" b1
     (Some {| ID := ""; Value := "" |}) books_b1).2 = None ∧
  Bucket_Get
    (@add gojson.comment_json "-MZx3kQ0aB7cD9eF1gH2" b1
       (Some {| ID := ""; Value := "" |}) books_b1).1.1
    ["books"; "b1"; commentsKey] "-MZx3kQ0aB7cD9eF1gH2"
    = Some (gojson.marshal_comment
              {| ID := "-MZx3kQ0aB7cD9eF1gH2"; Value := "" |}).
Proof.
  eapply (proj2 (@add_accepts_empty_text gojson.comment_json
                   "-MZx3kQ0aB7cD9eF1gH2" b1 books_b1)
            {| ID := ""; Value := "" |} _
            (gojson.marshal_comment
               {| ID := "-MZx3kQ0aB7cD9eF1gH2"; Value := "" |})).
  - apply books_b1_reachable.
  - vm_compute. reflexivity.
  - split; [discriminate|]. split; vm_compute; discriminate.
  - reflexivity.
  - reflexivity.
Defined.

End comment_examples.

Section rating_examples.
Import rating examples.

Lemma posts_rated_reachable : @reachable gojson.rating_json posts_rated.
Proof.
  exact (reachable_step (OpSave my_key (stars (-2) 1 10 (-6) 0)) _
           (reachable_step (OpSetup ["posts"]) _ reachable_empty)).
Qed.

(** A deficit is not banked: merging -10 and then +3 into a counter
    that starts at 0 gives 0 and then 3; no sum overflows there, and
    the aggregates are the ones of the specification's words. *)
Lemma merges_are_floored_witness :
  (@save_all gojson.rating_json my_key
     [stars (-10) 0 0 0 0; stars 3 0 0 0 0] posts_my_key).2 =
    [((Some (stars 0 0 0 0 0), None), (Some (stars 0 0 0 0 0), None));
     ((Some (stars 3 0 0 0 0), None), (Some (stars 3 0 0 0 0), None))] ∧
  Forall nonneg [stars 0 0 0 0 0; stars 3 0 0 0 0] ∧
  no_overflow rating_zero [stars (-10) 0 0 0 0; stars 3 0 0 0 0] ∧
  (@save_all gojson.rating_json my_key
     [stars (-10) 0 0 0 0; stars 3 0 0 0 0] posts_my_key).2 =
    (λ merged, ((Some merged, None), (Some merged, None))) <$>
      words_trace rating_zero [stars (-10) 0 0 0 0; stars 3 0 0 0 0].
Proof.
  assert (no_overflow rating_zero [stars (-10) 0 0 0 0; stars 3 0 0 0 0])
    as Hexact by (vm_compute; repeat split; discriminate).
  destruct (@merges_are_floored gojson.rating_json my_key
              [stars (-10) 0 0 0 0; stars 3 0 0 0 0] posts_my_key
              (<["my-key" := Nested ∅]> ∅))
    as (Hcode & Hnonneg & Hwords).
  - apply gojson_rating_roundtrip.
  - apply gojson_rating_fits.
  - vm_compute. reflexivity.
  - discriminate.
  - right. exists ∅. split; vm_compute; reflexivity.
  - exact (conj Hcode (conj Hnonneg (conj Hexact (Hwords Hexact)))).
Defined.

(** C1, as worded, fails on the code: merging the largest [int] and
    then 1 into a counter that starts at 0, the second [save] returns 0
    where the previous aggregate plus the delta is 2^63. *)
Lemma sum_wraps_around :
  ¬ @merges_are_integer_sums gojson.rating_json my_key
      [stars int_max 0 0 0 0; stars 1 0 0 0 0] posts_my_key.
Proof.
  intros Hclaim.
  assert ((@save_all gojson.rating_json my_key
             [stars int_max 0 0 0 0; stars 1 0 0 0 0] posts_my_key).2 =
          (λ merged, ((Some merged, None), (Some merged, None))) <$>
            words_trace rating_zero [stars int_max 0 0 0 0; stars 1 0 0 0 0])
    as Heq.
  { apply Hclaim.
    - repeat constructor; vm_compute; discriminate.
    - exists (<["my-key" := Nested ∅]> ∅). split; [vm_compute; reflexivity|].
      right. exists ∅. split; vm_compute; reflexivity.
    - discriminate. }
  vm_compute in Heq. discriminate Heq.
Qed.

(** C4, as worded, fails on the code: with the resource type [posts]
    present and no instance [another-key], [save] succeeds and writes. *)
Lemma save_creates_missing_instance :
  ¬ @save_requires_instance gojson.rating_json another_key (stars 4 0 0 0 0) posts.
Proof.
  intros Hclaim. destruct Hclaim as [Herr _].
  - vm_compute. eauto.
  - vm_compute. reflexivity.
  - apply Herr. vm_compute. reflexivity.
Qed.

Lemma save_creates_instance_witness :
  @save gojson.rating_json another_key (stars 4 0 0 0 0) posts =
    (<["posts" := Nested (<["another-key" := Nested
         (<[ratingsKey := Leaf (gojson.marshal_rating (stars 4 0 0 0 0))]> ∅)]> ∅)]> ∅,
     Some (stars 4 0 0 0 0), None).
Proof.
  apply (@save_creates_instance gojson.rating_json another_key
           (stars 4 0 0 0 0) posts ∅).
  - vm_compute. reflexivity.
  - apply lookup_empty.
  - discriminate.
  - reflexivity.
  - vm_compute. discriminate.
Defined.

Lemma stored_ratings_nonneg_witness :
  @records_nonneg gojson.rating_json posts_rated.
Proof.
  apply (@stored_ratings_nonneg gojson.rating_json posts_rated).
  - apply gojson_rating_roundtrip.
  - apply posts_rated_reachable.
Defined.

Lemma get_without_record_witness :
  @get gojson.rating_json my_key posts_my_key = (Some rating_zero, None).
Proof.
  apply (@get_without_record gojson.rating_json my_key posts_my_key ∅).
  - vm_compute. reflexivity.
  - intros data. rewrite lookup_empty. discriminate.
Defined.

End rating_examples.

Section provisioning_examples.

(** C2, as worded, fails on the code: after [setup] of [books] and
    then the empty name on the empty store, [books] has no container. *)
Lemma setup_commits_nothing : ¬ provision_is_best_effort ∅ ["books"] [].
Proof.
  intros Hclaim. destruct Hclaim as [_ Hthere].
  - eexists. reflexivity.
  - specialize (Hthere "books" ltac:(by apply list_elem_of_here)).
    vm_compute in Hthere. discriminate Hthere.
Qed.

Lemma setup_rolls_back_witness :
  setup ∅ (["books"] ++ "" :: ["authors"]) = (∅, Some ErrBucketNameRequired).
Proof.
  eapply (setup_rolls_back ∅ ["books"] ["authors"]).
  reflexivity.
Defined.

End provisioning_examples.

(* ===================================================================== *)
(** ** More on the store *)
(* ===================================================================== *)

Section bolt_more.
Implicit Types (tx m : bucket) (b p : path) (k key : string).

(** A write into the bucket at [b] leaves every bucket on the way to
    [b] a bucket. *)
Lemma bucket_at_alter_prefix f b tx m p :
  bucket_at b tx = Some m →
  p `prefix_of` b →
  is_Some (bucket_at p tx) ∧ is_Some (bucket_at p (bucket_alter f b tx)).
Proof.
  revert tx p. induction b as [|k0 b IH]; intros tx p Hb [l Hl]; simpl in *.
  - destruct p; [|done]. simpl. eauto.
  - destruct (tx !! k0) as [[|m0]|] eqn:E; try done.
    destruct p as [|k' p]; simplify_eq/=; [eauto|].
    rewrite E, lookup_insert_eq. apply (IH m0 p Hb). by exists l.
Qed.

(** A write that changes nothing in the bucket changes nothing at all. *)
Lemma bucket_alter_id f b tx m :
  bucket_at b tx = Some m → f m = m → bucket_alter f b tx = tx.
Proof.
  revert tx. induction b as [|k0 b IH]; intros tx Hb Hf; simpl in *.
  - by injection Hb as ->.
  - destruct (tx !! k0) as [[|m0]|] eqn:E; try done.
    rewrite (IH m0 Hb Hf). by apply insert_id.
Qed.

(** Two writes into the same bucket are one write. *)
Lemma bucket_alter_compose f g b tx :
  bucket_alter f b (bucket_alter g b tx) = bucket_alter (f ∘ g) b tx.
Proof.
  revert tx. induction b as [|k0 b IH]; intros tx; simpl; [done|].
  destruct (tx !! k0) as [[|m0]|] eqn:E; simpl; rewrite ?E; try done.
  rewrite lookup_insert_eq, insert_insert_eq. by rewrite IH.
Qed.

Lemma bucket_alter_ext f g b tx :
  (∀ m, f m = g m) → bucket_alter f b tx = bucket_alter g b tx.
Proof.
  intros Hfg. revert tx. induction b as [|k0 b IH]; intros tx; simpl; [done|].
  destruct (tx !! k0) as [[|m0]|]; try done. by rewrite IH.
Qed.

End bolt_more.

(* ===================================================================== *)
(** ** More on provisioning *)
(* ===================================================================== *)

Section provisioning_more.
Implicit Types (db tx : bucket) (cmts : list string).

Lemma verify_spec db kind : verify db kind = true ↔ is_Some (bucket_at [kind] db).
Proof.
  unfold verify, View. rewrite Tx_Bucket_spec. cbn [fst].
  destruct (bucket_at [kind] db) as [m|];
    cbn [fmap option_fmap option_map]; rewrite bool_decide_eq_true.
  - split; eauto.
  - split; [done|by intros []].
Qed.

Lemma setup_loop_succeeds cmts tx :
  (∀ name, name ∈ cmts → name ≠ "" ∧ ∀ v, tx !! name ≠ Some (Leaf v)) →
  (setup_loop cmts tx).2 = None ∧
  ∀ name, name ∈ cmts → ∃ m, (setup_loop cmts tx).1 !! name = Some (Nested m).
Proof.
  revert tx. induction cmts as [|b rest IH]; intros tx Hok; simpl.
  { split; [done|]. by intros name Hin%elem_of_nil. }
  destruct (Hok b ltac:(left)) as [Hb Hleaf].
  assert (∃ tx', Tx_CreateBucketIfNotExists tx b = inr (tx', [b]) ∧
                 (∃ m, tx' !! b = Some (Nested m)) ∧
                 ∀ k, tx' !! k = tx !! k ∨ tx' !! k = Some (Nested ∅))
    as (tx' & -> & Hthere & Hkeep).
  { unfold Tx_CreateBucketIfNotExists, Bucket_CreateBucketIfNotExists.
    rewrite decide_False by done. simpl.
    destruct (tx !! b) as [[v|m]|] eqn:E; [by destruct (Hleaf v)|..].
    - exists tx. repeat split; eauto.
    - eexists. repeat split; [by rewrite lookup_insert_eq; eauto|].
      intros k. destruct (decide (b = k)) as [->|Hne].
      + right. by rewrite lookup_insert_eq.
      + left. by rewrite lookup_insert_ne. }
  destruct (IH tx') as [Hnone Hall].
  { intros name Hin. destruct (Hok name ltac:(by right)) as [Hne Hl].
    split; [done|]. intros v.
    destruct (Hkeep name) as [-> | ->]; [apply Hl|done]. }
  split; [done|]. intros name Hin.
  apply elem_of_cons in Hin as [->|Hin]; [|by apply Hall].
  destruct Hthere as [m Hm].
  destruct (setup_loop_lookup rest tx' b) as [->|[Hnone' _]]; [eauto|].
  by rewrite Hm in Hnone'.
Qed.

(** X1. [setup] succeeds when no name is empty and the store holds a plain
    value under none of them; afterwards [verify] answers true for every
    name, and whatever the store held at its top level it still holds. *)
Theorem setup_provisions db cmts :
  (∀ name, name ∈ cmts → name ≠ "" ∧ ∀ v, db !! name ≠ Some (Leaf v)) →
  (setup db cmts).2 = None ∧
  (∀ name, name ∈ cmts → verify (setup db cmts).1 name = true) ∧
  (∀ name n, db !! name = Some n → (setup db cmts).1 !! name = Some n).
Proof.
  intros Hok. destruct (setup_loop_succeeds cmts db Hok) as [Hnone Hall].
  pose proof (setup_loop_lookup cmts db) as Hlook.
  unfold setup, Update.
  destruct (setup_loop cmts db) as [tx [err|]]; [done|]. cbn [fst snd] in *.
  repeat split.
  - intros name Hin. apply verify_spec. simpl.
    destruct (Hall name Hin) as [m ->]. eauto.
  - intros name n Hn. destruct (Hlook name) as [->|[Hnone' _]]; [done|].
    by rewrite Hn in Hnone'.
Qed.

Lemma setup_loop_again cmts tx tx' :
  setup_loop cmts tx = (tx', None) → setup_loop cmts tx' = (tx', None).
Proof.
  revert tx. induction cmts as [|b rest IH]; intros tx; simpl; [done|].
  destruct (CreateBucketIfNotExists_cases tx [] b)
    as [[err E]|(m & Hm & Hb & Hcase)];
    unfold Tx_CreateBucketIfNotExists in *; [by rewrite E|].
  assert (∃ tx1 m1, Bucket_CreateBucketIfNotExists tx [] b = inr (tx1, [b]) ∧
                    tx1 !! b = Some (Nested m1)) as (tx1 & m1 & E & Hb1).
  { simpl in Hm. injection Hm as <-.
    destruct Hcase as [(m' & Hk & E)|[Hk E]]; rewrite E; simpl.
    - by exists tx, m'.
    - eexists _, ∅. split; [done|]. apply lookup_insert_eq. }
  rewrite E. intros Hrest.
  assert (∃ m2, tx' !! b = Some (Nested m2)) as [m2 Hb2].
  { pose proof (setup_loop_lookup rest tx1 b) as Hl. rewrite Hrest in Hl.
    simpl in Hl. destruct Hl as [->|[Hnone _]]; [eauto|]. by rewrite Hb1 in Hnone. }
  rewrite (CreateBucketIfNotExists_present tx' [] b tx' m2); try done.
  by apply (IH tx1).
Qed.

(** X2. Running [setup] again with the same names changes nothing and gives
    the same answer. *)
Theorem setup_twice db cmts :
  setup (setup db cmts).1 cmts = setup db cmts.
Proof.
  unfold setup at 2 3, Update.
  destruct (setup_loop cmts db) as [tx [err|]] eqn:E; cbn [fst].
  - unfold setup, Update. by rewrite E.
  - unfold setup, Update. by rewrite (setup_loop_again _ _ _ E).
Qed.

End provisioning_more.

(* ===================================================================== *)
(** ** More on the comment service: gates, failures, repetition *)
(* ===================================================================== *)

Section comment_gates.
Import comment.
Context `{!JSON comment}.
Implicit Types (db : bucket) (cm : commentable) (c : comment).

(** X3. Without the container of the resource type every operation of a
    commentable stops at its first lookup: the writers fail and leave the
    store alone, the readers fail, [exists] answers false. *)
Theorem comment_operations_need_resource_type cm c cKey db :
  bucket_at [kind cm] db = None →
  ensure cm db =
    (db, Some (Errorf ("resource '" +:+ kind cm +:+ "' does not exist"))) ∧
  exists_ cm db = false ∧
  save cm (Some c) db =
    (db, None, Some (Errorf (commentableTypeNotFoundFmt (kind cm)))) ∧
  list cm db = (None, Some (Errorf (commentableTypeNotFoundFmt (kind cm)))) ∧
  get cm cKey db = (None, Some (Errorf (commentableTypeNotFoundFmt (kind cm)))) ∧
  remove cm cKey db = (db, Some (Errorf (commentableTypeNotFoundFmt (kind cm)))).
Proof.
  intros Hkb. repeat split.
  - unfold ensure, Update. by resolve_with Hkb.
  - unfold exists_, View. by resolve_with Hkb.
  - unfold save, Update. by resolve_with Hkb.
  - unfold list, View. by resolve_with Hkb.
  - unfold get, View. by resolve_with Hkb.
  - unfold remove, Update. by resolve_with Hkb.
Qed.


(** What [exists] looks at. *)
Lemma exists_spec cm db :
  exists_ cm db = true ↔ is_Some (bucket_at [kind cm; key cm] db).
Proof.
  unfold exists_, View.
  destruct (bucket_at [kind cm] db) as [kb|] eqn:Hkb; resolve_with Hkb.
  - destruct (bucket_at [kind cm; key cm] db) as [ib|] eqn:Hib; resolve_with Hib.
    + split; eauto.
    + split; [done|by intros []].
  - split; [done|]. intros [ib Hib].
    destruct (proj1 (bucket_at_snoc [kind cm] _ _ _) Hib) as (kb & Hkb' & _).
    by rewrite Hkb in Hkb'.
Qed.

Lemma exists_false cm db :
  bucket_at [kind cm; key cm] db = None → exists_ cm db = false.
Proof.
  intros Hib. destruct (exists_ cm db) eqn:E; [|done].
  apply exists_spec in E. rewrite Hib in E. by destruct E.
Qed.

Lemma ensure_creates cm db kb :
  bucket_at [kind cm] db = Some kb →
  key cm ≠ "" →
  (∀ v, kb !! key cm ≠ Some (Leaf v)) →
  ∃ db', ensure cm db = (db', None) ∧ is_Some (bucket_at [kind cm; key cm] db').
Proof.
  intros Hkb Hkey Hleaf. unfold ensure, Update. resolve_with Hkb.
  destruct (CreateBucketIfNotExists_ok db [kind cm] (key cm))
    as [[err E]|(tx & ib & m & E & _ & Hm & Htx & Hib)].
  - exfalso. revert E. unfold Bucket_CreateBucketIfNotExists.
    rewrite decide_False by done. rewrite Hkb.
    destruct (kb !! key cm) as [[v|m]|] eqn:Ek; try done. by destruct (Hleaf v).
  - rewrite E. cbn [fst snd app] in *. eauto.
Qed.

(** X5. [ensure] on an existing resource type with a usable key succeeds,
    and [exists] answers true afterwards. *)
Theorem ensure_then_exists cm db kb :
  bucket_at [kind cm] db = Some kb →
  key cm ≠ "" →
  (∀ v, kb !! key cm ≠ Some (Leaf v)) →
  (ensure cm db).2 = None ∧ exists_ cm (ensure cm db).1 = true.
Proof.
  intros Hkb Hkey Hleaf.
  destruct (ensure_creates cm db kb Hkb Hkey Hleaf) as (db' & -> & Hib).
  split; [done|]. by apply exists_spec.
Qed.

(** X6. [ensure] on an instance that is already there changes nothing: what
    the instance holds is kept. *)
Theorem ensure_keeps_instance cm db ib :
  bucket_at [kind cm; key cm] db = Some ib →
  key cm ≠ "" →
  ensure cm db = (db, None).
Proof.
  intros Hib Hkey.
  destruct (proj1 (bucket_at_snoc [kind cm] _ _ _) Hib) as (kb & Hkb & Ek).
  unfold ensure, Update. resolve_with Hkb.
  by rewrite (CreateBucketIfNotExists_present _ _ (key cm) _ _ Hkey Hkb Ek).
Qed.

(** X7. [save] returns a comment exactly when it returns no error, and a
    failed [save] leaves the store as it was -- also when the comments
    container had been created before the failure. *)
Theorem comment_save_failure_is_clean cm co db :
  ((save cm co db).2 = None ↔ is_Some (save cm co db).1.2) ∧
  ((save cm co db).2 ≠ None → (save cm co db).1.1 = db).
Proof.
  assert (∀ e : error, (Some e = None ↔ is_Some (None : option comment)))
    as Hfail by (intros e; split; [done|by intros []]).
  destruct co as [c|].
  - destruct (comment_save_cases cm c db)
      as [[err ->]|(ib & data & tx & cb & _ & _ & _ & _ & _ & _ & ->)];
      cbn [fst snd]; split; auto; try done.
  - cbn [save fst snd]. split; auto.
Qed.

(** X8. In a store of the service, [save] of a comment without an
    identifier into an existing instance fails with bolt's key-required
    error and changes nothing: no comments container is left behind. *)
Theorem save_needs_identifier cm c db ib data :
  reachable db →
  bucket_at [kind cm; key cm] db = Some ib →
  ID c = "" →
  json_Marshal c = inr data →
  save cm (Some c) db = (db, None, Some ErrKeyRequired).
Proof.
  intros Hr Hib Hid Hdata.
  pose proof (reachable_layout _ Hr) as Hl.
  destruct (resolve_instance _ _ _ Hib) as [kb Hkb].
  unfold save, Update. resolve_with Hkb. resolve_with Hib.
  destruct (CreateBucketIfNotExists_ok db [kind cm; key cm] commentsKey)
    as [[err E]|(tx & cb & m & E & _ & Hm & Htx & Hcb)].
  - exfalso. revert E. unfold Bucket_CreateBucketIfNotExists.
    rewrite decide_False by done. rewrite Hib.
    destruct (ib !! commentsKey) as [[v|m]|] eqn:Ec; try done.
    by destruct (layout_comments_key cm db ib v).
  - rewrite E. cbn [app]; cbv beta iota. rewrite Hdata.
    unfold Bucket_Put. by rewrite decide_True.
Qed.

(** X9. Saving the same comment a second time gives the same answer and
    leaves the store of the first save. *)
Theorem save_twice cm c db :
  save cm (Some c) (save cm (Some c) db).1.1 =
    ((save cm (Some c) db).1.1, (save cm (Some c) db).1.2, (save cm (Some c) db).2).
Proof.
  destruct (comment_save_cases cm c db)
    as [[err E]|(ib & data & tx & cb & Hib & Hne & Hd & Htx & Hcb & Hleaf & E)].
  - rewrite E. cbn [fst snd]. by rewrite E.
  - rewrite E. cbn [fst snd].
    set (put := λ m : bucket, <[ID c := Leaf data]> m).
    assert (bucket_at [kind cm; key cm; commentsKey]
              (bucket_alter put [kind cm; key cm; commentsKey] tx) = Some (put cb))
      as Hcb1 by by apply bucket_at_alter.
    destruct (resolve_comments _ _ _ Hcb1) as (kb1 & ib1 & Hkb1 & Hib1 & Hc1).
    unfold save, Update. resolve_with Hkb1. resolve_with Hib1.
    rewrite (CreateBucketIfNotExists_present _ _ commentsKey _ _ ltac:(done) Hib1 Hc1).
    cbn [app]; cbv beta iota. rewrite Hd.
    rewrite (Bucket_Put_ok _ _ _ _ _ Hne Hcb1).
    + rewrite bucket_alter_compose.
      rewrite (bucket_alter_ext _ put); [done|].
      intros m. unfold put. simpl. apply insert_insert_eq.
    + intros m'. unfold put. by rewrite lookup_insert_eq.
Qed.

End comment_gates.

(* ===================================================================== *)
(** ** More on the comment service: what a write leaves alone *)
(* ===================================================================== *)

Section comment_frames.
Import comment.
Context `{!JSON comment}.
Implicit Types (db : bucket) (cm : commentable) (c : comment).

Lemma node_at_snoc b k (tx : bucket) :
  node_at (b ++ [k]) (Nested tx) = bucket_at b tx ≫= (.!! k).
Proof.
  revert tx. induction b as [|k0 b IH]; intros tx; simpl.
  - by destruct (tx !! k).
  - destruct (tx !! k0) as [[v|m0]|]; simpl; [by destruct b|apply IH|done].
Qed.

(** A write under one key of the bucket at [b] neither makes nor
    unmakes a bucket at a handle that is no longer than [b]. *)
Lemma bucket_at_alter_short f (b : path) k (tx m : bucket) (p : path) :
  bucket_at b tx = Some m →
  (∀ m' k', k' ≠ k → f m' !! k' = m' !! k') →
  (length p ≤ length b)%nat →
  is_Some (bucket_at p (bucket_alter f b tx)) ↔ is_Some (bucket_at p tx).
Proof.
  intros Hb Hf Hlen.
  destruct (decide (p `prefix_of` b)) as [Hpre|Hpre].
  - destruct (bucket_at_alter_prefix f b tx m p Hb Hpre). tauto.
  - rewrite (bucket_at_alter_apart f b k tx m p); try done.
    + intros [l Hl]. apply Hpre.
      destruct l as [|x l _] using rev_ind.
      * rewrite app_nil_r in Hl. subst p. rewrite length_app in Hlen.
        simpl in Hlen. lia.
      * rewrite app_assoc in Hl. apply app_inj_tail in Hl as [-> _]. by exists l.
    + intros Hlong. apply prefix_length in Hlong.
      rewrite length_app in Hlong. simpl in Hlong. lia.
Qed.

(** What [get] looks at: whether the two containers are there, and the
    entry under the identifier. *)
Lemma comment_get_spec cm cKey db :
  get cm cKey db =
    match bucket_at [kind cm] db with
    | None => (None, Some (Errorf (commentableTypeNotFoundFmt (kind cm))))
    | Some _ =>
    match bucket_at [kind cm; key cm] db with
    | None => (None, Some (Errorf (commentableNotFoundFmt (kind cm) (key cm))))
    | Some _ =>
    match node_at [kind cm; key cm; commentsKey; cKey] (Nested db) with
    | Some (Leaf cmm) =>
        let '(c, err) := json_Unmarshal cmm comment_zero in (Some c, err)
    | _ => (None, Some (Errorf (commentNotFoundFmt cKey (kind cm) (key cm))))
    end end end.
Proof.
  unfold get, View.
  destruct (bucket_at [kind cm] db) as [kb|] eqn:Hkb; resolve_with Hkb; [|done].
  destruct (bucket_at [kind cm; key cm] db) as [ib|] eqn:Hib;
    resolve_with Hib; [|done].
  pose proof (node_at_snoc [kind cm; key cm; commentsKey] cKey db) as Hn.
  cbn [app] in Hn. rewrite Hn. clear Hn.
  destruct (bucket_at [kind cm; key cm; commentsKey] db) as [cb|] eqn:Hcb;
    resolve_with Hcb; [|done].
  rewrite (Bucket_Get_at _ _ _ _ Hcb). simpl.
  by destruct (cb !! cKey) as [[]|].
Qed.

Lemma comment_get_observes cm cKey db db' :
  (is_Some (bucket_at [kind cm] db') ↔ is_Some (bucket_at [kind cm] db)) →
  (is_Some (bucket_at [kind cm; key cm] db') ↔
   is_Some (bucket_at [kind cm; key cm] db)) →
  node_at [kind cm; key cm; commentsKey; cKey] (Nested db') =
    node_at [kind cm; key cm; commentsKey; cKey] (Nested db) →
  get cm cKey db' = get cm cKey db.
Proof.
  intros H1 H2 H3. rewrite !comment_get_spec, H3.
  destruct (bucket_at [kind cm] db) as [?|], (bucket_at [kind cm] db') as [?|];
    try done; try (by apply is_Some_None in H1; [|tauto]);
    try (by exfalso; eapply (is_Some_None (A:=bucket)); apply H1; eauto).
  destruct (bucket_at [kind cm; key cm] db) as [?|],
           (bucket_at [kind cm; key cm] db') as [?|];
    try done;
    by exfalso; eapply (is_Some_None (A:=bucket)); apply H2; eauto.
Qed.

(** What [list] looks at: whether the two containers are there, and the
    comments container. *)
Lemma comment_list_observes cm db db' :
  (is_Some (bucket_at [kind cm] db') ↔ is_Some (bucket_at [kind cm] db)) →
  (is_Some (bucket_at [kind cm; key cm] db') ↔
   is_Some (bucket_at [kind cm; key cm] db)) →
  bucket_at [kind cm; key cm; commentsKey] db' =
    bucket_at [kind cm; key cm; commentsKey] db →
  list cm db' = list cm db.
Proof.
  intros H1 H2 H3. unfold list, View, Bucket_ForEach, Bucket_entries.
  rewrite !Tx_Bucket_spec.
  destruct (bucket_at [kind cm] db) as [?|], (bucket_at [kind cm] db') as [?|];
    try done;
    try (by exfalso; eapply (is_Some_None (A:=bucket)); apply H1; eauto).
  cbn [fmap option_fmap option_map]; cbv beta iota.
  rewrite !Bucket_Bucket_spec. cbn [app].
  destruct (bucket_at [kind cm; key cm] db) as [?|],
           (bucket_at [kind cm; key cm] db') as [?|];
    try done;
    try (by exfalso; eapply (is_Some_None (A:=bucket)); apply H2; eauto).
  cbn [fmap option_fmap option_map]; cbv beta iota.
  rewrite !Bucket_Bucket_spec. cbn [app]. rewrite H3.
  destruct (bucket_at [kind cm; key cm; commentsKey] db) as [cb|] eqn:Hcb;
    cbn [fmap option_fmap option_map]; cbv beta iota; [|done].
  by rewrite H3, Hcb.
Qed.

(** What a successful [save] writes: the entry, after the comments
    container where the instance had none. *)
Lemma comment_save_effect cm c db :
  (save cm (Some c) db).1.1 = db ∨
  ∃ ib data tx cb,
    bucket_at [kind cm; key cm] db = Some ib ∧
    (tx = db ∨
     (tx = bucket_alter (λ m, <[commentsKey := Nested ∅]> m) [kind cm; key cm] db ∧
      ib !! commentsKey = None)) ∧
    bucket_at [kind cm; key cm; commentsKey] tx = Some cb ∧
    (∀ m, cb !! ID c ≠ Some (Nested m)) ∧
    json_Marshal c = inr data ∧
    (save cm (Some c) db).1.1 =
      bucket_alter (λ m, <[ID c := Leaf data]> m) [kind cm; key cm; commentsKey] tx.
Proof.
  unfold save, Update.
  destruct (bucket_at [kind cm] db) as [kb|] eqn:Hkb;
    resolve_with Hkb; [|by left].
  destruct (bucket_at [kind cm; key cm] db) as [ib|] eqn:Hib;
    resolve_with Hib; [|by left].
  assert ((∃ tx cb,
    (Bucket_CreateBucketIfNotExists db [kind cm; key cm] commentsKey
       = inr (tx, [kind cm; key cm; commentsKey])) ∧
    (tx = db ∨
     (tx = bucket_alter (λ m, <[commentsKey := Nested ∅]> m) [kind cm; key cm] db ∧
      ib !! commentsKey = None)) ∧
    bucket_at [kind cm; key cm; commentsKey] tx = Some cb) ∨
    (∃ err, Bucket_CreateBucketIfNotExists db [kind cm; key cm] commentsKey
              = inl err)) as [(tx & cb & E & Htx & Hcb)|[err E]].
  { destruct (CreateBucketIfNotExists_cases db [kind cm; key cm] commentsKey)
      as [?|(m & Hm & _ & [(cb & Hk & E)|[Hk E]])]; [by right|left..];
      rewrite Hib in Hm; injection Hm as <-.
    - exists db, cb. repeat split; eauto.
      apply (bucket_at_snoc [kind cm; key cm]). eauto.
    - eexists _, ∅. repeat split; eauto.
      apply (bucket_at_snoc [kind cm; key cm]). eexists. split.
      + by apply bucket_at_alter.
      + apply lookup_insert_eq. }
  2: { rewrite E. by left. }
  rewrite E. cbv beta iota.
  destruct (json_Marshal c) as [err|data] eqn:Hdata; [by left|].
  destruct (Bucket_Put_cases tx [kind cm; key cm; commentsKey] (ID c) data)
    as [[err E2]|(cb' & Hcb' & Hne & Hleaf & E2)];
    rewrite E2; cbv beta iota; [by left|right].
  rewrite Hcb in Hcb'. injection Hcb' as <-.
  exists ib, data, tx, cb. by repeat split.
Qed.

Lemma save_keeps_get cm c db cm' cKey :
  (kind cm', key cm', cKey) ≠ (kind cm, key cm, ID c) →
  get cm' cKey (save cm (Some c) db).1.1 = get cm' cKey db.
Proof.
  intros Hother.
  destruct (comment_save_effect cm c db)
    as [->|(ib & data & tx & cb & Hib & Htx & Hcb & Hleaf & Hdata & ->)]; [done|].
  assert (get cm' cKey tx = get cm' cKey db) as <-.
  { destruct Htx as [->|[-> Hnone]]; [done|].
    assert (∀ (m' : bucket) k', k' ≠ commentsKey →
              <[commentsKey := Nested ∅]> m' !! k' = m' !! k') as Hf
      by (intros; by apply lookup_insert_ne).
    apply comment_get_observes.
    - apply (bucket_at_alter_short _ _ commentsKey _ ib); simpl; try done; lia.
    - apply (bucket_at_alter_short _ _ commentsKey _ ib); simpl; try done; lia.
    - apply (node_at_alter_frame _ [kind cm; key cm] commentsKey _ ib); try done.
      + intros q Hq Hp. rewrite lookup_insert_eq, Hnone. simpl.
        destruct q as [|k2 q]; [done|]. simpl. by rewrite lookup_empty.
      + intros [l Hl]. simplify_eq/=; apply Hother; congruence. }
  assert (∀ (m' : bucket) k', k' ≠ ID c →
            <[ID c := Leaf data]> m' !! k' = m' !! k') as Hf
    by (intros; by apply lookup_insert_ne).
  apply comment_get_observes.
  - apply (bucket_at_alter_short _ _ (ID c) _ cb); simpl; try done; lia.
  - apply (bucket_at_alter_short _ _ (ID c) _ cb); simpl; try done; lia.
  - apply (node_at_alter_frame _ [kind cm; key cm; commentsKey] (ID c) _ cb);
      try done.
    + intros q Hq Hp. simplify_eq/=; apply Hother; congruence.
    + intros [l Hl]. simplify_eq/=; apply Hother; congruence.
Qed.

Lemma save_keeps_list cm c db cm' :
  (kind cm', key cm') ≠ (kind cm, key cm) →
  list cm' (save cm (Some c) db).1.1 = list cm' db.
Proof.
  intros Hother.
  destruct (comment_save_effect cm c db)
    as [->|(ib & data & tx & cb & Hib & Htx & Hcb & Hleaf & Hdata & ->)]; [done|].
  assert (list cm' tx = list cm' db) as <-.
  { destruct Htx as [->|[-> Hnone]]; [done|].
    assert (∀ (m' : bucket) k', k' ≠ commentsKey →
              <[commentsKey := Nested ∅]> m' !! k' = m' !! k') as Hf
      by (intros; by apply lookup_insert_ne).
    apply comment_list_observes.
    - apply (bucket_at_alter_short _ _ commentsKey _ ib); simpl; try done; lia.
    - apply (bucket_at_alter_short _ _ commentsKey _ ib); simpl; try done; lia.
    - apply (bucket_at_alter_apart _ [kind cm; key cm] commentsKey _ ib); try done.
      + intros [l Hl]. simpl in Hl. simplify_eq; apply Hother; congruence.
      + intros [l Hl]. simpl in Hl. simplify_eq; apply Hother; congruence. }
  assert (∀ (m' : bucket) k', k' ≠ ID c →
            <[ID c := Leaf data]> m' !! k' = m' !! k') as Hf
    by (intros; by apply lookup_insert_ne).
  apply comment_list_observes.
  - apply (bucket_at_alter_short _ _ (ID c) _ cb); simpl; try done; lia.
  - apply (bucket_at_alter_short _ _ (ID c) _ cb); simpl; try done; lia.
  - apply (bucket_at_alter_apart _ [kind cm; key cm; commentsKey] (ID c) _ cb);
      try done.
    + intros [l Hl]. simpl in Hl. simplify_eq; apply Hother; congruence.
    + intros [l Hl]. simpl in Hl. simplify_eq; apply Hother; congruence.
Qed.

Lemma remove_keeps_get cm cKey db cm' cKey' :
  (kind cm', key cm', cKey') ≠ (kind cm, key cm, cKey) →
  get cm' cKey' (remove cm cKey db).1 = get cm' cKey' db.
Proof.
  intros Hother.
  assert (∀ (m' : bucket) k', k' ≠ cKey → delete cKey m' !! k' = m' !! k') as Hf
    by (intros; by apply lookup_delete_ne).
  destruct (remove_cases cm cKey db) as [[err ->]|(cb & Hcb & Hleaf & ->)];
    cbn [fst]; [done|].
  apply comment_get_observes.
  - apply (bucket_at_alter_short _ _ cKey _ cb); simpl; try done; lia.
  - apply (bucket_at_alter_short _ _ cKey _ cb); simpl; try done; lia.
  - apply (node_at_alter_frame _ [kind cm; key cm; commentsKey] cKey _ cb);
      try done.
    + intros q Hq Hp. simplify_eq/=; apply Hother; congruence.
    + intros [l Hl]. simplify_eq/=; apply Hother; congruence.
Qed.

Lemma remove_keeps_list cm cKey db cm' :
  (kind cm', key cm') ≠ (kind cm, key cm) →
  list cm' (remove cm cKey db).1 = list cm' db.
Proof.
  intros Hother.
  assert (∀ (m' : bucket) k', k' ≠ cKey → delete cKey m' !! k' = m' !! k') as Hf
    by (intros; by apply lookup_delete_ne).
  destruct (remove_cases cm cKey db) as [[err ->]|(cb & Hcb & Hleaf & ->)];
    cbn [fst]; [done|].
  apply comment_list_observes.
  - apply (bucket_at_alter_short _ _ cKey _ cb); simpl; try done; lia.
  - apply (bucket_at_alter_short _ _ cKey _ cb); simpl; try done; lia.
  - apply (bucket_at_alter_apart _ [kind cm; key cm; commentsKey] cKey _ cb);
      try done.
    + intros [l Hl]. simplify_eq/=; apply Hother; congruence.
    + intros [l Hl]. simplify_eq/=; apply Hother; congruence.
Qed.

(** X10. A write by one commentable is invisible to the reads of every other
    comment: [save] and [remove] of one identifier leave [get] of every
    other identifier -- of the same instance, of another instance, of
    another resource type -- and [list] of every other instance returning
    what they returned before. *)
Theorem writes_keep_other_comments cm c cKey db cm' cKey' :
  ((kind cm', key cm', cKey') ≠ (kind cm, key cm, ID c) →
   get cm' cKey' (save cm (Some c) db).1.1 = get cm' cKey' db) ∧
  ((kind cm', key cm', cKey') ≠ (kind cm, key cm, cKey) →
   get cm' cKey' (remove cm cKey db).1 = get cm' cKey' db) ∧
  ((kind cm', key cm') ≠ (kind cm, key cm) →
   list cm' (save cm (Some c) db).1.1 = list cm' db ∧
   list cm' (remove cm cKey db).1 = list cm' db).
Proof.
  split; [apply save_keeps_get|]. split; [apply remove_keeps_get|].
  intros Hother. split; [by apply save_keeps_list|by apply remove_keeps_list].
Qed.

(** X11. [remove] of an identifier the comments container does not hold
    returns no error and changes nothing, when the container holds no
    nested bucket, as the comments containers of the service do: bolt's
    [Delete] refuses with the incompatible-value error when its cursor
    lands on a nested bucket, whatever the key of that bucket. *)
Theorem remove_of_absent_comment cm cKey db cb :
  bucket_at [kind cm; key cm; commentsKey] db = Some cb →
  (∀ k m, cb !! k ≠ Some (Nested m)) →
  cb !! cKey = None →
  remove cm cKey db = (db, None).
Proof.
  intros Hcb Hplain Hnone. rewrite (remove_deletes _ _ _ cb Hcb); [|by right].
  rewrite (bucket_alter_id _ _ _ cb); try done. by apply delete_id.
Qed.

End comment_frames.

(* ===================================================================== *)
(** ** More on the comment service: [list] *)
(* ===================================================================== *)

Section comment_listing.
Import comment.
Context `{!JSON comment}.
Implicit Types (db : bucket) (cm : commentable) (c : comment).

(** A write keeps the store decodable when what it brings into a
    comments container is a value that decodes. *)
Lemma decodable_alter (P : string → node → Prop) f (b : path) db (m : bucket) :
  decodable db →
  bucket_at b db = Some m →
  (length b < 4)%nat →
  (∀ (m0 : bucket) k' n', f m0 !! k' = Some n' → m0 !! k' = Some n' ∨ P k' n') →
  (∀ k' n' q n kind key id,
     P k' n' → node_at q n' = Some n →
     b ++ k' :: q = [kind; key; commentsKey; id] →
     ∃ data, n = Leaf data ∧ (json_Unmarshal data comment_zero).2 = None) →
  decodable (bucket_alter f b db).
Proof.
  intros Henc Hb Hlen Hf Hnew kind key cb Hcb id n Hn.
  assert (node_at ([kind; key; commentsKey] ++ [id])
            (Nested (bucket_alter f b db)) = Some n) as Hnode
    by (by rewrite node_at_snoc, Hcb).
  destruct (node_at_alter_inv P _ _ _ _ _ _ Hb Hf Hnode)
    as [[Hpre _]|[(k' & n' & q & Hp & HP & Hq)|Hold]].
  - apply prefix_length in Hpre. simpl in Hpre. lia.
  - by apply (Hnew k' n' q n kind key id).
  - rewrite node_at_snoc in Hold.
    destruct (bucket_at [kind; key; commentsKey] db) as [cb0|] eqn:Hcb0; [|done].
    by apply (Henc kind key cb0 Hcb0 id n).
Qed.

Lemma setup_loop_decodable cmts tx :
  decodable tx → decodable (setup_loop cmts tx).1.
Proof.
  revert tx. induction cmts as [|b rest IH]; intros tx Hl; simpl; [done|].
  destruct (CreateBucketIfNotExists_cases tx [] b)
    as [[err E]|(m & Hm & Hb & [(m' & Hk & E)|[Hk E]])];
    unfold Tx_CreateBucketIfNotExists; rewrite E; simpl; [done|by apply IH|].
  apply IH.
  change (decodable (bucket_alter (λ m, <[b := Nested ∅]> m) [] tx)).
  apply (decodable_alter (λ k' n', k' = b ∧ n' = Nested ∅) _ [] tx m);
    try done; [simpl; lia|intros m0 k' n'; apply insert_brings|].
  intros k' n' q n kind key id [-> ->] Hq Hp.
  apply node_at_empty in Hq as [-> ->]. simplify_eq/=.
Qed.

(** With an [encoding/json] that decodes what it encodes, every entry
    of every comments container of every store of the service decodes. *)
Lemma reachable_decodable db : json_decodes → reachable db → decodable db.
Proof.
  intros Hjson. induction 1 as [|o db Hr IH].
  { intros kind key cb Hcb. simpl in Hcb. by rewrite lookup_empty in Hcb. }
  assert (∀ cm co, decodable (save cm co db).1.1) as Hsave.
  { intros cm [c|]; [|done].
    destruct (comment_save_effect cm c db)
      as [->|(ib & data & tx & cb & Hib & Htx & Hcb & Hleaf & Hdata & ->)];
      [done|].
    assert (decodable tx) as Htxe.
    { destruct Htx as [->|[-> Hnone]]; [done|].
      apply (decodable_alter (λ k' n', k' = commentsKey ∧ n' = Nested ∅)
               _ [kind cm; key cm] db ib);
        try done; [simpl; lia|intros m0 k' n'; apply insert_brings|].
      intros k' n' q n kind key id [-> ->] Hq Hp.
      apply node_at_empty in Hq as [-> ->]. simplify_eq/=. }
    apply (decodable_alter (λ k' n', k' = ID c ∧ n' = Leaf data)
             _ [kind cm; key cm; commentsKey] tx cb);
      try done; [simpl; lia|intros m0 k' n'; apply insert_brings|].
    intros k' n' q n kind key id [-> ->] Hq Hp.
    apply node_at_leaf in Hq as [-> ->]. simplify_eq/=.
    eexists. split; [done|]. by apply (Hjson c). }
  destruct o as [cmts|cm|guid cm co|cm co|cm cKey|cm|cm cKey]; simpl; try done.
  - unfold setup, Update.
    pose proof (setup_loop_decodable cmts db IH) as Hl.
    by destruct (setup_loop cmts db) as [tx [err|]].
  - unfold ensure, Update.
    destruct (bucket_at [kind cm] db) as [kb|] eqn:Hkb; resolve_with Hkb; [|done].
    destruct (CreateBucketIfNotExists_cases db [kind cm] (key cm))
      as [[err E]|(m & Hm & Hb & [(m' & Hk & E)|[Hk E]])]; rewrite E; try done.
    cbn [fst].
    apply (decodable_alter (λ k' n', k' = key cm ∧ n' = Nested ∅) _ [kind cm] db m);
      try done; [simpl; lia|intros m0 k' n'; apply insert_brings|].
    intros k' n' q n kind key id [-> ->] Hq Hp.
    apply node_at_empty in Hq as [-> ->]. simplify_eq/=.
  - destruct co as [c|]; [apply Hsave|done].
  - destruct (remove_cases cm cKey db) as [[err ->]|(cb & Hcb & Hleaf & ->)];
      cbn [fst]; [done|].
    apply (decodable_alter (λ _ _, False) _ [kind cm; key cm; commentsKey] db cb);
      try done; [simpl; lia|intros m0 k' n'; apply delete_brings].
Qed.

(** [ForEach] over entries that all decode collects the decoded
    comments, in order. *)
Lemma ForEach_loop_decodes (kvs : Datatypes.list (string * string))
    (acc : Datatypes.list comment) :
  (∀ kv, kv ∈ kvs → (json_Unmarshal kv.2 comment_zero).2 = None) →
  ForEach_loop
    (λ (_ data : string) (comments : Datatypes.list comment),
       match json_Unmarshal data comment_zero with
       | (_, Some err) => (comments, Some err)
       | (c, None) => (comments ++ [c], None)
       end) kvs acc
  = (acc ++ ((λ kv, (json_Unmarshal kv.2 comment_zero).1) <$> kvs), None).
Proof.
  revert acc. induction kvs as [|[k v] kvs IH]; intros acc Hok; simpl.
  - by rewrite app_nil_r.
  - pose proof (Hok (k, v) ltac:(left)) as Hv. simpl in Hv.
    destruct (json_Unmarshal v comment_zero) as [c [err|]]; [done|].
    rewrite IH; [by rewrite <- app_assoc|].
    intros kv Hkv. apply Hok. by right.
Qed.

(** [list] over a well-encoded comments container: the comments it
    returns are the ones [get] returns, and their identifiers are the
    keys of the container in the order of the cursor. *)
Lemma list_decodes cm db cb :
  bucket_at [kind cm; key cm; commentsKey] db = Some cb →
  well_encoded cb →
  ∃ cs,
    list cm db = (Some cs, None) ∧
    (∀ c, c ∈ cs ↔ get cm (ID c) db = (Some c, None)) ∧
    ID <$> cs = (merge_sort key_le (map_to_list cb)).*1.
Proof.
  intros Hcb Henc.
  destruct (resolve_comments _ _ _ Hcb) as (kb & ib & Hkb & Hib & Hc).
  set (sorted := merge_sort key_le (map_to_list cb)).
  set (value := λ n, match n with Leaf v => v | Nested _ => "" end).
  set (decode := λ kv : string * node,
         (json_Unmarshal (value kv.2) comment_zero).1).
  assert (∀ kv, kv ∈ sorted ↔ cb !! kv.1 = Some kv.2) as Hin.
  { intros [k n]. unfold sorted. rewrite merge_sort_Permutation.
    apply elem_of_map_to_list. }
  assert (∀ kv, kv ∈ sorted →
            json_Unmarshal (value kv.2) comment_zero = (decode kv, None) ∧
            ID (decode kv) = kv.1) as Hdec.
  { intros [k n] Hkv. apply Hin in Hkv. simpl in Hkv.
    destruct (Henc k n Hkv) as (data & c & -> & Hback & Hid).
    unfold decode. simpl. by rewrite Hback. }
  exists (decode <$> sorted). repeat split.
  - unfold list, View. resolve_with Hkb. resolve_with Hib. resolve_with Hcb.
    unfold Bucket_ForEach, Bucket_entries. rewrite Hcb.
    rewrite ForEach_loop_decodes.
    + simpl. by rewrite <- list_fmap_compose.
    + intros kv Hkv. apply list_elem_of_fmap in Hkv as (kv0 & -> & Hkv0).
      destruct (Hdec kv0 Hkv0) as [Hback _]. cbn [snd].
      change (match kv0.2 with Leaf v => v | Nested _ => "" end)
        with (value kv0.2).
      by rewrite Hback.
  - intros Hc0. apply list_elem_of_fmap in Hc0 as (kv & -> & Hkv).
    destruct (Hdec kv Hkv) as [Hback Hid].
    rewrite (get_resolved _ _ _ _ Hcb), Hid.
    apply Hin in Hkv. rewrite Hkv.
    destruct (Henc _ _ Hkv) as (data & c0 & Hn & _ & _).
    rewrite Hn in *. simpl in Hback. by rewrite Hback.
  - rewrite (get_resolved _ _ _ _ Hcb).
    destruct (cb !! ID c) as [[cmm|m]|] eqn:E; try done.
    intros Hget. apply list_elem_of_fmap. exists (ID c, Leaf cmm). split.
    + unfold decode. simpl.
      by destruct (json_Unmarshal cmm comment_zero) as [c' err']; simplify_eq/=.
    + by apply Hin.
  - rewrite <- list_fmap_compose. apply list_fmap_ext.
    intros i kv Hkv. simpl. apply (Hdec kv). by eapply list_elem_of_lookup_2.
Qed.

(** X12. For an instance whose comments container is well encoded, [list]
    returns without error, it holds a comment exactly when [get] of the
    comment's identifier returns that comment, it has one comment per
    entry, no identifier twice, and the identifiers come in byte order. *)
Theorem list_agrees_with_get cm db cb :
  bucket_at [kind cm; key cm; commentsKey] db = Some cb →
  well_encoded cb →
  ∃ cs,
    list cm db = (Some cs, None) ∧
    (∀ c, c ∈ cs ↔ get cm (ID c) db = (Some c, None)) ∧
    length cs = size cb ∧
    NoDup (ID <$> cs) ∧
    Sorted (λ a b, String.leb a b = true) (ID <$> cs).
Proof.
  intros Hcb Henc.
  destruct (list_decodes cm db cb Hcb Henc) as (cs & Hlist & Hget & Hids).
  exists cs. repeat split; try done; try by apply Hget.
  - rewrite <- (length_fmap ID), Hids, length_fmap.
    rewrite merge_sort_Permutation. apply length_map_to_list.
  - rewrite Hids, merge_sort_Permutation. apply NoDup_fst_map_to_list.
  - rewrite Hids. apply (Sorted_fmap _ key_le).
    + by intros x y Hxy.
    + apply Sorted_merge_sort. intros x y. apply String.leb_total.
Qed.

(** [list] over a comments container whose entries decode: it returns
    the comments [get] returns for the keys of the container. *)
Lemma list_reads cm db cb :
  bucket_at [kind cm; key cm; commentsKey] db = Some cb →
  well_decoded cb →
  ∃ cs,
    list cm db = (Some cs, None) ∧
    ∀ c, c ∈ cs ↔ ∃ cKey, get cm cKey db = (Some c, None).
Proof.
  intros Hcb Hdec.
  destruct (resolve_comments _ _ _ Hcb) as (kb & ib & Hkb & Hib & Hc).
  set (sorted := merge_sort key_le (map_to_list cb)).
  set (value := λ n, match n with Leaf v => v | Nested _ => "" end).
  set (decode := λ kv : string * node,
         (json_Unmarshal (value kv.2) comment_zero).1).
  assert (∀ kv, kv ∈ sorted ↔ cb !! kv.1 = Some kv.2) as Hin.
  { intros [k n]. unfold sorted. rewrite merge_sort_Permutation.
    apply elem_of_map_to_list. }
  assert (∀ kv, kv ∈ sorted →
            json_Unmarshal (value kv.2) comment_zero = (decode kv, None))
    as Hback.
  { intros [k n] Hkv. apply Hin in Hkv. simpl in Hkv.
    destruct (Hdec k n Hkv) as (data & -> & Hnone).
    unfold decode. simpl in *.
    by destruct (json_Unmarshal data comment_zero) as [c err]; simplify_eq/=. }
  exists (decode <$> sorted). split.
  - unfold list, View. resolve_with Hkb. resolve_with Hib. resolve_with Hcb.
    unfold Bucket_ForEach, Bucket_entries. rewrite Hcb.
    rewrite ForEach_loop_decodes.
    + simpl. by rewrite <- list_fmap_compose.
    + intros kv Hkv. apply list_elem_of_fmap in Hkv as (kv0 & -> & Hkv0).
      cbn [snd].
      change (match kv0.2 with Leaf v => v | Nested _ => "" end)
        with (value kv0.2).
      by rewrite (Hback kv0 Hkv0).
  - intros c. split.
    + intros Hc0. apply list_elem_of_fmap in Hc0 as (kv & -> & Hkv).
      exists kv.1. rewrite (get_resolved _ _ _ _ Hcb).
      pose proof (Hback kv Hkv) as Hb. apply Hin in Hkv. rewrite Hkv.
      destruct (Hdec _ _ Hkv) as (data & Hn & _).
      rewrite Hn in *. simpl in Hb. by rewrite Hb.
    + intros [cKey Hget]. rewrite (get_resolved _ _ _ _ Hcb) in Hget.
      destruct (cb !! cKey) as [[cmm|m]|] eqn:E; try done.
      apply list_elem_of_fmap. exists (cKey, Leaf cmm). split.
      * unfold decode. simpl.
        by destruct (json_Unmarshal cmm comment_zero) as [c' err'];
          simplify_eq/=.
      * by apply Hin.
Qed.

End comment_listing.

(* ===================================================================== *)
(** ** More on the rating service *)
(* ===================================================================== *)

Section rating_arithmetic.
Import rating.
Implicit Types (r rt stored : rating).

Lemma int_wrap_add_l x y : int_wrap (int_wrap x + y) = int_wrap (x + y).
Proof.
  unfold int_wrap. f_equal.
  replace ((x + 2 ^ 63) mod 2 ^ 64 - 2 ^ 63 + y + 2 ^ 63)
    with ((x + 2 ^ 63) mod 2 ^ 64 + y) by lia.
  rewrite Zplus_mod_idemp_l. f_equal. lia.
Qed.

Lemma int_add_comm a b : int_add a b = int_add b a.
Proof. unfold int_add. by rewrite Z.add_comm. Qed.

Lemma int_add_assoc a b c : int_add (int_add a b) c = int_add a (int_add b c).
Proof.
  unfold int_add. rewrite int_wrap_add_l.
  rewrite (Z.add_comm a (int_wrap (b + c))), int_wrap_add_l.
  f_equal. lia.
Qed.

(** X13. [add] is the addition of 64-bit integers, counter by counter: it is
    commutative and associative, and adding the zero rating changes no
    rating whose counters fit an [int]. *)
Theorem add_is_modular r rt rt' :
  add r rt = add rt r ∧
  add (add r rt) rt' = add r (add rt rt') ∧
  (ints r → add r rating_zero = r).
Proof.
  repeat split.
  - unfold add. f_equal; apply int_add_comm.
  - unfold add. simpl. f_equal; apply int_add_assoc.
  - intros (H5 & H4 & H3 & H2 & H1). destruct r. unfold add. simpl in *.
    f_equal; rewrite int_add_exact; rewrite ?Z.add_0_r; done.
Qed.

Lemma ensureNotNegative_fixes r :
  nonneg (ensureNotNegative r) ∧ (ensureNotNegative r = r ↔ nonneg r).
Proof.
  destruct r as [a b c d e]. unfold ensureNotNegative, nonneg. simpl.
  destruct (Z.ltb_spec a 0), (Z.ltb_spec b 0), (Z.ltb_spec c 0),
    (Z.ltb_spec d 0), (Z.ltb_spec e 0);
    (split; [lia|split]);
    first [ by intros Heq; try (injection Heq; intros); lia
          | by intros; f_equal; lia ].
Qed.

(** X14. [ensureNotNegative] leaves no negative counter, changes exactly the
    ratings that have one, and applying it twice is applying it once. *)
Theorem ensureNotNegative_floors r :
  nonneg (ensureNotNegative r) ∧
  (ensureNotNegative r = r ↔ nonneg r) ∧
  ensureNotNegative (ensureNotNegative r) = ensureNotNegative r.
Proof.
  destruct (ensureNotNegative_fixes r) as [Hnn Hiff].
  split; [done|]. split; [done|].
  by apply ensureNotNegative_fixes.
Qed.

(** X15. Merging a delta without negative counters into an aggregate without
    negative counters is plain addition as long as no sum overflows: the
    floor changes nothing. *)
Theorem nonnegative_merge_is_sum stored rt :
  nonneg stored → nonneg rt → ints (add_exact stored rt) →
  ensureNotNegative (add stored rt) = add_exact stored rt.
Proof.
  intros (S5 & S4 & S3 & S2 & S1) (D5 & D4 & D3 & D2 & D1) Hints.
  rewrite ensureNotNegative_add, (merge_spec_exact _ _ Hints).
  unfold add_exact. f_equal; lia.
Qed.

End rating_arithmetic.

Section rating_more.
Import rating.
Context `{!JSON rating}.
Implicit Types (db tx : bucket) (r : rateable) (rt stored : rating).

(** X16. Without the container of the resource type [save] and [get] fail
    with the type-not-found message; with the type there and no instance
    [get] fails with the instance-not-found message; with the type there
    and an empty resource key [save] fails with bolt's
    bucket-name-required error. Both failures of [save] leave the store
    as it was. *)
Theorem rating_operations_fail r rt db :
  (bucket_at [kind r] db = None →
     save r rt db =
       (db, None, Some (Errorf ("rateable type, " +:+ kind r +:+ ", not found"))) ∧
     get r db =
       (None, Some (Errorf ("rateable type, " +:+ kind r +:+ ", not found")))) ∧
  (is_Some (bucket_at [kind r] db) → bucket_at [kind r; key r] db = None →
     get r db = (None, Some (Errorf (kind r +:+ " not found with key " +:+ key r)))) ∧
  (is_Some (bucket_at [kind r] db) → key r = "" →
     save r rt db = (db, None, Some ErrBucketNameRequired)).
Proof.
  repeat split.
  - unfold save, Update. by resolve_with H.
  - unfold get, View. by resolve_with H.
  - intros [kb Hkb] Hib. unfold get, View. resolve_with Hkb. by resolve_with Hib.
  - intros [kb Hkb] Hkey. unfold save, Update. resolve_with Hkb.
    unfold Bucket_CreateBucketIfNotExists. by rewrite decide_True.
Qed.

(** X17. A [save] that returns an error leaves the store as it was; a
    [save] that returns none returns a rating without a negative
    counter, whatever the store held. *)
Theorem rating_save_failure_is_clean r rt db :
  ((save r rt db).2 ≠ None → (save r rt db).1.1 = db) ∧
  ((save r rt db).2 = None →
     ∃ new, (save r rt db).1.2 = Some new ∧ nonneg new).
Proof.
  destruct (rating_save_cases r rt db)
    as [(res & err & ->)|(kb & tx & ib & current & data & _ & _ & _ & _ & ->)];
    cbn [fst snd]; split; try done.
  intros _. eexists. split; [done|].
  rewrite ensureNotNegative_add. apply merge_spec_nonneg.
Qed.

(** X18. Whenever [save] succeeds, [get] right after returns the rating
    [save] returned. *)
Theorem rating_save_then_get r rt db :
  json_roundtrip →
  (save r rt db).2 = None →
  get r (save r rt db).1.1 = ((save r rt db).1.2, None).
Proof.
  intros Hjson.
  destruct (rating_save_cases r rt db)
    as [(res & err & ->)|(kb & tx & ib & current & data & _ & _ & Hib & Hd & ->)];
    cbn [fst snd]; [done|intros _].
  rewrite ensureNotNegative_add in *.
  destruct (Hjson (merge_spec current rt)) as (data' & Hm & Hu);
    [apply merge_spec_ints|].
  rewrite Hd in Hm. injection Hm as <-.
  apply (record_read r _ (<[ratingsKey := Leaf data]> ib) data); try done.
  - by apply bucket_at_alter.
  - apply lookup_insert_eq.
Qed.

(** What [get] looks at. *)
Lemma rating_get_spec r db :
  get r db =
    match bucket_at [kind r] db with
    | None => (None, Some (Errorf (rateableTypeNotFoundFmt (kind r))))
    | Some _ =>
    match bucket_at [kind r; key r] db with
    | None => (None, Some (Errorf (rateableNotFoundFmt (kind r) (key r))))
    | Some _ =>
    match node_at [kind r; key r; ratingsKey] (Nested db) with
    | Some (Leaf data) =>
        let '(rt, err) := json_Unmarshal data rating_zero in (Some rt, err)
    | _ => (Some rating_zero, None)
    end end end.
Proof.
  unfold get, View.
  destruct (bucket_at [kind r] db) as [kb|] eqn:Hkb; resolve_with Hkb; [|done].
  destruct (bucket_at [kind r; key r] db) as [ib|] eqn:Hib;
    resolve_with Hib; [|done].
  pose proof (node_at_snoc [kind r; key r] ratingsKey db) as Hn.
  cbn [app] in Hn. rewrite Hn, Hib. clear Hn.
  rewrite (Bucket_Get_at _ _ _ _ Hib). simpl.
  by destruct (ib !! ratingsKey) as [[]|].
Qed.

(** X19. [save] for one rateable leaves what [get] returns for every other
    rateable as it was. *)
Theorem rating_save_keeps_others r rt db r' :
  (kind r', key r') ≠ (kind r, key r) →
  get r' (save r rt db).1.1 = get r' db.
Proof.
  intros Hother.
  destruct (rating_save_cases r rt db)
    as [(res & err & ->)|(kb & tx & ib & current & data & Hkb & Htx & Hib & _ & ->)];
    cbn [fst]; [done|].
  assert (∀ (m' : bucket) k', k' ≠ ratingsKey →
            <[ratingsKey := Leaf data]> m' !! k' = m' !! k') as Hput
    by (intros; by apply lookup_insert_ne).
  assert (∀ (m' : bucket) k', k' ≠ key r →
            <[key r := Nested ∅]> m' !! k' = m' !! k') as Hnew
    by (intros; by apply lookup_insert_ne).
  rewrite !rating_get_spec.
  assert (is_Some (bucket_at [kind r']
            (bucket_alter (λ m, <[ratingsKey := Leaf data]> m) [kind r; key r] tx))
          ↔ is_Some (bucket_at [kind r'] db)) as H1.
  { rewrite (bucket_at_alter_short _ _ ratingsKey _ ib)
      by first [done | simpl; lia].
    destruct Htx as [->| ->]; [done|].
    apply (bucket_at_alter_short _ _ (key r) _ kb); simpl; try done. }
  assert (bucket_at [kind r'; key r']
            (bucket_alter (λ m, <[ratingsKey := Leaf data]> m) [kind r; key r] tx)
          = bucket_at [kind r'; key r'] db) as H2.
  { rewrite (bucket_at_alter_apart _ [kind r; key r] ratingsKey _ ib); try done.
    - destruct Htx as [->| ->]; [done|].
      apply (bucket_at_alter_apart _ [kind r] (key r) _ kb); try done.
      + intros [l Hl]. simpl in Hl. simplify_eq. apply Hother. congruence.
      + intros [l Hl]. simpl in Hl. simplify_eq. apply Hother. congruence.
    - intros [l Hl]. simpl in Hl. simplify_eq. apply Hother. congruence.
    - intros [l Hl]. simpl in Hl. simplify_eq. }
  assert (node_at [kind r'; key r'; ratingsKey]
            (Nested (bucket_alter (λ m, <[ratingsKey := Leaf data]> m)
                       [kind r; key r] tx))
          = node_at [kind r'; key r'; ratingsKey] (Nested db)) as H3.
  { rewrite (node_at_alter_frame _ [kind r; key r] ratingsKey _ ib); try done.
    - destruct Htx as [->| ->]; [done|].
      apply (node_at_alter_frame _ [kind r] (key r) _ kb); try done.
      + intros q Hq Hp. simpl in Hp. simplify_eq. exfalso. apply Hother. congruence.
      + intros [l Hl]. simpl in Hl. simplify_eq.
    - intros q Hq Hp. simpl in Hp. simplify_eq.
    - intros [l Hl]. simpl in Hl. simplify_eq. apply Hother. congruence. }
  rewrite H2, H3.
  destruct (bucket_at [kind r'] db) as [?|],
    (bucket_at [kind r']
       (bucket_alter (λ m, <[ratingsKey := Leaf data]> m) [kind r; key r] tx))
    as [?|]; try done;
    by exfalso; eapply (is_Some_None (A:=bucket)); apply H1; eauto.
Qed.

Lemma rating_layout_alter (P : string → node → Prop) f (b : path) db (m : bucket) :
  layout db →
  bucket_at b db = Some m →
  (∀ (m0 : bucket) k' n', f m0 !! k' = Some n' → m0 !! k' = Some n' ∨ P k' n') →
  (∀ p (m' : bucket), p `prefix_of` b → layout_at p (Nested m')) →
  (∀ k' n' q n, P k' n' → node_at q n' = Some n → layout_at (b ++ k' :: q) n) →
  layout (bucket_alter f b db).
Proof.
  intros Hl Hb Hf Hway Hnew p n Hn.
  destruct (node_at_alter_inv P _ _ _ _ _ _ Hb Hf Hn)
    as [[Hpre [m' ->]]|[(k' & n' & q & -> & HP & Hq)|Hold]]; eauto.
Qed.

Lemma rating_setup_loop_layout cmts tx : layout tx → layout (setup_loop cmts tx).1.
Proof.
  revert tx. induction cmts as [|b rest IH]; intros tx Hl; simpl; [done|].
  destruct (CreateBucketIfNotExists_cases tx [] b)
    as [[err E]|(m & Hm & Hb & [(m' & Hk & E)|[Hk E]])];
    unfold Tx_CreateBucketIfNotExists; rewrite E; simpl; [done|by apply IH|].
  apply IH.
  change (layout (bucket_alter (λ m, <[b := Nested ∅]> m) [] tx)).
  apply (rating_layout_alter (λ k' n', k' = b ∧ n' = Nested ∅) _ [] tx m);
    try done.
  - intros m0 k' n'. apply insert_brings.
  - intros p m' Hpre. by apply prefix_nil_inv in Hpre as ->.
  - intros k' n' q n [-> ->] Hq. apply node_at_empty in Hq as [-> ->].
    simpl. eauto.
Qed.

(** With an [encoding/json] that gives ratings back, every store of the
    rating service has the persisted layout. *)
Lemma rating_reachable_layout db : json_roundtrip → reachable db → layout db.
Proof.
  intros Hjson. induction 1 as [|o db Hr IH].
  { intros p n Hn. destruct p as [|k q]; simpl in *; [done|].
    by rewrite lookup_empty in Hn. }
  destruct o as [cmts|r rt|r]; simpl; [| |done].
  - unfold setup, Update.
    pose proof (rating_setup_loop_layout cmts db IH) as Hl.
    by destruct (setup_loop cmts db) as [tx [err|]].
  - destruct (rating_save_cases r rt db)
      as [(res & err & ->)|(kb & tx & ib & current & data & Hkb & Htx & Hib & Hd & ->)];
      cbn [fst]; [done|].
    assert (layout tx) as Hl.
    { destruct Htx as [->| ->]; [done|].
      apply (rating_layout_alter (λ k' n', k' = key r ∧ n' = Nested ∅)
               _ [kind r] db kb); try done.
      - intros m0 k' n'. apply insert_brings.
      - intros p m' [l Hpre]. destruct p as [|? [|? p]]; simplify_eq/=; eauto.
      - intros k' n' q n [-> ->] Hq. apply node_at_empty in Hq as [-> ->].
        simpl. eauto. }
    rewrite ensureNotNegative_add in Hd.
    destruct (Hjson (merge_spec current rt)) as (data' & Hm & Hu);
      [apply merge_spec_ints|].
    rewrite Hd in Hm. injection Hm as <-.
    apply (rating_layout_alter (λ k' n', k' = ratingsKey ∧ n' = Leaf data)
             _ [kind r; key r] tx ib); try done.
    + intros m0 k' n'. apply insert_brings.
    + intros p m' [l Hpre]. destruct p as [|? [|? [|? p]]]; simplify_eq/=; eauto.
    + intros k' n' q n [-> ->] Hq. apply node_at_leaf in Hq as [-> ->].
      simpl. eauto.
Qed.

(** In a store of the rating service, what [get] returns -- the zero
    rating where it finds no instance -- is what the instance stores. *)
Lemma get_reads_stored r db :
  json_roundtrip →
  reachable db →
  is_Some (bucket_at [kind r] db) →
  stored_is r db (default rating_zero (get r db).1).
Proof.
  intros Hjson Hr [kb Hkb].
  pose proof (rating_reachable_layout db Hjson Hr) as Hl.
  exists kb. split; [done|]. rewrite rating_get_spec, Hkb.
  assert (node_at [kind r; key r] (Nested db) = kb !! key r) as Hn2.
  { pose proof (node_at_snoc [kind r] (key r) db) as Hn.
    cbn [app] in Hn. by rewrite Hn, Hkb. }
  assert (∀ ib, bucket_at [kind r; key r] db = Some ib →
            node_at [kind r; key r; ratingsKey] (Nested db) = ib !! ratingsKey)
    as Hn3.
  { intros ib Hib. pose proof (node_at_snoc [kind r; key r] ratingsKey db) as Hn.
    cbn [app] in Hn. by rewrite Hn, Hib. }
  destruct (kb !! key r) as [[v|ib]|] eqn:Ek.
  - by destruct (Hl [kind r; key r] (Leaf v) Hn2) as [m ?].
  - assert (bucket_at [kind r; key r] db = Some ib) as Hib
      by (apply (bucket_at_snoc [kind r]); eauto).
    specialize (Hn3 ib Hib). rewrite Hib, Hn3.
    destruct (ib !! ratingsKey) as [[data|m]|] eqn:Er.
    + destruct (Hl [kind r; key r; ratingsKey] (Leaf data) Hn3)
        as (_ & data' & r0 & [= <-] & Hback).
      by rewrite Hback.
    + by destruct (Hl [kind r; key r; ratingsKey] (Nested m) Hn3)
        as (_ & data' & r0 & ? & _).
    + done.
  - assert (bucket_at [kind r; key r] db = None) as ->; [|done].
    destruct (bucket_at [kind r; key r] db) as [ib|] eqn:Hib; [|done].
    destruct (proj1 (bucket_at_snoc [kind r] _ _ _) Hib) as (kb' & Hkb' & Ek').
    rewrite Hkb in Hkb'. injection Hkb' as <-. by rewrite Ek in Ek'.
Qed.

(** X20. In every store of the rating service, [save] for a rateable whose
    resource type exists and whose key is not empty always succeeds: it
    returns what [get] read before (the zero rating where [get] found no
    instance) merged with the delta, and [get] reads that back. The
    encoding of a rating is a value bolt takes, at most [MaxValueSize]
    bytes long. *)
Theorem save_merges_into_what_get_reads r rt db :
  json_roundtrip →
  json_fits →
  reachable db →
  is_Some (bucket_at [kind r] db) →
  key r ≠ "" →
  (save r rt db).1.2 = Some (merge_spec (default rating_zero (get r db).1) rt) ∧
  (save r rt db).2 = None ∧
  get r (save r rt db).1.1 =
    (Some (merge_spec (default rating_zero (get r db).1) rt), None).
Proof.
  intros Hjson Hfits Hr Hkb Hkey.
  destruct (save_merges r rt db _ Hjson Hfits Hkey
              (get_reads_stored r db Hjson Hr Hkb))
    as (db' & Hs & _ & Hg).
  rewrite Hs. cbn [fst snd]. by rewrite Hg.
Qed.

End rating_more.

(* ===================================================================== *)
(** ** The routes of the comment service *)
(* ===================================================================== *)

Section comment_routes.
Import comment http comment_service.
Context `{!JSON comment, !Decoder comment}.
Context `{!Payload message, !Payload comments_payload}.
Implicit Types (db : bucket) (r : request) (w : response).

Lemma verify_false db kind : bucket_at [kind] db = None → verify db kind = false.
Proof.
  intros Hkb. destruct (verify db kind) eqn:E; [|done].
  apply verify_spec in E. rewrite Hkb in E. by destruct E.
Qed.

Lemma verify_true db kind : is_Some (bucket_at [kind] db) → verify db kind = true.
Proof. apply verify_spec. Qed.

(** With the instance there, [verifier] and [validator] pass the request
    on with the commentable in its context. *)
Lemma through_validator next r db w ib :
  bucket_at [commentableType r; commentableKey r] db = Some ib →
  verifier (validator next) r db w =
    next (with_value r (commentableKey r)
            {| kind := commentableType r; key := commentableKey r |}) db w.
Proof.
  intros Hib.
  destruct (resolve_instance {| kind := commentableType r; key := commentableKey r |}
              db ib Hib) as [kb Hkb].
  unfold verifier, validator.
  rewrite (verify_true db (commentableType r)) by eauto.
  by rewrite (proj2 (exists_spec _ db)) by eauto.
Qed.

(** What the GET of one comment answers for an instance that is there. *)
Lemma get_comment_answers r db w ib :
  bucket_at [commentableType r; commentableKey r] db = Some ib →
  (∀ cmt data,
     get {| kind := commentableType r; key := commentableKey r |}
       (commentKey r) db = (Some cmt, None) →
     json_Marshal cmt = inr data →
     get_comment r db w = (db, respond w data StatusOK, false)) ∧
  ((get {| kind := commentableType r; key := commentableKey r |}
      (commentKey r) db).2 ≠ None →
   get_comment r db w =
     (db, respondWithMsg w commentNotFoundErr StatusBadRequest, false)).
Proof.
  intros Hib. unfold get_comment. rewrite (through_validator _ _ _ _ ib Hib).
  unfold handleGet. cbn [ctx commentableKey commentKey with_value].
  rewrite lookup_insert_eq. split.
  - intros cmt data -> Hdata.
    unfold respondWithPayload, json_Marshal_payload, comment_pointer_payload.
    by rewrite Hdata.
  - intros Hfail.
    by destruct (get _ (commentKey r) db) as [[cmt|] [err|]].
Qed.

(** X21. Every route answers 406 with the type-not-found message when the
    resource type has no container, and every route but the POST answers
    404 with the instance-not-found message when the type is there and
    the instance is not; in both cases the store is left alone and the
    handler does not run. *)
Theorem comment_routes_are_gated guid r db w :
  (bucket_at [commentableType r] db = None →
     ∀ route, route ∈ [post_comment guid; get_comments; get_comment;
                       delete_comment; patch_comment] →
     route r db w =
       (db, respondWithMsg w
              ("commentable type, " +:+ commentableType r +:+ ", not found")
              StatusNotAcceptable, false)) ∧
  (is_Some (bucket_at [commentableType r] db) →
   bucket_at [commentableType r; commentableKey r] db = None →
     ∀ route, route ∈ [get_comments; get_comment; delete_comment; patch_comment] →
     route r db w =
       (db, respondWithMsg w
              (commentableType r +:+ " not found with key " +:+ commentableKey r)
              StatusNotFound, false)).
Proof.
  split.
  - intros Hkb route Hroute.
    assert (∀ next, verifier next r db w =
              (db, respondWithMsg w
                     ("commentable type, " +:+ commentableType r +:+ ", not found")
                     StatusNotAcceptable, false)) as Hgate
      by (intros next; unfold verifier; by rewrite (verify_false _ _ Hkb)).
    repeat (apply elem_of_cons in Hroute as [->|Hroute]; [apply Hgate|]).
    by apply elem_of_nil in Hroute.
  - intros Hkb Hib route Hroute.
    assert (∀ next, verifier (validator next) r db w =
              (db, respondWithMsg w
                     (commentableType r +:+ " not found with key " +:+ commentableKey r)
                     StatusNotFound, false)) as Hgate.
    { intros next. unfold verifier, validator. rewrite (verify_true _ _ Hkb).
      by rewrite exists_false. }
    repeat (apply elem_of_cons in Hroute as [->|Hroute]; [apply Hgate|]).
    by apply elem_of_nil in Hroute.
Qed.

(** X22. A POST whose body does not decode, or decodes to an empty text, is
    answered 400 and stores no comment -- but the instance container has
    been created by then: the store is the one [ensure] leaves. *)
Theorem post_rejects_empty_text guid r db w kb co err :
  bucket_at [commentableType r] db = Some kb →
  commentableKey r ≠ "" →
  (∀ v, kb !! commentableKey r ≠ Some (Leaf v)) →
  json_Decode (body r) comment_zero = (co, err) →
  err ≠ None ∨ Value co = "" →
  post_comment guid r db w =
    ((ensure {| kind := commentableType r; key := commentableKey r |} db).1,
     respondWithMsg w commentIsInvalid StatusBadRequest, false) ∧
  exists_ {| kind := commentableType r; key := commentableKey r |}
    (ensure {| kind := commentableType r; key := commentableKey r |} db).1 = true.
Proof.
  intros Hkb Hkey Hleaf Hdec Hbad.
  set (c := {| kind := commentableType r; key := commentableKey r |}).
  destruct (ensure_creates c db kb Hkb Hkey Hleaf) as (db1 & Hens & Hib).
  apply exists_spec in Hib as Hex. rewrite Hens. cbn [fst].
  split; [|done].
  unfold post_comment, verifier, creator, validator.
  rewrite (verify_true db (commentableType r)) by eauto.
  fold c. rewrite Hens, Hex. unfold handleAdd. cbn [body with_value].
  rewrite Hdec. by rewrite decide_True.
Qed.

(** X23. In a store of the service, a POST with a text for an existing
    resource type is answered 200 with the encoded comment, carrying the
    generated identifier and the text; the instance is created on the
    way if need be, [get] of the identifier afterwards returns the
    comment, and a GET of it is answered 200 with the same body. The
    identifier and the encoding are a key and a value bolt takes: the
    identifier not empty and at most [MaxKeySize] bytes long, the
    encoding at most [MaxValueSize]. *)
Theorem post_stores_comment guid r db w kb co data :
  reachable db →
  bucket_at [commentableType r] db = Some kb →
  commentableKey r ≠ "" →
  json_Decode (body r) comment_zero = (co, None) →
  Value co ≠ "" →
  storable guid data →
  json_Marshal {| ID := guid; Value := Value co |} = inr data →
  json_Unmarshal data comment_zero = ({| ID := guid; Value := Value co |}, None) →
  ∃ db',
    post_comment guid r db w = (db', respond w data StatusOK, false) ∧
    get {| kind := commentableType r; key := commentableKey r |} guid db' =
      (Some {| ID := guid; Value := Value co |}, None) ∧
    ∀ r' w',
      commentableType r' = commentableType r →
      commentableKey r' = commentableKey r →
      commentKey r' = guid →
      get_comment r' db' w' = (db', respond w' data StatusOK, false).
Proof.
  intros Hr Hkb Hkey Hdec Hval Hguid Hdata Hback.
  set (c := {| kind := commentableType r; key := commentableKey r |}).
  assert (∀ v, kb !! commentableKey r ≠ Some (Leaf v)) as Hleaf.
  { intros v Hv. pose proof (reachable_layout _ Hr) as Hl.
    destruct (Hl [commentableType r; commentableKey r] (Leaf v)) as [m ?]; [|done].
    pose proof (node_at_snoc [commentableType r] (commentableKey r) db) as Hn.
    cbn [app] in Hn. by rewrite Hn, Hkb. }
  set (new := {| ID := guid; Value := Value co |}).
  destruct (ensure_creates c db kb Hkb Hkey Hleaf) as (db1 & Hens & [ib Hib]).
  pose proof (proj2 (exists_spec c db1) (mk_is_Some _ _ Hib)) as Hex.
  pose proof (reachable_step (OpEnsure c) db Hr) as Hr1.
  cbn [step] in Hr1. rewrite Hens in Hr1. cbn [fst] in Hr1.
  pose proof (reachable_layout _ Hr1) as Hl1.
  destruct (comment_save_stores c new db1 ib data Hib)
    as (db' & cb' & Hsave & Hcb' & Hc); try done.
  { intros v. by apply (layout_comments_key c db1). }
  { intros cb m Hcb. by apply (layout_comment_entry c db1 ib cb). }
  exists db'. split.
  - unfold post_comment, verifier, creator, validator.
    rewrite (verify_true db (commentableType r)) by eauto.
    fold c. rewrite Hens, Hex. unfold handleAdd.
    cbn [body ctx commentableKey with_value].
    rewrite Hdec. rewrite decide_False by (intros [?|?]; done).
    rewrite lookup_insert_eq. unfold add. fold new. rewrite Hsave.
    unfold respondWithPayload, json_Marshal_payload, comment_pointer_payload.
    unfold new. by rewrite Hdata.
  - assert (get c guid db' = (Some new, None)) as Hget.
    { rewrite (get_resolved c _ _ _ Hcb'). simpl in Hc. rewrite Hc.
      by rewrite Hback. }
    split; [done|]. intros r' w' Ht Hk Hc'.
    destruct (resolve_comments c db' cb' Hcb') as (kb' & ib' & _ & Hib' & _).
    assert (bucket_at [commentableType r'; commentableKey r'] db' = Some ib')
      as Hib'' by (by rewrite Ht, Hk).
    apply (proj1 (get_comment_answers r' db' w' ib' Hib'') new data); [|done].
    by rewrite Ht, Hk, Hc'.
Qed.

(** X24. A DELETE looks the comment up first: when [get] fails it answers
    400 and leaves the store alone; when [get] returns the comment stored
    under the identifier it removes it and answers 200, after which
    [get] fails and a GET of the comment is answered 400. *)
Theorem delete_verifies_first r db w ib :
  bucket_at [commentableType r; commentableKey r] db = Some ib →
  ((get {| kind := commentableType r; key := commentableKey r |}
      (commentKey r) db).2 ≠ None →
   delete_comment r db w =
     (db, respondWithMsg w commentNotFoundErr StatusBadRequest, false)) ∧
  (∀ cmt,
     get {| kind := commentableType r; key := commentableKey r |}
       (commentKey r) db = (Some cmt, None) →
     ID cmt = commentKey r →
     delete_comment r db w =
       ((remove {| kind := commentableType r; key := commentableKey r |}
           (commentKey r) db).1,
        respondWithMsg w ("successfully deleted " +:+ commentableType r
                          +:+ " comment with id: " +:+ commentKey r) StatusOK,
        false) ∧
     get {| kind := commentableType r; key := commentableKey r |} (commentKey r)
       (remove {| kind := commentableType r; key := commentableKey r |}
          (commentKey r) db).1 =
       (None, Some (Errorf (commentNotFoundFmt (commentKey r)
                              (commentableType r) (commentableKey r)))) ∧
     ∀ w',
       get_comment r
         (remove {| kind := commentableType r; key := commentableKey r |}
            (commentKey r) db).1 w' =
         ((remove {| kind := commentableType r; key := commentableKey r |}
             (commentKey r) db).1,
          respondWithMsg w' commentNotFoundErr StatusBadRequest, false)).
Proof.
  intros Hib.
  set (c := {| kind := commentableType r; key := commentableKey r |}).
  destruct (resolve_instance c db ib Hib) as [kb Hkb].
  assert (delete_comment r db w =
            handleRemove (with_value r (commentableKey r) c) db w) as Hroute.
  { unfold delete_comment, verifier, validator.
    rewrite (verify_true db (commentableType r)) by eauto.
    fold c. by rewrite (proj2 (exists_spec c db)) by eauto. }
  rewrite Hroute. unfold handleRemove.
  cbn [ctx commentableKey commentKey with_value]. rewrite lookup_insert_eq.
  split.
  - intros Hfail. by destruct (get c (commentKey r) db) as [[cmt|] [err|]].
  - intros cmt Hget Hid. rewrite Hget, Hid.
    destruct (bucket_at [kind c; key c; commentsKey] db) as [cb|] eqn:Hcb.
    + pose proof Hget as Hget'.
      rewrite (get_resolved c _ _ _ Hcb) in Hget'.
      destruct (cb !! commentKey r) as [[cmm|m]|] eqn:E; try done.
      rewrite (remove_deletes c _ _ cb Hcb) by (left; eauto).
      cbn [fst].
      set (db' := bucket_alter _ _ db).
      assert (bucket_at [kind c; key c; commentsKey] db'
                = Some (delete (commentKey r) cb)) as Hcb'
        by by apply bucket_at_alter.
      assert (get c (commentKey r) db' =
                (None, Some (Errorf (commentNotFoundFmt (commentKey r)
                                       (commentableType r) (commentableKey r)))))
        as Hgone.
      { rewrite (get_resolved c _ _ _ Hcb'). by rewrite lookup_delete_eq. }
      split; [done|]. split; [done|]. intros w'.
      destruct (resolve_comments c db' _ Hcb') as (kb' & ib' & _ & Hib' & _).
      apply (proj2 (get_comment_answers r db' w' ib' Hib')).
      fold c. by rewrite Hgone.
    + exfalso. rewrite comment_get_spec in Hget.
      pose proof (node_at_snoc [kind c; key c; commentsKey] (commentKey r) db) as Hn.
      cbn [app] in Hn. rewrite Hn, Hcb in Hget.
      by destruct (bucket_at [kind c] db), (bucket_at [kind c; key c] db).
Qed.

(** X25. In a store of the service, a PATCH with a text for a stored comment
    is answered 200 with the encoded comment; the comment keeps its
    identifier and takes the new text, [get] returns it afterwards, and
    a GET of it is answered 200 with the same body. The identifier and
    the new encoding are a key and a value bolt takes: the identifier
    not empty and at most [MaxKeySize] bytes long, the encoding at most
    [MaxValueSize]. *)
Theorem patch_replaces_text r db w ib co cmt data :
  reachable db →
  bucket_at [commentableType r; commentableKey r] db = Some ib →
  json_Decode (body r) comment_zero = (co, None) →
  Value co ≠ "" →
  get {| kind := commentableType r; key := commentableKey r |} (commentKey r) db
    = (Some cmt, None) →
  ID cmt = commentKey r →
  storable (commentKey r) data →
  json_Marshal {| ID := commentKey r; Value := Value co |} = inr data →
  json_Unmarshal data comment_zero =
    ({| ID := commentKey r; Value := Value co |}, None) →
  ∃ db',
    patch_comment r db w = (db', respond w data StatusOK, false) ∧
    get {| kind := commentableType r; key := commentableKey r |}
      (commentKey r) db' =
      (Some {| ID := commentKey r; Value := Value co |}, None) ∧
    ∀ w', get_comment r db' w' = (db', respond w' data StatusOK, false).
Proof.
  intros Hr Hib Hdec Hval Hget Hid Hkey Hdata Hback.
  set (c := {| kind := commentableType r; key := commentableKey r |}).
  set (new := {| ID := commentKey r; Value := Value co |}).
  destruct (resolve_instance c db ib Hib) as [kb Hkb].
  pose proof (reachable_layout _ Hr) as Hl.
  destruct (comment_save_stores c new db ib data Hib)
    as (db' & cb' & Hsave & Hcb' & Hc); try done.
  { intros v. by apply (layout_comments_key c db). }
  { intros cb m Hcb. by apply (layout_comment_entry c db ib cb). }
  exists db'. split.
  - unfold patch_comment, verifier, validator.
    rewrite (verify_true db (commentableType r)) by eauto.
    fold c. rewrite (proj2 (exists_spec c db)) by eauto.
    unfold handleUpdate. cbn [body ctx commentableKey commentKey with_value].
    rewrite Hdec. rewrite decide_False by (intros [?|?]; done).
    rewrite lookup_insert_eq. fold c.
    change (get c (commentKey r) db = (Some cmt, None)) in Hget.
    rewrite Hget, Hid. fold new.
    rewrite Hsave.
    unfold respondWithPayload, json_Marshal_payload, comment_pointer_payload.
    unfold new. by rewrite Hdata.
  - assert (get c (commentKey r) db' = (Some new, None)) as Hget'.
    { rewrite (get_resolved c _ _ _ Hcb'). simpl in Hc. rewrite Hc.
      by rewrite Hback. }
    split; [done|]. intros w'.
    destruct (resolve_comments c db' cb' Hcb') as (kb' & ib' & _ & Hib' & _).
    by apply (proj1 (get_comment_answers r db' w' ib' Hib') new data).
Qed.

(** X26. In a store of the service, with an [encoding/json] that decodes
    what it encodes, the GET of the comments of an existing instance is
    answered 200 with a list that is never nil and holds a comment
    exactly when [get] returns it for some key of the instance -- the
    key it is stored under, which the comment need not carry as its
    identifier; the store is left alone. *)
Theorem get_comments_lists r db w ib :
  json_decodes →
  reachable db →
  bucket_at [commentableType r; commentableKey r] db = Some ib →
  ∃ cs,
    get_comments r db w =
      (db, respondWithPayload w {| Comments := Some cs |} StatusOK, false) ∧
    ∀ c, c ∈ cs ↔
         ∃ cKey,
           get {| kind := commentableType r; key := commentableKey r |} cKey db
             = (Some c, None).
Proof.
  intros Hjson Hr Hib.
  set (cm := {| kind := commentableType r; key := commentableKey r |}).
  assert (bucket_at [kind cm; key cm] db = Some ib) as Hib' by done.
  assert (∃ cs, list cm db = (Some cs, None) ∧
                ∀ c, c ∈ cs ↔ ∃ cKey, get cm cKey db = (Some c, None))
    as (cs & Hlist & Hget).
  { destruct (bucket_at [kind cm; key cm; commentsKey] db) as [cb|] eqn:Hcb.
    - apply (list_reads cm db cb Hcb).
      by apply (reachable_decodable db Hjson Hr (kind cm) (key cm)).
    - destruct (resolve_instance cm db ib Hib') as [kb Hkb].
      exists []. split.
      + unfold list, View. resolve_with Hkb. resolve_with Hib'.
        rewrite Bucket_Bucket_spec. cbn [app]. by rewrite Hcb.
      + intros c. split; [by intros ?%elem_of_nil|]. intros [cKey Hget].
        exfalso. rewrite comment_get_spec in Hget.
        pose proof (node_at_snoc [kind cm; key cm; commentsKey] cKey db) as Hn.
        cbn [app] in Hn. rewrite Hn, Hcb in Hget.
        by destruct (bucket_at [kind cm] db), (bucket_at [kind cm; key cm] db). }
  exists cs. split; [|done].
  unfold get_comments. rewrite (through_validator _ _ _ _ ib Hib).
  unfold handleList. cbn [ctx commentableKey with_value].
  rewrite lookup_insert_eq. fold cm. by rewrite Hlist.
Qed.

(** X27. No GET of the comment service changes the store or panics,
    whatever the store and the request are. *)
Theorem comment_reads_leave_the_store r db w route :
  route ∈ [get_comments; get_comment] →
  (route r db w).1.1 = db ∧ (route r db w).2 = false.
Proof.
  intros Hroute.
  assert (∀ next,
            (∀ r' w', (next r' db w').1.1 = db) →
            (verifier (validator next) r db w).1.1 = db) as Hstore.
  { intros next Hnext. unfold verifier, validator.
    destruct (verify db (commentableType r)); [|done].
    destruct (exists_ _ db); [apply Hnext|done]. }
  assert (∀ next,
            (∀ w', (next (with_value r (commentableKey r)
                      {| kind := commentableType r; key := commentableKey r |})
                      db w').2 = false) →
            (verifier (validator next) r db w).2 = false) as Hpanic.
  { intros next Hnext. unfold verifier, validator.
    destruct (verify db (commentableType r)); [|done].
    destruct (exists_ _ db); [apply Hnext|done]. }
  apply elem_of_cons in Hroute as [->|Hroute];
    [|apply elem_of_cons in Hroute as [->|Hroute]; [|by apply elem_of_nil in Hroute]].
  - split; [apply Hstore|apply Hpanic]; intros; unfold handleList.
    + destruct (ctx r' !! commentableKey r') as [c|]; [|done].
      by destruct (list c db) as [cs err].
    + cbn [ctx commentableKey with_value]. rewrite lookup_insert_eq.
      by destruct (list _ db) as [cs err].
  - split; [apply Hstore|apply Hpanic]; intros; unfold handleGet.
    + destruct (ctx r' !! commentableKey r') as [c|]; [|done].
      by destruct (get c (commentKey r') db) as [cmt [err|]].
    + cbn [ctx commentableKey commentKey with_value]. rewrite lookup_insert_eq.
      by destruct (get _ (commentKey r) db) as [cmt [err|]].
Qed.

(** X28. When [add] or [save] fails inside [handleAdd] or [handleUpdate], the
    handler has answered 500 and left the store alone, and then it
    panics: the comment it hands to the logger is the nil pointer the
    failed call returned. *)
Theorem failed_save_panics guid r db w c co :
  json_Decode (body r) comment_zero = (co, None) →
  Value co ≠ "" →
  ctx r !! commentableKey r = Some c →
  ((add guid c (Some co) db).2 ≠ None →
   handleAdd guid r db w =
     (db, respondWithMsg w commentSaveErr StatusInternalServerError, true)) ∧
  (∀ cmt,
     get c (commentKey r) db = (Some cmt, None) →
     (save c (Some {| ID := ID cmt; Value := Value co |}) db).2 ≠ None →
     handleUpdate r db w =
       (db, respondWithMsg w commentSaveErr StatusInternalServerError, true)).
Proof.
  intros Hdec Hval Hctx. split.
  - intros Hfail. unfold handleAdd. rewrite Hdec.
    rewrite decide_False by (intros [?|?]; done). rewrite Hctx.
    unfold add in *.
    destruct (comment_save_cases c {| ID := guid; Value := Value co |} db)
      as [[err E]|(ib & data & tx & cb & _ & _ & _ & _ & _ & _ & E)];
      rewrite E in *; [done|]. by destruct Hfail.
  - intros cmt Hget Hfail. unfold handleUpdate. rewrite Hdec.
    rewrite decide_False by (intros [?|?]; done). rewrite Hctx, Hget.
    destruct (comment_save_cases c {| ID := ID cmt; Value := Value co |} db)
      as [[err E]|(ib & data & tx & cb & _ & _ & _ & _ & _ & _ & E)];
      rewrite E in *; [done|]. by destruct Hfail.
Qed.

End comment_routes.

(* ===================================================================== *)
(** ** The routes of the rating service *)
(* ===================================================================== *)

Section rating_routes.
Import rating http rating_service.
Context `{!JSON rating, !Decoder rating}.
Context `{!Payload message}.
Implicit Types (db : bucket) (r : request) (w : response).

(** X29. In a store of the service, a PUT with a rating for an existing
    resource type and a non-empty key is answered 200 with the encoding
    of what [get] read before merged with the body; [get] returns that
    merge afterwards, and a GET is answered 200 with the same body. The
    encoding of a rating is a value bolt takes, at most [MaxValueSize]
    bytes long. *)
Theorem put_merges_rating r db w rt :
  json_roundtrip →
  json_fits →
  reachable db →
  is_Some (bucket_at [rateableType r] db) →
  rateableKey r ≠ "" →
  json_Decode (body r) rating_zero = (rt, None) →
  ∃ db' data,
    json_Marshal
      (merge_spec
         (default rating_zero
            (get {| kind := rateableType r; key := rateableKey r |} db).1) rt)
      = inr data ∧
    put_ratings r db w = (db', respond w data StatusOK, false) ∧
    get {| kind := rateableType r; key := rateableKey r |} db' =
      (Some (merge_spec
               (default rating_zero
                  (get {| kind := rateableType r; key := rateableKey r |} db).1) rt),
       None) ∧
    ∀ w', get_ratings r db' w' = (db', respond w' data StatusOK, false).
Proof.
  intros Hjson Hfits Hr Hkb Hkey Hdec.
  set (rte := {| kind := rateableType r; key := rateableKey r |}).
  destruct (save_merges rte rt db _ Hjson Hfits Hkey
              (get_reads_stored rte db Hjson Hr Hkb))
    as (db' & Hsave & _ & Hget).
  set (merged := merge_spec (default rating_zero (get rte db).1) rt) in *.
  destruct (Hjson merged) as (data & Hdata & _); [apply merge_spec_ints|].
  exists db', data. repeat split; try done.
  - unfold put_ratings, verifier. rewrite (verify_true db (rateableType r)) by done.
    unfold handlePut. cbn [body ctx rateableKey with_value]. rewrite Hdec.
    rewrite lookup_insert_eq. fold rte. rewrite Hsave.
    unfold respondWithPayload, json_Marshal_payload, rating_pointer_payload.
    by rewrite Hdata.
  - intros w'. unfold get_ratings, verifier.
    assert (is_Some (bucket_at [rateableType r] db')) as Hkb'.
    { rewrite rating_get_spec in Hget. cbn [kind key rte] in Hget.
      by destruct (bucket_at [rateableType r] db'). }
    rewrite (verify_true db' (rateableType r)) by done.
    unfold handleGet. cbn [ctx rateableKey with_value]. rewrite lookup_insert_eq.
    fold rte. rewrite Hget.
    unfold respondWithPayload, json_Marshal_payload, rating_pointer_payload.
    by rewrite Hdata.
Qed.

(** X30. Both routes answer 406 with the type-not-found message when the
    resource type has no container; a GET for an instance that does not
    exist is answered 400, and a GET for an instance without a record is
    answered 200 with the encoded zero rating. No GET changes the store
    or panics, whatever the store and the request are. *)
Theorem rating_routes_read r db w :
  (bucket_at [rateableType r] db = None →
     ∀ route, route ∈ [get_ratings; put_ratings] →
     route r db w =
       (db, respondWithMsg w
              ("rateable type, " +:+ rateableType r +:+ ", not found")
              StatusNotAcceptable, false)) ∧
  (is_Some (bucket_at [rateableType r] db) →
   bucket_at [rateableType r; rateableKey r] db = None →
     get_ratings r db w =
       (db, respondWithMsg w ratingFetchErr StatusBadRequest, false)) ∧
  (∀ ib data, bucket_at [rateableType r; rateableKey r] db = Some ib →
     (∀ v, ib !! ratingsKey ≠ Some (Leaf v)) →
     json_Marshal rating_zero = inr data →
     get_ratings r db w = (db, respond w data StatusOK, false)) ∧
  ((get_ratings r db w).1.1 = db ∧ (get_ratings r db w).2 = false).
Proof.
  set (rte := {| kind := rateableType r; key := rateableKey r |}).
  assert ((get_ratings r db w).1.1 = db ∧ (get_ratings r db w).2 = false) as Hpure.
  { unfold get_ratings, verifier.
    destruct (verify db (rateableType r)); [|done].
    unfold handleGet. cbn [ctx rateableKey with_value]. rewrite lookup_insert_eq.
    by destruct (get _ db) as [rt [err|]]. }
  split; [|split; [|split; [|exact Hpure]]].
  - intros Hkb route Hroute.
    assert (∀ next, verifier next r db w =
              (db, respondWithMsg w
                     ("rateable type, " +:+ rateableType r +:+ ", not found")
                     StatusNotAcceptable, false)) as Hgate
      by (intros next; unfold verifier; by rewrite (verify_false _ _ Hkb)).
    repeat (apply elem_of_cons in Hroute as [->|Hroute]; [apply Hgate|]).
    by apply elem_of_nil in Hroute.
  - intros Hkb Hib. unfold get_ratings, verifier.
    rewrite (verify_true db (rateableType r)) by done.
    unfold handleGet. cbn [ctx rateableKey with_value]. rewrite lookup_insert_eq.
    fold rte. rewrite rating_get_spec. cbn [kind key rte].
    destruct Hkb as [kb ->]. by rewrite Hib.
  - intros ib data Hib Hnone Hdata.
    destruct (proj1 (bucket_at_snoc [rateableType r] _ _ _) Hib) as (kb & Hkb & _).
    unfold get_ratings, verifier.
    rewrite (verify_true db (rateableType r)) by eauto.
    unfold handleGet. cbn [ctx rateableKey with_value]. rewrite lookup_insert_eq.
    fold rte.
    assert (get rte db = (Some rating_zero, None)) as ->.
    { rewrite rating_get_spec. cbn [kind key rte]. rewrite Hkb, Hib.
      pose proof (node_at_snoc [rateableType r; rateableKey r] ratingsKey db) as Hn.
      cbn [app] in Hn. rewrite Hn, Hib.
      cbn [fmap option_fmap option_map mbind option_bind].
      destruct (ib !! ratingsKey) as [[d|m]|] eqn:E; try done. by destruct (Hnone d). }
    unfold respondWithPayload, json_Marshal_payload, rating_pointer_payload.
    by rewrite Hdata.
Qed.

End rating_routes.

(* ===================================================================== *)
(** ** The further properties on the stores and requests of the tests *)
(* ===================================================================== *)

Section provisioning_more_examples.
Import examples.

(** The start-up provisioning of the comment service, on a store that
    already holds [books] with the instance [b1]. *)
Lemma setup_provisions_witness :
  (setup books_b1 comment_service.commentables).2 = None ∧
  (∀ name, name ∈ comment_service.commentables →
     verify (setup books_b1 comment_service.commentables).1 name = true) ∧
  (∀ name n, books_b1 !! name = Some n →
     (setup books_b1 comment_service.commentables).1 !! name = Some n).
Proof.
  apply (setup_provisions books_b1 comment_service.commentables).
  intros name Hin.
  apply elem_of_cons in Hin as [->|Hin];
    [|apply elem_of_cons in Hin as [->|Hin]; [|by apply elem_of_nil in Hin]].
  - split; [discriminate|]. intros v. vm_compute. discriminate.
  - split; [discriminate|]. intros v. vm_compute. discriminate.
Defined.

End provisioning_more_examples.

Section comment_more_examples.
Import comment examples.

Lemma comment_operations_need_resource_type_witness :
  ensure b1 ∅ = (∅, Some (Errorf "resource 'books' does not exist")) ∧
  exists_ b1 ∅ = false ∧
  @save gojson.comment_json b1 (Some great_read) ∅ =
    (∅, None, Some (Errorf "commentable type, books, not found")) ∧
  @list gojson.comment_json b1 ∅ =
    (None, Some (Errorf "commentable type, books, not found")) ∧
  @get gojson.comment_json b1 (ID great_read) ∅ =
    (None, Some (Errorf "commentable type, books, not found")) ∧
  remove b1 (ID great_read) ∅ =
    (∅, Some (Errorf "commentable type, books, not found")).
Proof.
  apply (@comment_operations_need_resource_type gojson.comment_json
           b1 great_read (ID great_read) ∅).
  reflexivity.
Defined.


Lemma ensure_then_exists_witness :
  (ensure b1 books).2 = None ∧ exists_ b1 (ensure b1 books).1 = true.
Proof.
  apply (ensure_then_exists b1 books ∅).
  - vm_compute. reflexivity.
  - discriminate.
  - intros v. rewrite lookup_empty. discriminate.
Defined.

Lemma ensure_keeps_instance_witness :
  ensure b1 books_b1_commented = (books_b1_commented, None).
Proof.
  apply (ensure_keeps_instance b1 books_b1_commented
           (default ∅ (bucket_at ["books"; "b1"] books_b1_commented))).
  - vm_compute. reflexivity.
  - discriminate.
Defined.

Lemma save_needs_identifier_witness :
  @save gojson.comment_json b1 (Some {| ID := ""; Value := "great read" |}) books_b1 =
    (books_b1, None, Some ErrKeyRequired).
Proof.
  apply (@save_needs_identifier gojson.comment_json
           b1 {| ID := ""; Value := "great read" |} books_b1 ∅
           (gojson.marshal_comment {| ID := ""; Value := "great read" |})).
  - apply books_b1_reachable.
  - vm_compute. reflexivity.
  - reflexivity.
  - reflexivity.
Defined.

Lemma remove_of_absent_comment_witness :
  remove b1 "-MZx3kQ0aB7cD9eF1gH9" books_b1_commented = (books_b1_commented, None).
Proof.
  apply (remove_of_absent_comment b1 "-MZx3kQ0aB7cD9eF1gH9" books_b1_commented
           (default ∅ (bucket_at ["books"; "b1"; commentsKey] books_b1_commented))).
  - vm_compute. reflexivity.
  - intros k m.
    apply (layout_comment_entry b1 books_b1_commented
             (default ∅ (bucket_at ["books"; "b1"] books_b1_commented))).
    + apply (@reachable_layout gojson.comment_json), books_b1_commented_reachable.
    + vm_compute. reflexivity.
    + vm_compute. reflexivity.
  - vm_compute. reflexivity.
Defined.

(** Editing one comment of [b1] leaves the other as [get] reads it. *)
Lemma writes_keep_other_comments_witness :
  @get gojson.comment_json b1 (ID second)
    (@save gojson.comment_json b1 (Some edited) books_b1_commented).1.1 =
    @get gojson.comment_json b1 (ID second) books_b1_commented.
Proof.
  apply (proj1 (@writes_keep_other_comments gojson.comment_json
                  b1 edited (ID edited) books_b1_commented b1 (ID second))).
  discriminate.
Defined.

Lemma list_agrees_with_get_witness :
  ∃ cs,
    @list gojson.comment_json b1 books_b1_commented = (Some cs, None) ∧
    (∀ c, c ∈ cs ↔
          @get gojson.comment_json b1 (ID c) books_b1_commented = (Some c, None)) ∧
    length cs =
      size (<[ID great_read := Leaf (gojson.marshal_comment great_read)]>
              (<[ID second := Leaf (gojson.marshal_comment second)]> (∅ : bucket))) ∧
    NoDup (ID <$> cs) ∧
    Sorted (λ a b, String.leb a b = true) (ID <$> cs).
Proof.
  apply (@list_agrees_with_get gojson.comment_json b1 books_b1_commented
           (<[ID great_read := Leaf (gojson.marshal_comment great_read)]>
              (<[ID second := Leaf (gojson.marshal_comment second)]> ∅))).
  - vm_compute. reflexivity.
  - intros id n Hn.
    apply lookup_insert_Some in Hn as [[<- <-]|[_ Hn]];
      [|apply lookup_insert_Some in Hn as [[<- <-]|[_ Hn]];
        [|by rewrite lookup_empty in Hn]].
    + exists (gojson.marshal_comment great_read), great_read.
      split; [reflexivity|]. split; vm_compute; reflexivity.
    + exists (gojson.marshal_comment second), second.
      split; [reflexivity|]. split; vm_compute; reflexivity.
Defined.

End comment_more_examples.

Section rating_more_examples.
Import rating examples.

Lemma nonnegative_merge_is_sum_witness :
  ensureNotNegative (add (stars 0 1 10 0 0) (stars 4 0 0 0 1)) = stars 4 1 10 0 1.
Proof.
  apply (nonnegative_merge_is_sum (stars 0 1 10 0 0) (stars 4 0 0 0 1)).
  - vm_compute. repeat split; discriminate.
  - vm_compute. repeat split; discriminate.
  - vm_compute. repeat split; discriminate.
Defined.

Lemma rating_operations_fail_witness :
  @save gojson.rating_json my_key (stars 4 0 0 0 0) ∅ =
    (∅, None, Some (Errorf "rateable type, posts, not found")) ∧
  @get gojson.rating_json my_key ∅ =
    (None, Some (Errorf "rateable type, posts, not found")).
Proof.
  apply (proj1 (@rating_operations_fail gojson.rating_json
                  my_key (stars 4 0 0 0 0) ∅)).
  reflexivity.
Defined.

Lemma rating_save_then_get_witness :
  @get gojson.rating_json my_key
    (@save gojson.rating_json my_key (stars 4 0 0 0 0) posts_rated).1.1 =
    ((@save gojson.rating_json my_key (stars 4 0 0 0 0) posts_rated).1.2, None).
Proof.
  apply (@rating_save_then_get gojson.rating_json my_key (stars 4 0 0 0 0) posts_rated).
  - apply gojson_rating_roundtrip.
  - vm_compute. reflexivity.
Defined.

(** Rating [another-key] leaves the rating of [my-key] alone. *)
Lemma rating_save_keeps_others_witness :
  @get gojson.rating_json my_key
    (@save gojson.rating_json another_key (stars 4 0 0 0 0) posts_rated).1.1 =
    @get gojson.rating_json my_key posts_rated.
Proof.
  apply (@rating_save_keeps_others gojson.rating_json
           another_key (stars 4 0 0 0 0) posts_rated my_key).
  discriminate.
Defined.

Lemma save_merges_into_what_get_reads_witness :
  (@save gojson.rating_json my_key (stars 4 0 (-20) 0 0) posts_rated).1.2 =
    Some (merge_spec
            (default rating_zero (@get gojson.rating_json my_key posts_rated).1)
            (stars 4 0 (-20) 0 0)) ∧
  (@save gojson.rating_json my_key (stars 4 0 (-20) 0 0) posts_rated).2 = None ∧
  @get gojson.rating_json my_key
    (@save gojson.rating_json my_key (stars 4 0 (-20) 0 0) posts_rated).1.1 =
    (Some (merge_spec
             (default rating_zero (@get gojson.rating_json my_key posts_rated).1)
             (stars 4 0 (-20) 0 0)), None).
Proof.
  apply (@save_merges_into_what_get_reads gojson.rating_json
           my_key (stars 4 0 (-20) 0 0) posts_rated).
  - apply gojson_rating_roundtrip.
  - apply gojson_rating_fits.
  - apply posts_rated_reachable.
  - vm_compute. eauto.
  - discriminate.
Defined.

End rating_more_examples.

Section comment_route_examples.
Import comment http examples.

Lemma books_reachable : @reachable gojson.comment_json books.
Proof. exact (reachable_step (OpSetup ["books"]) _ reachable_empty). Qed.

(** A DELETE for a resource type that was never provisioned, and the
    list of an instance that was never ensured. *)
Lemma comment_routes_are_gated_witness :
  requests.delete_comment
    (requests.comment_request "films" "f1" "-MZx3kQ0aB7cD9eF1gH2" "")
    books_b1 recorder =
    (books_b1,
     requests.respondWithMsg recorder "commentable type, films, not found"
       StatusNotAcceptable,
     false) ∧
  requests.get_comments (requests.comment_request "books" "b2" "" "")
    books_b1 recorder =
    (books_b1,
     requests.respondWithMsg recorder "books not found with key b2" StatusNotFound,
     false).
Proof.
  split.
  - apply (proj1 (@comment_routes_are_gated gojson.comment_json
                    gojson_http.comment_decoder gojson_http.message_payload
                    gojson_http.comments_payload_json "-MZx3kQ0aB7cD9eF1gH3"
                    (requests.comment_request "films" "f1" "-MZx3kQ0aB7cD9eF1gH2" "")
                    books_b1 recorder)).
    + vm_compute. reflexivity.
    + do 3 apply list_elem_of_further. apply list_elem_of_here.
  - apply (proj2 (@comment_routes_are_gated gojson.comment_json
                    gojson_http.comment_decoder gojson_http.message_payload
                    gojson_http.comments_payload_json "-MZx3kQ0aB7cD9eF1gH3"
                    (requests.comment_request "books" "b2" "" "")
                    books_b1 recorder)).
    + vm_compute. eauto.
    + vm_compute. reflexivity.
    + apply list_elem_of_here.
Defined.

(** The rejected POST has created the instance. *)
Lemma post_rejects_empty_text_witness :
  requests.post_comment "-MZx3kQ0aB7cD9eF1gH2" requests.post_nothing books recorder =
    ((ensure b1 books).1,
     requests.respondWithMsg recorder comment_service.commentIsInvalid
       StatusBadRequest,
     false) ∧
  exists_ b1 (ensure b1 books).1 = true.
Proof.
  apply (@post_rejects_empty_text gojson.comment_json gojson_http.comment_decoder
           gojson_http.message_payload "-MZx3kQ0aB7cD9eF1gH2"
           requests.post_nothing books recorder ∅ comment_zero None).
  - vm_compute. reflexivity.
  - discriminate.
  - intros v. rewrite lookup_empty. discriminate.
  - vm_compute. reflexivity.
  - right. reflexivity.
Defined.

Lemma post_stores_comment_witness :
  ∃ db',
    requests.post_comment "-MZx3kQ0aB7cD9eF1gH2" requests.post_great_read
      books recorder =
      (db', respond recorder (gojson.marshal_comment great_read) StatusOK, false) ∧
    @get gojson.comment_json b1 "-MZx3kQ0aB7cD9eF1gH2" db' = (Some great_read, None) ∧
    ∀ r' w',
      comment_service.commentableType r' = "books" →
      comment_service.commentableKey r' = "b1" →
      comment_service.commentKey r' = "-MZx3kQ0aB7cD9eF1gH2" →
      requests.get_comment r' db' w' =
        (db', respond w' (gojson.marshal_comment great_read) StatusOK, false).
Proof.
  apply (@post_stores_comment gojson.comment_json gojson_http.comment_decoder
           gojson_http.message_payload "-MZx3kQ0aB7cD9eF1gH2"
           requests.post_great_read books recorder
           ∅ {| ID := ""; Value := "great read" |}
           (gojson.marshal_comment great_read)).
  - apply books_reachable.
  - vm_compute. reflexivity.
  - discriminate.
  - vm_compute. reflexivity.
  - discriminate.
  - split; [discriminate|]. split; vm_compute; discriminate.
  - reflexivity.
  - vm_compute. reflexivity.
Defined.

Lemma delete_verifies_first_witness :
  requests.delete_comment requests.great_read_request books_b1_commented recorder =
    ((remove b1 (ID great_read) books_b1_commented).1,
     requests.respondWithMsg recorder
       "successfully deleted books comment with id: -MZx3kQ0aB7cD9eF1gH2" StatusOK,
     false) ∧
  @get gojson.comment_json b1 (ID great_read)
    (remove b1 (ID great_read) books_b1_commented).1 =
    (None, Some (Errorf (commentNotFoundFmt (ID great_read) "books" "b1"))) ∧
  ∀ w',
    requests.get_comment requests.great_read_request
      (remove b1 (ID great_read) books_b1_commented).1 w' =
      ((remove b1 (ID great_read) books_b1_commented).1,
       requests.respondWithMsg w' comment_service.commentNotFoundErr StatusBadRequest,
       false).
Proof.
  apply (proj2 (@delete_verifies_first gojson.comment_json gojson_http.message_payload
                  requests.great_read_request books_b1_commented recorder
                  (default ∅ (bucket_at ["books"; "b1"] books_b1_commented))
                  ltac:(vm_compute; reflexivity)) great_read).
  - vm_compute. reflexivity.
  - reflexivity.
Defined.

Lemma patch_replaces_text_witness :
  ∃ db',
    requests.patch_comment requests.patch_edited books_b1_commented recorder =
      (db', respond recorder (gojson.marshal_comment edited) StatusOK, false) ∧
    @get gojson.comment_json b1 "-MZx3kQ0aB7cD9eF1gH2" db' = (Some edited, None) ∧
    ∀ w', requests.get_comment requests.patch_edited db' w' =
            (db', respond w' (gojson.marshal_comment edited) StatusOK, false).
Proof.
  apply (@patch_replaces_text gojson.comment_json gojson_http.comment_decoder
           gojson_http.message_payload
           requests.patch_edited books_b1_commented recorder
           (default ∅ (bucket_at ["books"; "b1"] books_b1_commented))
           {| ID := ""; Value := "edited" |} great_read
           (gojson.marshal_comment edited)).
  - apply books_b1_commented_reachable.
  - vm_compute. reflexivity.
  - vm_compute. reflexivity.
  - discriminate.
  - vm_compute. reflexivity.
  - reflexivity.
  - split; [discriminate|]. split; vm_compute; discriminate.
  - reflexivity.
  - vm_compute. reflexivity.
Defined.

Lemma get_comments_lists_witness :
  ∃ cs,
    requests.get_comments requests.great_read_request books_b1_commented recorder =
      (books_b1_commented,
       @respondWithPayload _ gojson_http.comments_payload_json recorder
         {| comment_service.Comments := Some cs |} StatusOK,
       false) ∧
    ∀ c, c ∈ cs ↔
         ∃ cKey,
           @get gojson.comment_json b1 cKey books_b1_commented = (Some c, None).
Proof.
  apply (@get_comments_lists gojson.comment_json gojson_http.message_payload
           gojson_http.comments_payload_json
           requests.great_read_request books_b1_commented recorder
           (default ∅ (bucket_at ["books"; "b1"] books_b1_commented))).
  - exact gojson_comment_decodes.
  - apply books_b1_commented_reachable.
  - vm_compute. reflexivity.
Defined.

Lemma comment_reads_leave_the_store_witness :
  (requests.get_comment requests.great_read_request books_b1_commented recorder).1.1
    = books_b1_commented ∧
  (requests.get_comment requests.great_read_request books_b1_commented recorder).2
    = false.
Proof.
  apply (@comment_reads_leave_the_store gojson.comment_json
           gojson_http.message_payload gojson_http.comments_payload_json
           requests.great_read_request books_b1_commented recorder
           requests.get_comment).
  apply list_elem_of_further, list_elem_of_here.
Defined.

(** [handleAdd] called with a commentable whose resource type is not
    provisioned. *)
Lemma failed_save_panics_witness :
  requests.handleAdd "-MZx3kQ0aB7cD9eF1gH2"
    (comment_service.with_value requests.post_great_read "b1" b1) ∅ recorder =
    (∅,
     requests.respondWithMsg recorder comment_service.commentSaveErr
       StatusInternalServerError,
     true).
Proof.
  assert (@json_Decode _ gojson_http.comment_decoder
            (comment_service.body
               (comment_service.with_value requests.post_great_read "b1" b1))
            comment_zero =
            ({| ID := ""; Value := "great read" |}, None)) as Hdec
    by (vm_compute; reflexivity).
  assert (comment_service.ctx
            (comment_service.with_value requests.post_great_read "b1" b1)
            !! comment_service.commentableKey
                 (comment_service.with_value requests.post_great_read "b1" b1)
          = Some b1) as Hctx
    by (vm_compute; reflexivity).
  apply (proj1 (@failed_save_panics gojson.comment_json gojson_http.comment_decoder
                  gojson_http.message_payload "-MZx3kQ0aB7cD9eF1gH2"
                  (comment_service.with_value requests.post_great_read "b1" b1)
                  ∅ recorder b1 {| ID := ""; Value := "great read" |}
                  Hdec ltac:(discriminate) Hctx)).
  vm_compute. discriminate.
Defined.

End comment_route_examples.

Section rating_route_examples.
Import rating http examples.

Lemma put_merges_rating_witness :
  ∃ db' data,
    @json_Marshal _ gojson.rating_json
      (merge_spec
         (default rating_zero (@get gojson.rating_json my_key posts_rated).1)
         (stars 4 0 0 0 0))
      = inr data ∧
    requests.put_ratings requests.put_four posts_rated recorder =
      (db', respond recorder data StatusOK, false) ∧
    @get gojson.rating_json my_key db' =
      (Some (merge_spec
               (default rating_zero (@get gojson.rating_json my_key posts_rated).1)
               (stars 4 0 0 0 0)), None) ∧
    ∀ w', requests.get_ratings requests.put_four db' w' =
            (db', respond w' data StatusOK, false).
Proof.
  apply (@put_merges_rating gojson.rating_json gojson_http.rating_decoder
           gojson_http.message_payload
           requests.put_four posts_rated recorder (stars 4 0 0 0 0)).
  - apply gojson_rating_roundtrip.
  - apply gojson_rating_fits.
  - apply posts_rated_reachable.
  - vm_compute. eauto.
  - discriminate.
  - vm_compute. reflexivity.
Defined.

(** A GET for an instance that was never rated. *)
Lemma rating_routes_read_witness :
  requests.get_ratings (requests.rating_request "posts" "another-key" "")
    posts_my_key recorder =
    (posts_my_key,
     requests.respondWithMsg recorder rating_service.ratingFetchErr StatusBadRequest,
     false).
Proof.
  apply (proj1 (proj2 (@rating_routes_read gojson.rating_json
                         gojson_http.rating_decoder gojson_http.message_payload
                         (requests.rating_request "posts" "another-key" "")
                         posts_my_key recorder))).
  - vm_compute. eauto.
  - vm_compute. reflexivity.
Defined.

End rating_route_examples.
